(** * Coding reliability analyzer: a shallow embedding and its properties

    The development follows [coding_quality_checker_EN.py] (the single-file
    analysis) and [statistical_comparison_analyzer_EN.py] (the report writer of
    the comparison tool).  Python values are embedded as follows:

    - a table cell is a string code or pandas' missing value [NaN];
    - a [DataFrame] is a list of column labels and a list of rows, each row
      carrying its index label, which is what [df.iterrows()] yields;
    - a raised exception is the left summand of [result];
    - [int / int] is the exact rational quotient.

    The model starts from the rows [pd.read_csv] has parsed: finding and
    decoding the file, the skipping of blank lines and the parsing of numbers
    are outside it.  Library functions that are not part of the repository
    are either parameters ([unicodedata], and [os.path.normpath], which
    depends on the platform) or written out from their documentation
    ([posixpath.normpath], and scikit-learn's [cohen_kappa_score] with the
    checks it makes on its input). *)

From Stdlib Require Import QArith Qround Ascii String Sorted.
From stdpp Require Import base option list strings.

Set Default Proof Using "Type".
Open Scope string_scope.
Open Scope nat_scope.
Open Scope list_scope.

(** ** Python values and exceptions *)

Inductive Cell : Type :=
  | Str (s : string)
  | NaN.

(** A label of a column or of a row: an integer (columns read with
    [header=None], rows of a [RangeIndex]) or a name. *)
Inductive Label : Type :=
  | Int (n : nat)
  | Name (s : string).

(** The messages of the [ValueError]s the analysis raises; each carries the
    values its f-string interpolates. *)
Inductive error_message : Type :=
  | FileIsEmpty
      (* "Error: File is empty, no data to analyze." *)
  | ColumnsNotInData (cols : list Label)
      (* "Error: Some specified coding columns {cols} are not in the data." *)
  | InvalidDataFormat (valid_categories : list string)
      (* "Error: Invalid data format, only categories {valid_categories} are
         allowed." *)
  | NoValidData
      (* "Error: No valid data after removing missing values." *)
  | InvalidKappaInput.
      (* raised inside scikit-learn by the checks on the two series; the text
         depends on the check that fails *)

Inductive exn : Type :=
  | KeyError (key : Label)
  | IndexError
  | TypeError
  | ValueError (msg : error_message)
  | NameError (name : string).

(** What [validate_data] prints:
    "Error: Row {row} contains invalid values: {values}". *)
Inductive message : Type :=
  | RowContainsInvalidValues (row : nat) (values : list Cell).

#[global] Instance Cell_eq_dec : EqDecision Cell.
Proof. solve_decision. Defined.
#[global] Instance Label_eq_dec : EqDecision Label.
Proof. solve_decision. Defined.
#[global] Instance error_message_eq_dec : EqDecision error_message.
Proof. solve_decision. Defined.
#[global] Instance exn_eq_dec : EqDecision exn.
Proof. solve_decision. Defined.
#[global] Instance message_eq_dec : EqDecision message.
Proof. solve_decision. Defined.
#[global] Instance Cell_inhabited : Inhabited Cell := populate NaN.

(** [result A] is a computation that returns an [A] or raises. *)
Definition result (A : Type) : Type := exn + A.

Definition raise {A} (e : exn) : result A := inl e.

#[global] Instance result_ret : MRet result := λ A x, inr x.
#[global] Instance result_bind : MBind result := λ A B f m,
  match m with
  | inl e => inl e
  | inr x => f x
  end.

(** [x != y] on cells: a missing value differs from everything, itself
    included. *)
Definition py_ne (x y : Cell) : bool :=
  match x, y with
  | Str a, Str b => negb (bool_decide (a = b))
  | _, _ => true
  end.

(** [x in valid_categories], the categories being strings. *)
Definition py_in (x : Cell) (valid_categories : list string) : bool :=
  match x with
  | Str s => bool_decide (s ∈ valid_categories)
  | NaN => false
  end.

(** [len(set(xs))]: the number of distinct values. *)
Definition len_set (xs : list Cell) : nat := length (remove_dups xs).

(** ** Data frames *)

Record DataFrame : Type := mkDataFrame {
  columns : list Label;
  body : list (nat * list Cell)
}.

(** Position of the first column carrying a label. *)
Definition col_pos (cols : list Label) (col : Label) : option nat :=
  fst <$> list_find (λ c, c = col) cols.

Definition locate (cols : list Label) (col : Label) : result nat :=
  match col_pos cols col with
  | Some p => mret p
  | None => raise (KeyError col)
  end.

(** A frame is rectangular: a cell that was not given reads as missing. *)
Definition cell_at (row : list Cell) (p : nat) : Cell := row !!! p.

(** [row[col]] *)
Definition row_get (cols : list Label) (row : list Cell) (col : Label)
  : result Cell :=
  p ← locate cols col; mret (cell_at row p).

(** [len(df)] and [df.empty] *)
Definition len (df : DataFrame) : nat := length (body df).

Definition empty (df : DataFrame) : bool :=
  bool_decide (columns df = []) || bool_decide (body df = []).

(** [df[col].values] *)
Definition column_values (df : DataFrame) (col : Label) : result (list Cell) :=
  p ← locate (columns df) col;
  mret ((λ r, cell_at r.2 p) <$> body df).

(** [df[cols].values], one list per row *)
Definition frame_values (df : DataFrame) (cols : list Label)
  : result (list (list Cell)) :=
  ps ← mapM (locate (columns df)) cols;
  mret ((λ r, cell_at r.2 <$> ps) <$> body df).

(** [df.get('comment', pd.Series(["No comment available"] * len(df))).values] *)
Definition comment_values (df : DataFrame) : list Cell :=
  match col_pos (columns df) (Name "comment") with
  | Some p => (λ r, cell_at r.2 p) <$> body df
  | None => replicate (len df) (Str "No comment available")
  end.

(** ** [calculate_ai_human_disagreement_rate] *)

(** A reported case: [(i + 1, comments[i], ai_row.tolist(), human_code)]. *)
Definition Case : Type := nat * Cell * list Cell * Cell.

Definition case_row (c : Case) : nat := c.1.1.1.

(** [any(ai_code != human_code for ai_code in ai_row)] *)
Definition any_disagrees (ai_row : list Cell) (human_code : Cell) : bool :=
  existsb (λ ai_code, py_ne ai_code human_code) ai_row.

(** The loop over [range(len(ai_codes))], started at position [i].  The three
    arrays are columns of one frame, of one length, and are walked in step.
    The result is [(disagreement_count, ai_human_disagreements)]. *)
Fixpoint disagreement_loop (i : nat) (ai_codes : list (list Cell))
    (human_codes comments : list Cell) : nat * list Case :=
  match ai_codes, human_codes, comments with
  | ai_row :: ai_codes', human_code :: human_codes', comment :: comments' =>
      let '(disagreement_count, ai_human_disagreements) :=
        disagreement_loop (S i) ai_codes' human_codes' comments' in
      if any_disagrees ai_row human_code
      then (S disagreement_count,
            (i + 1, comment, ai_row, human_code) :: ai_human_disagreements)
      else (disagreement_count, ai_human_disagreements)
  | _, _, _ => (0, [])
  end.

(** [a / b] on integers is true division. *)
Definition true_div (a b : nat) : Q :=
  (inject_Z (Z.of_nat a) / inject_Z (Z.of_nat b))%Q.

Definition calculate_ai_human_disagreement_rate (df : DataFrame)
    (ai_columns : list Label) (human_column : Label)
  : result (Q * nat * nat * list Case) :=
  ai_codes ← frame_values df ai_columns;
  human_codes ← column_values df human_column;
  let comments := comment_values df in
  let total_cases := len df in
  let '(disagreement_count, ai_human_disagreements) :=
    disagreement_loop 0 ai_codes human_codes comments in
  let disagreement_rate :=
    if bool_decide (0 < total_cases)
    then true_div disagreement_count total_cases
    else 0%Q in
  mret (disagreement_rate, disagreement_count, total_cases,
        ai_human_disagreements).

(** ** [validate_data] *)

(** [all(row[col] in valid_categories for col in cols)]; the generator stops
    at the first value that is not a category. *)
Fixpoint all_valid (cols : list Label) (row : list Cell)
    (valid_categories : list string) (sel : list Label) : result bool :=
  match sel with
  | [] => mret true
  | col :: sel' =>
      v ← row_get cols row col;
      if py_in v valid_categories
      then all_valid cols row valid_categories sel'
      else mret false
  end.

(** [[row[col] for col in cols]] *)
Definition row_values (cols : list Label) (row : list Cell) (sel : list Label)
  : result (list Cell) :=
  mapM (row_get cols row) sel.

(** The loop over [df.iterrows()]: what is printed, and the value returned. *)
Fixpoint validate_rows (cols : list Label) (sel : list Label)
    (valid_categories : list string) (rows : list (nat * list Cell))
  : list message * result bool :=
  match rows with
  | [] => ([], mret true)
  | (i, row) :: rows' =>
      match all_valid cols row valid_categories sel with
      | inl e => ([], raise e)
      | inr true => validate_rows cols sel valid_categories rows'
      | inr false =>
          match row_values cols row sel with
          | inl e => ([], raise e)
          | inr values => ([RowContainsInvalidValues (i + 1) values], mret false)
          end
      end
  end.

Definition validate_data (df : DataFrame) (ai_columns : list Label)
    (human_column : Label) (valid_categories : list string)
  : list message * result bool :=
  validate_rows (columns df) (ai_columns ++ [human_column]) valid_categories
    (body df).

(** ** Frame operations used by [analyze_coding_agreement] *)

(** [pd.read_csv(..., header=None)] on the parsed lines of the file: the
    columns, as many as the first line has fields, are labelled by position,
    and the rows by a [RangeIndex]. *)
Definition read_csv (lines : list (list Cell)) : DataFrame :=
  {| columns := Int <$> seq 0 (length (default [] (head lines)));
     body := imap (λ i row, (i, row)) lines |}.

(** [df.dropna(subset=subset)]: the rows with no missing cell in the subset,
    under the labels they had. *)
Definition dropna (df : DataFrame) (subset : list Label) : result DataFrame :=
  ps ← mapM (locate (columns df)) subset;
  mret {| columns := columns df;
          body := filter (λ r, Forall (λ p, cell_at r.2 p ≠ NaN) ps) (body df) |}.

(** [df.rename(columns={old: new})] *)
Definition rename (df : DataFrame) (old new : Label) : DataFrame :=
  {| columns := (λ c, if decide (c = old) then new else c) <$> columns df;
     body := body df |}.

(** [df[col] = values]: the column is replaced where it exists and appended
    otherwise; [values] has one cell per row. *)
Definition set_column (df : DataFrame) (col : Label) (values : list Cell)
  : DataFrame :=
  match col_pos (columns df) col with
  | Some p =>
      {| columns := columns df;
         body := zip_with (λ r v, (r.1, <[p:=v]> (resize (length (columns df)) NaN r.2)))
                   (body df) values |}
  | None =>
      {| columns := columns df ++ [col];
         body := zip_with (λ r v, (r.1, resize (length (columns df)) NaN r.2 ++ [v]))
                   (body df) values |}
  end.

(** [df.loc[label, col]] *)
Definition loc (df : DataFrame) (label : nat) (col : Label) : result Cell :=
  match list_find (λ r, r.1 = label) (body df) with
  | Some (_, r) => row_get (columns df) r.2 col
  | None => raise (KeyError (Int label))
  end.

(** Truth value of a label: [0] and the empty string are false. *)
Definition truthy (l : Label) : bool :=
  match l with
  | Int 0 => false
  | Name EmptyString => false
  | _ => true
  end.

(** ** [analyze_coding_agreement], from the loaded frame to the cleaned one *)

(** Lines 119-125: the selectors in force, [None] standing for the default. *)
Definition resolve_columns (df : DataFrame) (ai_columns : option (list Label))
    (human_column : option Label) : result (list Label * Label) :=
  let ai_columns := default (take 5 (columns df)) ai_columns in
  match from_option Some (last (columns df)) human_column with
  | None => raise IndexError
  | Some human_column =>
      if forallb (λ col, bool_decide (col ∈ columns df))
           (ai_columns ++ [human_column])
      then mret (ai_columns, human_column)
      else raise (ValueError (ColumnsNotInData (ai_columns ++ [human_column])))
  end.

(** Lines 127-132: the comment column. *)
Definition with_comment (df : DataFrame) (ai_columns : list Label)
    (human_column : Label) : DataFrame :=
  let comment_column :=
    if bool_decide (length ai_columns + 1 < length (columns df))
    then last (columns df) else None in
  match comment_column with
  | Some c =>
      if truthy c && negb (bool_decide (c = human_column))
      then rename df c (Name "comment")
      else set_column df (Name "comment")
             (replicate (len df) (Str "No comment available"))
  | None =>
      set_column df (Name "comment")
        (replicate (len df) (Str "No comment available"))
  end.

(** Lines 134-141: validation, then the removal of the rows with missing
    values.  The result is what is printed and either the exception raised or
    the cleaned frame. *)
Definition validate_and_drop (df : DataFrame) (ai_columns : list Label)
    (human_column : Label) (valid_categories : list string)
  : list message * result DataFrame :=
  match validate_data df ai_columns human_column valid_categories with
  | (out, inl e) => (out, raise e)
  | (out, inr false) =>
      (out, raise (ValueError (InvalidDataFormat valid_categories)))
  | (out, inr true) =>
      match dropna df (ai_columns ++ [human_column]) with
      | inl e => (out, raise e)
      | inr df =>
          if empty df then (out, raise (ValueError NoValidData))
          else (out, mret df)
      end
  end.

(** Lines 115-141. *)
Definition prepare (df : DataFrame) (ai_columns : option (list Label))
    (human_column : option Label) (valid_categories : list string)
  : list message * result (DataFrame * list Label * Label) :=
  if empty df then ([], raise (ValueError FileIsEmpty)) else
  match resolve_columns df ai_columns human_column with
  | inl e => ([], raise e)
  | inr (ai_columns, human_column) =>
      let df := with_comment df ai_columns human_column in
      match validate_and_drop df ai_columns human_column valid_categories with
      | (out, inl e) => (out, raise e)
      | (out, inr df) => (out, mret (df, ai_columns, human_column))
      end
  end.

(** ** Cohen's Kappa *)

(** Occurrences of a code in a series, and positions where two series agree. *)
Definition count (c : Cell) (ys : list Cell) : nat :=
  length (filter (λ y, y = c) ys).

Definition agreement_count (y1 y2 : list Cell) : nat :=
  length (filter (λ p, p.1 = p.2) (zip y1 y2)).

Definition chance_count (y1 y2 : list Cell) : nat :=
  sum_list ((λ c, count c y1 * count c y2) <$> remove_dups (y1 ++ y2)).

(** [cohen_kappa_score] is scikit-learn's and is not under src/.  Its value
    is written out from section 4.2 of the specification: Kappa for nominal
    categories is the agreement probability minus the expected-by-chance
    agreement probability, divided by one minus the expected-by-chance
    agreement probability; where that quotient is 0/0 the result is NaN, here
    [None].  The agreement probability is the share of positions where the
    series agree; the chance probability is the sum over the categories of
    the product of the two series' shares, written over the common
    denominator [n * n]. *)
Definition kappa (y1 y2 : list Cell) : option Q :=
  let n := length y1 in
  let p_o := true_div (agreement_count y1 y2) n in
  let p_e := true_div (chance_count y1 y2) (n * n) in
  if Qeq_bool (1 - p_e) 0
  then None
  else Some ((p_o - p_e) / (1 - p_e))%Q.

(** The series scikit-learn accepts: of one length, not empty, and holding no
    missing value. *)
Definition accepted (y1 y2 : list Cell) : Prop :=
  length y1 = length y2 ∧ y1 ≠ [] ∧ NaN ∉ y1 ++ y2.

#[global] Instance accepted_dec (y1 y2 : list Cell) : Decision (accepted y1 y2).
Proof. unfold accepted. apply _. Defined.

(** [cohen_kappa_score(y1, y2)]: the checks of the input raise before
    anything is computed. *)
Definition cohen_kappa_score (y1 y2 : list Cell) : result (option Q) :=
  if bool_decide (accepted y1 y2)
  then mret (kappa y1 y2)
  else raise (ValueError InvalidKappaInput).

(** [np.mean]: NaN for an empty list, and NaN as soon as one value is NaN. *)
Definition np_mean (ks : list (option Q)) : option Q :=
  match ks with
  | [] => None
  | _ =>
      xs ← mapM id ks;
      Some (foldr Qplus 0%Q xs / inject_Z (Z.of_nat (length ks)))%Q
  end.

(** ** [calculate_inter_rater_reliability] *)

(** [ai_codes[:, i]] *)
Definition array_col (ai_codes : list (list Cell)) (i : nat) : list Cell :=
  (λ row, cell_at row i) <$> ai_codes.

(** A reported internal disagreement: [(i + 1, comments[i], ai_codes[i].tolist())]. *)
Definition InternalCase : Type := nat * Cell * list Cell.

(** The loop of lines 67-69, started at position [i]. *)
Fixpoint internal_loop (i : nat) (ai_codes : list (list Cell))
    (comments : list Cell) : list InternalCase :=
  match ai_codes, comments with
  | ai_row :: ai_codes', comment :: comments' =>
      let ai_internal_disagreements := internal_loop (S i) ai_codes' comments' in
      if bool_decide (1 < len_set ai_row)
      then (i + 1, comment, ai_row) :: ai_internal_disagreements
      else ai_internal_disagreements
  | _, _ => []
  end.

(** [d[key] = value] on a dict kept in insertion order. *)
Fixpoint dict_set {V} (d : list (Label * V)) (key : Label) (value : V)
  : list (Label * V) :=
  match d with
  | [] => [(key, value)]
  | (k, v) :: d' =>
      if decide (k = key) then (k, value) :: d' else (k, v) :: dict_set d' key value
  end.

Record Reliability : Type := mkReliability {
  inter_mean_kappa : option Q;
  inter_kappas : list (option Q);
  intra_mean_kappa : option Q;
  intra_kappas : list (option Q);
  ai_internal_disagreements : list InternalCase;
  coder_mean_kappa : list (Label * option Q);
  ai_human_disagreement_info : Q * nat * nat * list Case
}.

(** The index pairs of the nested loops of lines 60-61, in the order they are
    visited. *)
Definition rater_pairs (n : nat) : list (nat * nat) :=
  i ← seq 0 n; pair i <$> seq (i + 1) (n - (i + 1)).

(** The loop of lines 72-75, from the dict built so far.  [coder_kappas] is
    never empty at line 75, since line 74 has appended to it. *)
Fixpoint coder_loop (ai_codes : list (list Cell)) (human_codes : list Cell)
    (n : nat) (cols : list (nat * Label))
    (coder_mean_kappa : list (Label * option Q))
  : result (list (Label * option Q)) :=
  match cols with
  | [] => mret coder_mean_kappa
  | (i, col) :: cols' =>
      coder_kappas ←
        mapM (λ j, cohen_kappa_score (array_col ai_codes i) (array_col ai_codes j))
          (filter (λ j, j ≠ i) (seq 0 n));
      k ← cohen_kappa_score (array_col ai_codes i) human_codes;
      coder_loop ai_codes human_codes n cols'
        (dict_set coder_mean_kappa col (np_mean (coder_kappas ++ [k])))
  end.

Definition calculate_inter_rater_reliability (df : DataFrame)
    (ai_columns : list Label) (human_column : Label) : result Reliability :=
  ai_codes ← frame_values df ai_columns;
  human_codes ← column_values df human_column;
  let comments := comment_values df in
  let n := length ai_columns in
  inter_kappas ←
    mapM (λ i, cohen_kappa_score human_codes (array_col ai_codes i)) (seq 0 n);
  let inter_mean_kappa := np_mean inter_kappas in
  intra_kappas ←
    mapM (λ '(i, j),
            cohen_kappa_score (array_col ai_codes i) (array_col ai_codes j))
      (rater_pairs n);
  let intra_mean_kappa :=
    match intra_kappas with
    | [] => Some 0%Q
    | _ => np_mean intra_kappas
    end in
  let ai_internal_disagreements := internal_loop 0 ai_codes comments in
  coder_mean_kappa ←
    coder_loop ai_codes human_codes n (imap (λ i col, (i, col)) ai_columns) [];
  ai_human_disagreement_info ←
    calculate_ai_human_disagreement_rate df ai_columns human_column;
  mret {| inter_mean_kappa := inter_mean_kappa;
          inter_kappas := inter_kappas;
          intra_mean_kappa := intra_mean_kappa;
          intra_kappas := intra_kappas;
          ai_internal_disagreements := ai_internal_disagreements;
          coder_mean_kappa := coder_mean_kappa;
          ai_human_disagreement_info := ai_human_disagreement_info |}.

(** ** The report and the CSV of [analyze_coding_agreement] *)

(** One block of "AI Internal Disagreement Cases": the tuple of the list and
    the human code read back with [df.loc[idx-1, human_column]]. *)
Definition InternalEntry : Type := InternalCase * Cell.

(** What lines 206-257 write: the statistics, the AI-Human disagreement cases
    and the internal disagreement cases.  The two lines on the overall mean and
    standard deviation of the coders' means are not part of the model. *)
Record Report : Type := mkReport {
  report_total_cases : nat;
  report_ai_coders : nat;
  report_reliability : Reliability;
  report_ai_human_cases : list Case;
  report_internal_cases : list InternalEntry
}.

(** The loop of lines 250-255. *)
Definition internal_entries (df : DataFrame) (human_column : Label)
    (cases : list InternalCase) : result (list InternalEntry) :=
  mapM (λ c : InternalCase,
          human_code ← loc df (c.1.1 - 1) human_column;
          mret (c, human_code)) cases.

Definition write_report (df : DataFrame) (ai_columns : list Label)
    (human_column : Label) (rel : Reliability) : result Report :=
  entries ← internal_entries df human_column (ai_internal_disagreements rel);
  mret {| report_total_cases := (ai_human_disagreement_info rel).1.2;
          report_ai_coders := length ai_columns;
          report_reliability := rel;
          report_ai_human_cases := (ai_human_disagreement_info rel).2;
          report_internal_cases := entries |}.

(** The local names [ai_codes] and [human_codes] of
    [analyze_coding_agreement] when line 261 is reached.  [human_codes] is
    assigned at line 269 only.  [ai_codes] is assigned at line 268 and is also
    the target of the loops at lines 192, 199, 239 and 250, which leave it
    bound to the codes of the last case they visited. *)
Definition ai_codes_at_261 (rel : Reliability) : option (list Cell) :=
  match last (ai_internal_disagreements rel) with
  | Some c => Some c.2
  | None =>
      match last (ai_human_disagreement_info rel).2 with
      | Some c => Some c.1.2
      | None => None
      end
  end.

Definition human_codes_at_261 : option (list Cell) := None.

(** Reading a local name. *)
Definition load_name {A} (name : string) (v : option A) : result A :=
  match v with
  | Some x => mret x
  | None => raise (NameError name)
  end.

(** [xs[i]] on a list. *)
Definition list_getitem (xs : list Cell) (i : nat) : result Cell :=
  match xs !! i with
  | Some x => mret x
  | None => raise IndexError
  end.

(** [x[0]] on a cell: the first character of a string. *)
Definition cell_first (x : Cell) : result Cell :=
  match x with
  | Str (String a _) => mret (Str (String a EmptyString))
  | Str EmptyString => raise IndexError
  | NaN => raise TypeError
  end.

(** [len(set(x))] on a cell: the distinct characters of a string. *)
Definition cell_len_set (x : Cell) : result nat :=
  match x with
  | Str s => mret (length (remove_dups (String.list_ascii_of_string s)))
  | NaN => raise TypeError
  end.

(** Line 263, one element:
    [human_codes[i] == ai_codes[i][0] and len(set(ai_codes[i])) == 1]. *)
Definition ai_human_agreement_flag (ai_codes human_codes : option (list Cell))
    (i : nat) : result bool :=
  hs ← load_name "human_codes" human_codes;
  h ← list_getitem hs i;
  cs ← load_name "ai_codes" ai_codes;
  c ← list_getitem cs i;
  c0 ← cell_first c;
  if py_ne h c0 then mret false
  else
    c' ← list_getitem cs i;
    n ← cell_len_set c';
    mret (bool_decide (n = 1)).

(** Line 264, one element: [len(set(ai_codes[i])) == 1]. *)
Definition ai_internal_agreement_flag (ai_codes : option (list Cell))
    (i : nat) : result bool :=
  cs ← load_name "ai_codes" ai_codes;
  c ← list_getitem cs i;
  n ← cell_len_set c;
  mret (bool_decide (n = 1)).

Inductive CsvValue : Type :=
  | VCell (c : Cell)
  | VBool (b : bool).

Inductive CsvHeader : Type :=
  | final_coding
  | ai_human_agreement
  | ai_internal_agreement
  | comment
  | coder (col : Label).

(** The table handed to [to_csv(output_csv, index=True, index_label='row')]:
    the row labels and the columns in order. *)
Record CsvTable : Type := mkCsvTable {
  csv_row : list nat;
  csv_columns : list (CsvHeader * list CsvValue)
}.

(** Lines 261-272. *)
Definition results_table (df : DataFrame) (ai_columns : list Label)
    (human_column : Label) (ai_codes human_codes : option (list Cell))
  : result CsvTable :=
  final ← column_values df (Name "final_coding");
  flags1 ← mapM (ai_human_agreement_flag ai_codes human_codes) (seq 0 (len df));
  flags2 ← mapM (ai_internal_agreement_flag ai_codes) (seq 0 (len df));
  comments ← column_values df (Name "comment");
  _ ← frame_values df ai_columns;
  _ ← column_values df human_column;
  coders ← mapM (λ col, vs ← column_values df col;
                        mret (coder col, VCell <$> vs))
                (ai_columns ++ [human_column]);
  mret {| csv_row := fst <$> body df;
          csv_columns :=
            [(final_coding, VCell <$> final);
             (ai_human_agreement, VBool <$> flags1);
             (ai_internal_agreement, VBool <$> flags2);
             (comment, VCell <$> comments)] ++ coders |}.

(** ** [analyze_coding_agreement] *)

(** The files of a run: the report (its content, or [None] when the writing
    was cut short by an exception) and the CSV. *)
Inductive File : Type :=
  | reliability_results_txt (content : option Report)
  | results_csv (table : CsvTable).

Record Run : Type := mkRun {
  printed : list message;
  written : list File;
  outcome : result (DataFrame * Reliability)
}.

(** The run on the frame read from the input file (lines 115-279).  Finding
    and decoding the file come before and are not part of the model. *)
Definition analyze_coding_agreement (lines : list (list Cell))
    (ai_columns : option (list Label)) (human_column : option Label)
    (valid_categories : list string) : Run :=
  match prepare (read_csv lines) ai_columns human_column valid_categories with
  | (out, inl e) => mkRun out [] (raise e)
  | (out, inr (df, ai_columns, human_column)) =>
      match calculate_inter_rater_reliability df ai_columns human_column with
      | inl e => mkRun out [] (raise e)
      | inr rel =>
          match column_values df human_column with
          | inl e => mkRun out [] (raise e)
          | inr human =>
              let df := set_column df (Name "final_coding") human in
              match write_report df ai_columns human_column rel with
              | inl e => mkRun out [reliability_results_txt None] (raise e)
              | inr report =>
                  let txt := reliability_results_txt (Some report) in
                  match results_table df ai_columns human_column
                          (ai_codes_at_261 rel) human_codes_at_261 with
                  | inl e => mkRun out [txt] (raise e)
                  | inr table =>
                      mkRun out [txt; results_csv table] (mret (df, rel))
                  end
              end
          end
      end
  end.

(** ** [clean_path] *)

(** A Python [str] is a sequence of code points. *)
Definition codepoint : Type := N.
Definition pystr : Type := list codepoint.

Definition slash : codepoint := 47%N.
Definition dot : codepoint := 46%N.

Module posixpath.

(** [path.split('/')] *)
Fixpoint split (path : pystr) : list pystr :=
  match path with
  | [] => [[]]
  | c :: path' =>
      if decide (c = slash) then [] :: split path'
      else
        match split path' with
        | comp :: comps => (c :: comp) :: comps
        | [] => [[c]]
        end
  end.

(** ['/'.join(comps)] *)
Fixpoint join (comps : list pystr) : pystr :=
  match comps with
  | [] => []
  | [comp] => comp
  | comp :: comps' => comp ++ slash :: join comps'
  end.

(** The number of leading slashes [normpath] keeps: one, or two when the
    path starts with exactly two. *)
Definition initial_slashes (path : pystr) : nat :=
  match path with
  | c1 :: rest =>
      if decide (c1 = slash) then
        match rest with
        | c2 :: rest' =>
            if decide (c2 = slash) then
              match rest' with
              | c3 :: _ => if decide (c3 = slash) then 1 else 2
              | [] => 2
              end
            else 1
        | [] => 1
        end
      else 0
  | [] => 0
  end.

(** The body of the loop over the components; [new_comps] is kept with its
    last element first. *)
Definition step (initial : nat) (new_comps : list pystr) (comp : pystr)
  : list pystr :=
  if bool_decide (comp = []) || bool_decide (comp = [dot]) then new_comps
  else if negb (bool_decide (comp = [dot; dot]))
          || (bool_decide (initial = 0) && bool_decide (new_comps = []))
          || bool_decide (head new_comps = Some [dot; dot])
       then comp :: new_comps
       else tail new_comps.

(** [os.path.normpath] on POSIX. *)
Definition normpath (path : pystr) : pystr :=
  match path with
  | [] => [dot]
  | _ =>
      let initial := initial_slashes path in
      let new_comps := foldl (step initial) [] (split path) in
      let path := replicate initial slash ++ join (reverse new_comps) in
      match path with
      | [] => [dot]
      | _ => path
      end
  end.

(** A component [normpath] keeps: not empty, not ".", and free of slashes. *)
Definition kept (comp : pystr) : Prop :=
  comp ≠ [] ∧ comp ≠ [dot] ∧ slash ∉ comp.

(** The stacks the loop builds for a path with [initial] leading slashes:
    every component is one the loop keeps, and ".." stays on the stack only in
    a relative path, on top of nothing but other "..". *)
Fixpoint normal (initial : nat) (new_comps : list pystr) : Prop :=
  match new_comps with
  | [] => True
  | comp :: below =>
      kept comp ∧ normal initial below
      ∧ (comp = [dot; dot] →
         initial = 0 ∧ (below = [] ∨ head below = Some [dot; dot]))
  end.

End posixpath.

Section clean_path.

(** [unicodedata.normalize('NFKC', _)] and [unicodedata.category]: the
    Unicode character database is data of the interpreter. *)
Variable normalize_NFKC : pystr → pystr.
Variable category : codepoint → string.

(** [os.path.normpath]: [posixpath.normpath] on POSIX, [ntpath.normpath] on
    Windows.  Only the former is written out above. *)
Variable normpath : pystr → pystr.

(** [unicodedata.category(c)[0] != 'C'] *)
Definition not_control (c : codepoint) : bool :=
  match category c with
  | String a _ => negb (bool_decide (a = "C"%char))
  | EmptyString => true
  end.

Definition clean_path (path : pystr) : pystr :=
  let cleaned := normalize_NFKC path in
  let cleaned := List.filter not_control cleaned in
  let cleaned := normpath cleaned in
  cleaned.

End clean_path.

(** The character database on the code points the examples below use:
    U+0061 (a), U+00E1 (a with acute), U+0301 (combining acute), U+200B (zero
    width space), U+002E and U+002F.  U+00E1 is the canonical composition of
    U+0061 U+0301; U+200B is a format character with no decomposition, and a
    starter, so no composition happens across it. *)
Module ucd.

Definition category (c : codepoint) : string :=
  match c with
  | 97%N | 225%N => "Ll"
  | 769%N => "Mn"
  | 8203%N => "Cf"
  | 46%N | 47%N => "Po"
  | _ => if (c <? 32)%N then "Cc" else "Lo"
  end.

Fixpoint normalize_NFKC (s : pystr) : pystr :=
  match s with
  | 97%N :: 769%N :: rest => 225%N :: normalize_NFKC rest
  | c :: rest => c :: normalize_NFKC rest
  | [] => []
  end.

End ucd.

(** ** [save_results_optimized]: the comparison section of the report *)

Section comparison_report.

(** The numbers of the comparison tool are floats computed elsewhere; the
    report only formats them. *)
Context {F : Type}.
Variable zero nan : F.

(** The pieces of a written line: literal text, a number formatted with
    [:.{digits}f], a p-value written as [p={x:.6f}], and the text
    [self.get_significance_symbol(x)] returns. *)
Inductive Fragment : Type :=
  | Text (s : string)
  | Fixed (digits : nat) (x : F)
  | PValue (x : F)
  | Marker (x : F).

Definition Line : Type := list Fragment.

(** Rendering, given the formatter and the symbol function. *)
Definition render_fragment (format : nat → F → string)
    (get_significance_symbol : F → string) (f : Fragment) : string :=
  match f with
  | Text s => s
  | Fixed digits x => format digits x
  | PValue x => "p=" +:+ format 6 x
  | Marker x => get_significance_symbol x
  end.

Definition render (format : nat → F → string)
    (get_significance_symbol : F → string) (l : Line) : string :=
  foldr (λ f s, render_fragment format get_significance_symbol f +:+ s)
    EmptyString l.

(** [all_results], as far as lines 70-88 read it. *)
Record AllResults : Type := mkAllResults {
  comparison_results : option (list F);
  disagreement_rates : option (list F);
  corrected_p_values : option (list F)
}.

(** Writing to the open file: the lines written so far, and the value or the
    exception that ended the writing. *)
Definition Writer (A : Type) : Type := list Line * result A.

Definition wret {A} (x : A) : Writer A := ([], inr x).

Definition wbind {A B} (m : Writer A) (f : A → Writer B) : Writer B :=
  match m with
  | (ls, inl e) => (ls, inl e)
  | (ls, inr x) => let '(ls', r) := f x in (ls ++ ls', r)
  end.

Definition write (l : Line) : Writer unit := ([l], inr tt).

(** [xs[i]] *)
Definition item (xs : list F) (i : nat) : Writer F :=
  match xs !! i with
  | Some x => wret x
  | None => ([], raise IndexError)
  end.

Notation "x <- m ;; k" := (wbind m (λ x, k))
  (at level 100, m at next level, right associativity).
Notation "m ;;; k" := (wbind m (λ _, k))
  (at level 100, right associativity).

(** Lines 70-88, one [write] per line written, without the newlines (and with
    a plain apostrophe in the text of line 74).  A value interpolated twice in
    one line is read once.  The lines written before (25-68: the header and
    the block of each input file) show Kappas, rates and counts, and no
    p-value; they are not part of the model. *)
Definition comparison_section (all_results : AllResults) : Writer unit :=
  match comparison_results all_results with
  | None | Some [] => wret tt
  | Some comp =>
      let disagreement_rates :=
        default [zero; zero; zero; zero; zero; zero; nan; nan]
          (disagreement_rates all_results) in
      write [Text "=== Statistical Comparison Results ==="] ;;;
      write [Text "Methods: Fisher's z transformation + Independent t-test (Kappa) and Z-test (AI-Human Disagreement Rate)"] ;;;
      c0 <- item comp 0 ;; c1 <- item comp 1 ;; c2 <- item comp 2 ;;
      write [Text "Inter-rater Comparison: t="; Fixed 3 c0; Text ", ";
             PValue c1; Text ", Cohen's d="; Fixed 3 c2] ;;;
      c3 <- item comp 3 ;; c4 <- item comp 4 ;; c5 <- item comp 5 ;;
      write [Text "Intra-rater Comparison: t="; Fixed 3 c3; Text ", ";
             PValue c4; Text ", Cohen's d="; Fixed 3 c5] ;;;
      (if bool_decide (8 ≤ length disagreement_rates)
       then
         d6 <- item disagreement_rates 6 ;; d7 <- item disagreement_rates 7 ;;
         write [Text "AI-Human Disagreement Rate Comparison: Z="; Fixed 4 d6;
                Text ", "; PValue d7]
       else
         write [Text "AI-Human Disagreement Rate Comparison: Cannot compute (insufficient data)"]) ;;;
      c1 <- item comp 1 ;; c4 <- item comp 4 ;;
      d7 <- (if bool_decide (8 ≤ length disagreement_rates)
             then item disagreement_rates 7 else wret nan) ;;
      let corrected_p := default [c1; c4; d7] (corrected_p_values all_results) in
      write [Text "=== Multiple Comparison Corrected p-values (Benjamini-Hochberg) ==="] ;;;
      p0 <- item corrected_p 0 ;;
      write [Text "Inter-rater Comparison (Corrected): "; PValue p0; Text " ";
             Marker p0] ;;;
      p1 <- item corrected_p 1 ;;
      write [Text "Intra-rater Comparison (Corrected): "; PValue p1; Text " ";
             Marker p1] ;;;
      p2 <- item corrected_p 2 ;;
      write [Text "AI-Human Disagreement Rate Comparison (Corrected): ";
             PValue p2; Text " "; Marker p2] ;;;
      write [Text "=== Non-parametric Test Verification ==="] ;;;
      c6 <- item comp 6 ;;
      write [Text "Inter-rater Mann-Whitney U: "; PValue c6; Text " ";
             Marker c6] ;;;
      c7 <- item comp 7 ;;
      write [Text "Intra-rater Mann-Whitney U: "; PValue c7; Text " ";
             Marker c7]
  end.

(** The lines that report a test statistic with its uncorrected p-value. *)
Definition raw_test_labels : list string :=
  ["Inter-rater Comparison: t="; "Intra-rater Comparison: t=";
   "AI-Human Disagreement Rate Comparison: Z="].

Definition is_raw_test_line (l : Line) : Prop :=
  ∃ label, head l = Some (Text label) ∧ label ∈ raw_test_labels.

(** A line is well marked when each p-value it shows comes with its marker,
    unless the line is one of the three that report a test statistic with
    its uncorrected p-value. *)
Definition well_marked (l : Line) : Prop :=
  ∀ p, PValue p ∈ l → Marker p ∈ l ∨ is_raw_test_line l.

(** A line that opens with one of the three labels carries no marker. *)
Definition raw_unmarked (l : Line) : Prop :=
  is_raw_test_line l → ∀ q, Marker q ∉ l.

End comparison_report.

Arguments Text {F} s.
Arguments AllResults F : clear implicits.
Arguments Fragment F : clear implicits.
Arguments Line F : clear implicits.

(** ** Predicates and functions the statements use *)

(** [round(x)]: to the nearest integer, a tie going to the even one. *)
Definition py_round (x : Q) : Z :=
  let f := Qfloor x in
  match (x - inject_Z f ?= 1 # 2)%Q with
  | Lt => f
  | Gt => (f + 1)%Z
  | Eq => if Z.even f then f else (f + 1)%Z
  end.

(** No row of the frame misses a value in the given columns. *)
Definition no_missing (df : DataFrame) (cols : list Label) : Prop :=
  ∀ r col, r ∈ body df → col ∈ cols → row_get (columns df) r.2 col ≠ inr NaN.

(** The disagreement set of section 4.2, on the rows themselves: a row
    belongs to it when at least one rater's code in the row differs from the
    reference code of the row; the set lists the 1-based numbers of these
    rows. *)
Definition differs_from_reference (cols ai_columns : list Label)
    (human_column : Label) (row : list Cell) : Prop :=
  Exists (λ col, row_get cols row col ≠ row_get cols row human_column)
    ai_columns.

#[global] Instance differs_from_reference_dec (cols ai_columns : list Label)
    (human_column : Label) (row : list Cell) :
  Decision (differs_from_reference cols ai_columns human_column row).
Proof. unfold differs_from_reference. apply _. Defined.

Definition disagreement_set (df : DataFrame) (ai_columns : list Label)
    (human_column : Label) : list nat :=
  fst <$> filter (λ kr : nat * (nat * list Cell),
                    differs_from_reference (columns df) ai_columns
                      human_column kr.2.2)
            (zip (seq 1 (len df)) (body df)).

(** A row whose values in the given columns are all valid categories. *)
Definition row_valid (cols : list Label) (valid_categories : list string)
    (sel : list Label) (row : list Cell) : Prop :=
  ∀ col, col ∈ sel →
    ∃ s, row_get cols row col = inr (Str s) ∧ s ∈ valid_categories.

(** The rows of a frame are labelled by their positions. *)
Definition range_index (df : DataFrame) : Prop :=
  fst <$> body df = seq 0 (len df).

(** A series with a single value. *)
Definition constant (ys : list Cell) : Prop :=
  ∀ x y, x ∈ ys → y ∈ ys → x = y.

(** The table of the first end-to-end scenario: three raters and the
    reference, four rows. *)
Definition scenario_1 : list (list Cell) :=
  [[Str "a"; Str "a"; Str "a"; Str "a"];
   [Str "a"; Str "b"; Str "a"; Str "a"];
   [Str "b"; Str "b"; Str "b"; Str "b"];
   [Str "a"; Str "a"; Str "b"; Str "a"]].

(** The frame of the first scenario as the analysis holds it after line 141:
    three raters, the last column as reference. *)
Definition scenario_1_frame : DataFrame :=
  with_comment (read_csv scenario_1) [Int 0; Int 1; Int 2] (Int 3).

(** A table of the second end-to-end scenario: the first rater and the
    reference are entirely "a". *)
Definition scenario_2 : list (list Cell) :=
  [[Str "a"; Str "a"; Str "a"];
   [Str "a"; Str "b"; Str "a"];
   [Str "a"; Str "a"; Str "a"]].

(** Results of a comparison, for the examples: the numbers are rationals,
    [None] standing for NaN. *)
Definition example_results : AllResults (option Q) :=
  {| comparison_results :=
       Some [Some (21 # 10); Some (4 # 100); Some (1 # 2); Some (13 # 10);
             Some (2 # 10); Some (3 # 10); Some (3 # 100); Some (25 # 100)]%Q;
     disagreement_rates :=
       Some [Some (1 # 2); Some (1 # 4); Some 2; Some 1; Some 4; Some 4;
             Some (12 # 10); Some (23 # 100)]%Q;
     corrected_p_values :=
       Some [Some (12 # 100); Some (2 # 10); Some (23 # 100)]%Q |}.

(** The same comparison, handed over without the rates and without corrected
    p-values. *)
Definition uncorrected_results : AllResults (option Q) :=
  {| comparison_results := comparison_results example_results;
     disagreement_rates := None;
     corrected_p_values := None |}.

(** ** Output names and agreement counts of [analyze_coding_agreement] *)

(** [s.rsplit(sep, 1)] where [sep] occurs: the parts before and after its last
    occurrence; [None] where it does not occur. *)
Fixpoint rsplit_once (sep : codepoint) (s : pystr) : option (pystr * pystr) :=
  match s with
  | [] => None
  | c :: s' =>
      match rsplit_once sep s' with
      | Some (before, after) => Some (c :: before, after)
      | None => if decide (c = sep) then Some ([], s') else None
      end
  end.

(** [file_path.rsplit('.', 1)[0]] *)
Definition rsplit_dot_0 (file_path : pystr) : pystr :=
  match rsplit_once dot file_path with
  | Some (before, _) => before
  | None => file_path
  end.

(** The code points of an ASCII literal. *)
Definition literal (s : string) : pystr :=
  N_of_ascii <$> String.list_ascii_of_string s.

(** Lines 205 and 260. *)
Definition output_file (file_path : pystr) : pystr :=
  rsplit_dot_0 file_path ++ literal "_reliability_results.txt".

Definition output_csv (file_path : pystr) : pystr :=
  rsplit_dot_0 file_path ++ literal "_results.csv".

(** Lines 155-156; Python integers do not truncate a difference. *)
Definition ai_internal_unanimous (df : DataFrame) (rel : Reliability) : Z :=
  (Z.of_nat (len df) - Z.of_nat (length (ai_internal_disagreements rel)))%Z.

(** [ai_human_agreement] of line 156 (the name is taken by the CSV column). *)
Definition ai_human_agreement_count (rel : Reliability) : Z :=
  let '(_, ai_human_disagreement_count, total_cases, _) :=
    ai_human_disagreement_info rel in
  (Z.of_nat total_cases - Z.of_nat ai_human_disagreement_count)%Z.

(** * Properties *)

(** ** The result monad *)

Ltac unfold_result :=
  unfold raise, mret, result_ret in *.

Lemma bind_inr {A B} (m : result A) (f : A → result B) (y : B) :
  m ≫= f = inr y ↔ ∃ x, m = inr x ∧ f x = inr y.
Proof.
  destruct m as [e|x]; simpl; split.
  - discriminate.
  - intros (x & Hx & _). discriminate.
  - eauto.
  - intros (x' & [= ->] & Hy). done.
Qed.

Lemma mapM_inr {A B} (f : A → result B) (l : list A) (k : list B) :
  mapM f l = inr k ↔ Forall2 (λ x y, f x = inr y) l k.
Proof.
  revert k. induction l as [|x l IH]; intros k; simpl.
  - split.
    + intros [= <-]. constructor.
    + intros Hk. inversion Hk. done.
  - split.
    + intros H. apply bind_inr in H as (y & Hy & H).
      apply bind_inr in H as (k' & Hk' & H). injection H as <-.
      constructor; [done|]. by apply IH.
    + intros Hk. inversion Hk as [|? y ? k' Hy Hk']; subst.
      apply bind_inr. exists y. split; [done|].
      apply bind_inr. exists k'. split; [by apply IH|done].
Qed.

Lemma mapM_is_inr {A B} (f : A → result B) (l : list A) :
  Forall (λ x, ∃ y, f x = inr y) l → ∃ k, mapM f l = inr k.
Proof.
  induction 1 as [|x l [y Hy] _ [k Hk]].
  - by exists [].
  - exists (y :: k). apply mapM_inr. constructor; [done|]. by apply mapM_inr.
Qed.

(** ** Columns and cells *)

Lemma locate_inr (cols : list Label) (col : Label) (p : nat) :
  locate cols col = inr p ↔ col_pos cols col = Some p.
Proof.
  unfold locate. destruct (col_pos cols col); unfold_result; split; congruence.
Qed.

Lemma locate_elem_of (cols : list Label) (col : Label) :
  col ∈ cols → ∃ p, locate cols col = inr p.
Proof.
  intros Hin. unfold locate, col_pos.
  destruct (list_find_elem_of (λ c, c = col) cols col Hin eq_refl) as [[p c] ->].
  by exists p.
Qed.

Lemma row_get_locate (cols : list Label) (row : list Cell) (col : Label) (p : nat) :
  locate cols col = inr p → row_get cols row col = inr (cell_at row p).
Proof. unfold row_get. by intros ->. Qed.

Lemma length_frame_values (df : DataFrame) (cols : list Label) m :
  frame_values df cols = inr m → length m = len df.
Proof.
  unfold frame_values. intros H. apply bind_inr in H as (ps & _ & [= <-]).
  by rewrite length_fmap.
Qed.

Lemma length_column_values (df : DataFrame) (col : Label) v :
  column_values df col = inr v → length v = len df.
Proof.
  unfold column_values. intros H. apply bind_inr in H as (ps & _ & [= <-]).
  by rewrite length_fmap.
Qed.

Lemma length_comment_values (df : DataFrame) :
  length (comment_values df) = len df.
Proof.
  unfold comment_values. destruct (col_pos _ _).
  - by rewrite length_fmap.
  - by rewrite length_replicate.
Qed.

Lemma frame_values_is_inr (df : DataFrame) (cols : list Label) :
  (∀ col, col ∈ cols → col ∈ columns df) → ∃ m, frame_values df cols = inr m.
Proof.
  intros Hcols. unfold frame_values.
  destruct (mapM_is_inr (locate (columns df)) cols) as [ps Hps].
  - apply Forall_forall. intros col Hcol. by apply locate_elem_of, Hcols.
  - rewrite Hps. simpl. eauto.
Qed.

Lemma column_values_is_inr (df : DataFrame) (col : Label) :
  col ∈ columns df → ∃ v, column_values df col = inr v.
Proof.
  intros Hcol. unfold column_values.
  destruct (locate_elem_of _ _ Hcol) as [p ->]. simpl. eauto.
Qed.

(** ** The disagreement set *)

Lemma any_disagrees_spec (ai_row : list Cell) (human_code : Cell) :
  any_disagrees ai_row human_code = true ↔
  ∃ c, c ∈ ai_row ∧ py_ne c human_code = true.
Proof.
  unfold any_disagrees. induction ai_row as [|x xs IH]; simpl.
  - split; [discriminate|]. intros (c & Hc & _). by apply elem_of_nil in Hc.
  - rewrite orb_true_iff, IH. split.
    + intros [Hx|(c & Hc & Hne)].
      * exists x. split; [left|done].
      * exists c. split; [by right|done].
    + intros (c & Hc & Hne). apply elem_of_cons in Hc as [->|Hc]; eauto.
Qed.

Lemma py_ne_codes (x y : Cell) :
  x ≠ NaN → y ≠ NaN → py_ne x y = true ↔ x ≠ y.
Proof.
  destruct x as [a|], y as [b|]; try done. intros _ _. simpl.
  rewrite negb_true_iff, bool_decide_eq_false. split; congruence.
Qed.

Lemma disagreement_loop_rows (ai_codes : list (list Cell)) :
  ∀ (i : nat) (human_codes comments : list Cell),
    length human_codes = length ai_codes →
    length comments = length ai_codes →
    ∀ k, k ∈ case_row <$> (disagreement_loop i ai_codes human_codes comments).2 ↔
         ∃ j ai_row human_code,
           k = i + j + 1 ∧ ai_codes !! j = Some ai_row ∧
           human_codes !! j = Some human_code ∧
           any_disagrees ai_row human_code = true.
Proof.
  induction ai_codes as [|ai_row ai_codes IH];
    intros i [|h hs] [|c cs] Hh Hc k; simplify_eq/=.
  - split.
    + intros Hk. by apply elem_of_nil in Hk.
    + intros (j & ? & ? & _ & Hj & _). done.
  - specialize (IH (S i) hs cs Hh Hc k).
    destruct (disagreement_loop (S i) ai_codes hs cs) as [n ds]. simpl in IH.
    assert (Htail : (∃ j ai_row' human_code, k = i + j + 1
                       ∧ (ai_row :: ai_codes) !! j = Some ai_row'
                       ∧ (h :: hs) !! j = Some human_code
                       ∧ any_disagrees ai_row' human_code = true)
                    ↔ (k = i + 1 ∧ any_disagrees ai_row h = true)
                      ∨ k ∈ case_row <$> ds).
    { rewrite IH. split.
      - intros ([|j] & r & hc & -> & Hr & Hhc & Hd); simplify_eq/=.
        + left. split; [lia|done].
        + right. exists j, r, hc. split; [lia|done].
      - intros [[-> Hd]|(j & r & hc & -> & Hr & Hhc & Hd)].
        + exists 0, ai_row, h. split; [lia|done].
        + exists (S j), r, hc. split; [lia|done]. }
    rewrite Htail. destruct (any_disagrees ai_row h); simpl.
    + rewrite elem_of_cons. unfold case_row at 1. simpl. intuition.
    + intuition congruence.
Qed.

Lemma disagreement_loop_count (ai_codes : list (list Cell)) :
  ∀ (i : nat) (human_codes comments : list Cell),
    (disagreement_loop i ai_codes human_codes comments).1
      = length (disagreement_loop i ai_codes human_codes comments).2
    ∧ (disagreement_loop i ai_codes human_codes comments).1 ≤ length ai_codes.
Proof.
  induction ai_codes as [|ai_row ai_codes IH]; intros i [|h hs] [|c cs];
    simpl; try (split; [done|lia]).
  specialize (IH (S i) hs cs).
  destruct (disagreement_loop (S i) ai_codes hs cs) as [n ds]. simpl in IH.
  destruct (any_disagrees ai_row h); simpl; split; lia.
Qed.

Lemma frame_values_inr (df : DataFrame) (cols : list Label) m :
  frame_values df cols = inr m ↔
  ∃ ps, Forall2 (λ col p, locate (columns df) col = inr p) cols ps
        ∧ m = (λ r, cell_at r.2 <$> ps) <$> body df.
Proof.
  unfold frame_values. rewrite bind_inr. unfold_result. split.
  - intros (ps & Hps & [= <-]). exists ps. by rewrite <- mapM_inr.
  - intros (ps & Hps & ->). exists ps. by rewrite mapM_inr.
Qed.

Lemma column_values_inr (df : DataFrame) (col : Label) v :
  column_values df col = inr v ↔
  ∃ p, locate (columns df) col = inr p ∧ v = (λ r, cell_at r.2 p) <$> body df.
Proof.
  unfold column_values. rewrite bind_inr. unfold_result. split.
  - intros (p & Hp & [= <-]). eauto.
  - intros (p & Hp & ->). eauto.
Qed.

(** Where the columns exist the function returns, and what it returns is
    built from the loop. *)
Lemma calculate_ai_human_disagreement_rate_inr (df : DataFrame)
    (ai_columns : list Label) (human_column : Label) :
  (∀ col, col ∈ ai_columns ++ [human_column] → col ∈ columns df) →
  ∃ ai_codes human_codes,
    frame_values df ai_columns = inr ai_codes
    ∧ column_values df human_column = inr human_codes
    ∧ calculate_ai_human_disagreement_rate df ai_columns human_column
      = let r := disagreement_loop 0 ai_codes human_codes (comment_values df) in
        inr (if bool_decide (0 < len df) then true_div r.1 (len df) else 0%Q,
             r.1, len df, r.2).
Proof.
  intros Hcols.
  destruct (frame_values_is_inr df ai_columns) as [ai Hai].
  { intros col Hcol. apply Hcols, elem_of_app. by left. }
  destruct (column_values_is_inr df human_column) as [hs Hhs].
  { apply Hcols, elem_of_app. right. by apply list_elem_of_singleton. }
  exists ai, hs. split_and!; [done..|].
  unfold calculate_ai_human_disagreement_rate. rewrite Hai, Hhs. simpl.
  by destruct (disagreement_loop 0 ai hs (comment_values df)).
Qed.

Lemma Forall2_locate_r (cols ai_columns : list Label) (ps : list nat) (p : nat) :
  Forall2 (λ col p, locate cols col = inr p) ai_columns ps →
  p ∈ ps → ∃ col, col ∈ ai_columns ∧ locate cols col = inr p.
Proof.
  intros HF Hp. apply list_elem_of_lookup in Hp as [j Hj].
  destruct (Forall2_lookup_r _ _ _ _ _ HF Hj) as (col & Hcol & Hloc).
  exists col. split; [|done]. apply list_elem_of_lookup. eauto.
Qed.

Lemma Forall2_locate_l (cols ai_columns : list Label) (ps : list nat) (col : Label) :
  Forall2 (λ col p, locate cols col = inr p) ai_columns ps →
  col ∈ ai_columns → ∃ p, p ∈ ps ∧ locate cols col = inr p.
Proof.
  intros HF Hcol. apply list_elem_of_lookup in Hcol as [j Hj].
  destruct (Forall2_lookup_l _ _ _ _ _ HF Hj) as (p & Hp & Hloc).
  exists p. split; [|done]. apply list_elem_of_lookup. eauto.
Qed.

(** Membership of a row in the disagreement set, on the frame itself. *)
Lemma disagreement_rows_of_frame (df : DataFrame) (ai_columns : list Label)
    (human_column : Label) ai_codes human_codes (i : nat) r :
  frame_values df ai_columns = inr ai_codes →
  column_values df human_column = inr human_codes →
  no_missing df (ai_columns ++ [human_column]) →
  body df !! i = Some r →
  i + 1 ∈ case_row <$>
    (disagreement_loop 0 ai_codes human_codes (comment_values df)).2 ↔
  ∃ col, col ∈ ai_columns
         ∧ row_get (columns df) r.2 col ≠ row_get (columns df) r.2 human_column.
Proof.
  intros Hai Hhs Hmiss Hr.
  rewrite disagreement_loop_rows; cycle 1.
  { by rewrite (length_column_values _ _ _ Hhs), (length_frame_values _ _ _ Hai). }
  { by rewrite length_comment_values, (length_frame_values _ _ _ Hai). }
  apply frame_values_inr in Hai as (ps & Hps & ->).
  apply column_values_inr in Hhs as (p & Hp & ->).
  assert (Hin : r ∈ body df) by (apply list_elem_of_lookup; eauto).
  assert (Hh : cell_at r.2 p ≠ NaN).
  { intros Heq. apply (Hmiss r human_column Hin).
    - apply elem_of_app. right. by apply list_elem_of_singleton.
    - by rewrite (row_get_locate _ _ _ _ Hp), Heq. }
  assert (Hc : ∀ col p', col ∈ ai_columns → locate (columns df) col = inr p' →
                 cell_at r.2 p' ≠ NaN).
  { intros col p' Hcol Hp' Heq. apply (Hmiss r col Hin).
    - apply elem_of_app. by left.
    - by rewrite (row_get_locate _ _ _ _ Hp'), Heq. }
  rewrite (row_get_locate _ _ _ _ Hp). split.
  - intros (j & ai_row & hc & Hk & Hj & Hhj & Hd).
    assert (j = i) as -> by lia.
    rewrite list_lookup_fmap, Hr in Hj. rewrite list_lookup_fmap, Hr in Hhj.
    simplify_eq/=.
    apply any_disagrees_spec in Hd as (c & Hcin & Hne).
    apply list_elem_of_fmap in Hcin as (p' & -> & Hp').
    destruct (Forall2_locate_r _ _ _ _ Hps Hp') as (col & Hcol & Hloc).
    exists col. split; [done|]. rewrite (row_get_locate _ _ _ _ Hloc).
    apply py_ne_codes in Hne; [congruence|by eapply Hc|done].
  - intros (col & Hcol & Hne).
    destruct (Forall2_locate_l _ _ _ _ Hps Hcol) as (p' & Hp' & Hloc).
    rewrite (row_get_locate _ _ _ _ Hloc) in Hne.
    exists i, (cell_at r.2 <$> ps), (cell_at r.2 p).
    split; [lia|]. rewrite !list_lookup_fmap, Hr. split_and!; [done..|].
    apply any_disagrees_spec. exists (cell_at r.2 p'). split.
    + apply list_elem_of_fmap. eauto.
    + apply py_ne_codes; [by eapply Hc|done|congruence].
Qed.

(** C3.  A row is in the disagreement set exactly when at least one rater's
    code in that row differs from the row's reference code: on every frame
    that has the rater and reference columns, with no missing value in them,
    [calculate_ai_human_disagreement_rate] returns, and the 1-based number of
    a row is among the reported cases iff one of the rater columns holds, in
    that row, a code other than the reference code.  On the four-row table of
    the first scenario, with the last column as reference, the disagreement
    set is rows 2 and 4. *)
Theorem disagreement_set_membership :
  (∀ (df : DataFrame) (ai_columns : list Label) (human_column : Label),
     (∀ col, col ∈ ai_columns ++ [human_column] → col ∈ columns df) →
     no_missing df (ai_columns ++ [human_column]) →
     ∃ rate count total cases,
       calculate_ai_human_disagreement_rate df ai_columns human_column
         = inr (rate, count, total, cases)
       ∧ ∀ i r, body df !! i = Some r →
           i + 1 ∈ case_row <$> cases ↔
           ∃ col, col ∈ ai_columns
                  ∧ row_get (columns df) r.2 col
                    ≠ row_get (columns df) r.2 human_column)
  ∧ (∃ rate cases,
       calculate_ai_human_disagreement_rate (read_csv scenario_1)
         [Int 0; Int 1; Int 2] (Int 3) = inr (rate, 2, 4, cases)
       ∧ case_row <$> cases = [2; 4]).
Proof.
  split.
  - intros df ai_columns human_column Hcols Hmiss.
    destruct (calculate_ai_human_disagreement_rate_inr _ _ _ Hcols)
      as (ai & hs & Hai & Hhs & ->).
    eexists _, _, _, _. split; [reflexivity|].
    intros i r Hr. by apply disagreement_rows_of_frame.
  - eexists _, _. split; reflexivity.
Qed.

Lemma no_missing_Forall (df : DataFrame) (cols : list Label) :
  Forall (λ r, Forall (λ col, row_get (columns df) r.2 col ≠ inr NaN) cols)
    (body df) →
  no_missing df cols.
Proof.
  intros HF r col Hr Hcol.
  rewrite Forall_forall in HF. specialize (HF r Hr).
  rewrite Forall_forall in HF. by apply HF.
Qed.

Lemma columns_exist_Forall (df : DataFrame) (cols : list Label) :
  Forall (λ col, col ∈ columns df) cols →
  ∀ col, col ∈ cols → col ∈ columns df.
Proof. intros HF. by apply Forall_forall. Qed.

Lemma disagreement_set_membership_witness :
  ∃ rate count total cases,
    calculate_ai_human_disagreement_rate (read_csv scenario_1)
      [Int 0; Int 1; Int 2] (Int 3) = inr (rate, count, total, cases)
    ∧ ∀ i r, body (read_csv scenario_1) !! i = Some r →
        i + 1 ∈ case_row <$> cases ↔
        ∃ col, col ∈ [Int 0; Int 1; Int 2]
               ∧ row_get (columns (read_csv scenario_1)) r.2 col
                 ≠ row_get (columns (read_csv scenario_1)) r.2 (Int 3).
Proof.
  apply (proj1 disagreement_set_membership).
  - apply columns_exist_Forall. apply (bool_decide_unpack _). vm_compute. exact I.
  - apply no_missing_Forall. apply (bool_decide_unpack _). vm_compute. exact I.
Defined.

(** ** The disagreement rate *)

Lemma true_div_mul (a b : nat) :
  0 < b → (true_div a b * inject_Z (Z.of_nat b) == inject_Z (Z.of_nat a))%Q.
Proof.
  intros Hb. unfold true_div. field.
  intros H. apply (proj1 (inject_Z_injective (Z.of_nat b) 0)) in H. lia.
Qed.

Lemma true_div_bounds (a b : nat) :
  0 < b → a ≤ b → (0 <= true_div a b <= 1)%Q.
Proof.
  intros Hb Hab. unfold true_div.
  assert (Hpos : (0 < inject_Z (Z.of_nat b))%Q).
  { rewrite <- (Zlt_Qlt 0). lia. }
  split.
  - apply Qle_shift_div_l; [done|]. rewrite Qmult_0_l.
    rewrite <- (Zle_Qle 0). lia.
  - apply Qle_shift_div_r; [done|]. rewrite Qmult_1_l.
    rewrite <- Zle_Qle. lia.
Qed.

Lemma py_round_integer (x : Q) (n : Z) :
  (x == inject_Z n)%Q → py_round x = n.
Proof.
  intros Hx. unfold py_round.
  assert (Hf : Qfloor x = n) by (rewrite Hx; apply Qfloor_Z).
  rewrite Hf.
  assert (Hlt : (x - inject_Z n < 1 # 2)%Q).
  { assert (x - inject_Z n == 0)%Q as -> by (rewrite Hx; ring). reflexivity. }
  by rewrite (proj1 (Qlt_alt _ _) Hlt).
Qed.

(** On a row with no missing code, the test of line 39 is the membership
    condition of the disagreement set. *)
Lemma any_disagrees_differs (cols ai_columns : list Label)
    (human_column : Label) (ps : list nat) (p : nat) (row : list Cell) :
  Forall2 (λ col p, locate cols col = inr p) ai_columns ps →
  locate cols human_column = inr p →
  (∀ col, col ∈ ai_columns ++ [human_column] → row_get cols row col ≠ inr NaN) →
  any_disagrees (cell_at row <$> ps) (cell_at row p) = true ↔
  differs_from_reference cols ai_columns human_column row.
Proof.
  intros Hps Hp Hmiss. unfold differs_from_reference.
  rewrite any_disagrees_spec, Exists_exists.
  assert (Hh : cell_at row p ≠ NaN).
  { intros Heq. apply (Hmiss human_column).
    - apply elem_of_app. right. by apply list_elem_of_singleton.
    - by rewrite (row_get_locate _ _ _ _ Hp), Heq. }
  assert (Hc : ∀ col p', col ∈ ai_columns → locate cols col = inr p' →
                 cell_at row p' ≠ NaN).
  { intros col p' Hcol Hp' Heq. apply (Hmiss col).
    - apply elem_of_app. by left.
    - by rewrite (row_get_locate _ _ _ _ Hp'), Heq. }
  rewrite (row_get_locate _ _ _ _ Hp). split.
  - intros (c & Hcin & Hne).
    apply list_elem_of_fmap in Hcin as (p' & -> & Hp').
    destruct (Forall2_locate_r _ _ _ _ Hps Hp') as (col & Hcol & Hloc).
    exists col. split; [done|]. rewrite (row_get_locate _ _ _ _ Hloc).
    apply py_ne_codes in Hne; [congruence|by eapply Hc|done].
  - intros (col & Hcol & Hne).
    destruct (Forall2_locate_l _ _ _ _ Hps Hcol) as (p' & Hp' & Hloc).
    rewrite (row_get_locate _ _ _ _ Hloc) in Hne.
    exists (cell_at row p'). split.
    + apply list_elem_of_fmap. eauto.
    + apply py_ne_codes; [by eapply Hc|done|congruence].
Qed.

(** The rows the loop reports are the disagreement set, in its order. *)
Lemma disagreement_loop_set (cols ai_columns : list Label)
    (human_column : Label) (ps : list nat) (p : nat) :
  Forall2 (λ col p, locate cols col = inr p) ai_columns ps →
  locate cols human_column = inr p →
  ∀ (rows : list (nat * list Cell)) (i : nat) (comments : list Cell),
    length comments = length rows →
    Forall (λ r, ∀ col, col ∈ ai_columns ++ [human_column] →
                   row_get cols r.2 col ≠ inr NaN) rows →
    case_row <$> (disagreement_loop i ((λ r, cell_at r.2 <$> ps) <$> rows)
                    ((λ r, cell_at r.2 p) <$> rows) comments).2
    = fst <$> filter (λ kr : nat * (nat * list Cell),
                        differs_from_reference cols ai_columns human_column
                          kr.2.2)
                (zip (seq (i + 1) (length rows)) rows).
Proof.
  intros Hps Hp. induction rows as [|r rows IH]; intros i [|cm cms] Hlen Hmiss;
    simplify_eq/=; [done|].
  apply Forall_cons in Hmiss as [Hr Hmiss].
  specialize (IH (S i) cms Hlen Hmiss).
  replace (S (i + 1)) with (S i + 1) by lia.
  destruct (disagreement_loop (S i) _ _ cms) as [n ds]. simpl in IH.
  rewrite filter_cons. simpl.
  pose proof (any_disagrees_differs _ _ _ _ _ r.2 Hps Hp Hr) as Hiff.
  destruct (any_disagrees _ _) eqn:Hany.
  - rewrite decide_True by by apply Hiff. simpl.
    f_equal. exact IH.
  - rewrite decide_False; [exact IH|]. intros H. apply Hiff in H. discriminate H.
Qed.

Lemma length_disagreement_set (df : DataFrame) (ai_columns : list Label)
    (human_column : Label) :
  length (disagreement_set df ai_columns human_column) ≤ len df.
Proof.
  unfold disagreement_set. rewrite length_fmap.
  etrans; [apply length_filter|].
  rewrite length_zip, length_seq. unfold len. lia.
Qed.

(** C6.  On every frame that has the rater and reference columns, with no
    missing value in them, the function returns; the total is the number of
    rows; the reported cases are the rows of the disagreement set (the rows
    in which a rater's code differs from the reference code) and the count is
    its size; the rate is that size divided by the total, and 0 for a frame
    with no rows; it lies between 0 and 1; and with at least one row,
    rounding rate times total gives the count. *)
Theorem disagreement_rate_properties (df : DataFrame)
    (ai_columns : list Label) (human_column : Label) :
  (∀ col, col ∈ ai_columns ++ [human_column] → col ∈ columns df) →
  no_missing df (ai_columns ++ [human_column]) →
  ∃ rate count total cases,
    calculate_ai_human_disagreement_rate df ai_columns human_column
      = inr (rate, count, total, cases)
    ∧ total = len df
    ∧ case_row <$> cases = disagreement_set df ai_columns human_column
    ∧ count = length (disagreement_set df ai_columns human_column)
    ∧ (0 < total →
       (rate == inject_Z (Z.of_nat
                  (length (disagreement_set df ai_columns human_column)))
                / inject_Z (Z.of_nat total))%Q)
    ∧ (total = 0 → rate = 0%Q)
    ∧ (0 <= rate <= 1)%Q
    ∧ (0 < total →
       py_round (rate * inject_Z (Z.of_nat total)) = Z.of_nat count).
Proof.
  intros Hcols Hmiss.
  destruct (calculate_ai_human_disagreement_rate_inr _ _ _ Hcols)
    as (ai & hs & Hai & Hhs & ->).
  destruct (disagreement_loop_count ai 0 hs (comment_values df)) as [Hlen _].
  pose proof (length_disagreement_set df ai_columns human_column) as Hle.
  assert (Hset : case_row <$> (disagreement_loop 0 ai hs (comment_values df)).2
                 = disagreement_set df ai_columns human_column).
  { apply frame_values_inr in Hai as (ps & Hps & ->).
    apply column_values_inr in Hhs as (p & Hp & ->).
    apply (disagreement_loop_set _ _ _ _ _ Hps Hp).
    - apply length_comment_values.
    - apply Forall_forall. intros r Hr col Hcol. by apply Hmiss. }
  destruct (disagreement_loop 0 ai hs (comment_values df)) as [count cases].
  simpl in *. subst count.
  assert (Hcount : length cases
                   = length (disagreement_set df ai_columns human_column)).
  { by rewrite <- Hset, length_fmap. }
  rewrite Hcount.
  eexists _, _, _, _. split; [reflexivity|].
  split; [done|]. split; [done|]. split; [done|]. split; [|split; [|split]].
  - intros Hpos. by rewrite bool_decide_true.
  - intros Hz. rewrite bool_decide_false; [done|lia].
  - case_bool_decide; [by apply true_div_bounds|]. split; [apply Qle_refl|done].
  - intros Hpos. rewrite bool_decide_true by done.
    apply py_round_integer. by apply true_div_mul.
Qed.

(** On the table of the first scenario the disagreement set is rows 2 and
    4. *)
Example disagreement_set_scenario_1 :
  disagreement_set (read_csv scenario_1) [Int 0; Int 1; Int 2] (Int 3) = [2; 4].
Proof. reflexivity. Qed.

Lemma disagreement_rate_properties_witness :
  ∃ rate count total cases,
    calculate_ai_human_disagreement_rate (read_csv scenario_1)
      [Int 0; Int 1; Int 2] (Int 3) = inr (rate, count, total, cases)
    ∧ total = 4
    ∧ case_row <$> cases = [2; 4]
    ∧ count = 2
    ∧ (0 < total → (rate == inject_Z 2 / inject_Z (Z.of_nat total))%Q)
    ∧ (total = 0 → rate = 0%Q)
    ∧ (0 <= rate <= 1)%Q
    ∧ (0 < total →
       py_round (rate * inject_Z (Z.of_nat total)) = Z.of_nat count).
Proof.
  apply (disagreement_rate_properties (read_csv scenario_1)
           [Int 0; Int 1; Int 2] (Int 3)).
  - apply columns_exist_Forall. apply (bool_decide_unpack _). vm_compute. exact I.
  - apply no_missing_Forall. apply (bool_decide_unpack _). vm_compute. exact I.
Defined.

(** ** Validation *)

Lemma py_in_true (x : Cell) (valid_categories : list string) :
  py_in x valid_categories = true ↔ ∃ s, x = Str s ∧ s ∈ valid_categories.
Proof.
  destruct x as [s|]; simpl.
  - rewrite bool_decide_eq_true. split; [eauto|]. by intros (? & [= <-] & ?).
  - split; [done|]. by intros (? & ? & _).
Qed.

Lemma all_valid_true (cols : list Label) (row : list Cell)
    (valid_categories : list string) (sel : list Label) :
  all_valid cols row valid_categories sel = inr true ↔
  row_valid cols valid_categories sel row.
Proof.
  unfold row_valid. induction sel as [|col sel IH]; simpl.
  - split; [|done]. intros _ col Hcol. by apply elem_of_nil in Hcol.
  - destruct (row_get cols row col) as [e|v] eqn:Hv; simpl.
    + split; [done|]. intros H.
      destruct (H col ltac:(left)) as (s & Hs & _). congruence.
    + destruct (py_in v valid_categories) eqn:Hin.
      * rewrite IH. apply py_in_true in Hin as (s & -> & Hs). split.
        -- intros H c Hc. apply elem_of_cons in Hc as [->|Hc]; eauto.
        -- intros H c Hc. apply H. by right.
      * split; [done|]. intros H.
        destruct (H col ltac:(left)) as (s & Hs & Hvalid).
        rewrite Hv in Hs. injection Hs as ->. simpl in Hin.
        by rewrite bool_decide_true in Hin.
Qed.

Lemma all_valid_is_inr (cols : list Label) (row : list Cell)
    (valid_categories : list string) (sel : list Label) :
  (∀ col, col ∈ sel → col ∈ cols) →
  ∃ b, all_valid cols row valid_categories sel = inr b.
Proof.
  induction sel as [|col sel IH]; intros Hsel; simpl; [by eexists|].
  destruct (locate_elem_of cols col) as [p Hp]; [apply Hsel; left|].
  rewrite (row_get_locate _ _ _ _ Hp). simpl.
  destruct (py_in _ _); [|by eexists].
  apply IH. intros c Hc. apply Hsel. by right.
Qed.

Lemma row_values_is_inr (cols : list Label) (row : list Cell) (sel : list Label) :
  (∀ col, col ∈ sel → col ∈ cols) →
  ∃ values, row_values cols row sel = inr values.
Proof.
  intros Hsel. apply mapM_is_inr, Forall_forall. intros col Hcol.
  destruct (locate_elem_of cols col (Hsel col Hcol)) as [p Hp].
  rewrite (row_get_locate _ _ _ _ Hp). eauto.
Qed.

(** Validation stops at the first row that is not valid: the rows after it
    have no part in what is printed and returned. *)
Lemma validate_rows_first_invalid (cols sel : list Label)
    (valid_categories : list string) (pre rest : list (nat * list Cell))
    (i : nat) (row values : list Cell) :
  (∀ col, col ∈ sel → col ∈ cols) →
  Forall (λ r, row_valid cols valid_categories sel r.2) pre →
  ¬ row_valid cols valid_categories sel row →
  row_values cols row sel = inr values →
  validate_rows cols sel valid_categories (pre ++ (i, row) :: rest)
    = ([RowContainsInvalidValues (i + 1) values], inr false).
Proof.
  intros Hsel Hpre Hrow Hvalues. induction Hpre as [|[j r] pre Hr _ IH]; simpl.
  - destruct (all_valid_is_inr cols row valid_categories sel Hsel) as [b Hb].
    rewrite Hb. destruct b.
    + by apply all_valid_true in Hb.
    + by rewrite Hvalues.
  - apply all_valid_true in Hr. simpl in Hr. by rewrite Hr.
Qed.

Lemma validate_rows_true (cols sel : list Label)
    (valid_categories : list string) (rows : list (nat * list Cell)) out :
  validate_rows cols sel valid_categories rows = (out, inr true) ↔
  out = [] ∧ Forall (λ r, row_valid cols valid_categories sel r.2) rows.
Proof.
  induction rows as [|[i row] rows IH]; simpl.
  - split.
    + intros [= <-]. by split.
    + by intros [-> _].
  - destruct (all_valid cols row valid_categories sel) as [e|[|]] eqn:Hrow.
    + split; [done|]. intros [_ H]. inversion H as [|? ? Hr]; subst.
      apply all_valid_true in Hr. simpl in Hr. congruence.
    + rewrite IH. apply all_valid_true in Hrow. split.
      * intros [-> H]. split; [done|]. by constructor.
      * intros [-> H]. split; [done|]. by inversion H.
    + split.
      * destruct (row_values cols row sel); intros [=].
      * intros [_ H]. inversion H as [|? ? Hr]; subst.
        apply all_valid_true in Hr. simpl in Hr. congruence.
Qed.

Lemma range_index_lookup (df : DataFrame) (j : nat) r :
  range_index df → body df !! j = Some r → r.1 = j.
Proof.
  unfold range_index. intros Hidx Hr.
  assert (H : (fst <$> body df) !! j = Some r.1) by by rewrite list_lookup_fmap, Hr.
  rewrite Hidx in H. apply lookup_seq in H as [H _]. simpl in H. done.
Qed.

(** C4, as the code has it.  On a frame whose rater and reference columns
    exist, let [row], labelled [i], be the first row with a value outside the
    valid categories.  Then [validate_data] prints one message, which names
    row [i + 1] and the row's values, and lines 134-136 raise a [ValueError]
    whose message lists the valid categories only.  The rows after [row] have
    no part in the result: it is the same for every [rest].  Under a
    [RangeIndex], [i + 1] is the 1-based position of the row. *)
Theorem validation_fails_at_first_invalid_row (cols : list Label)
    (pre rest : list (nat * list Cell)) (i : nat) (row : list Cell)
    (ai_columns : list Label) (human_column : Label)
    (valid_categories : list string) :
  (∀ col, col ∈ ai_columns ++ [human_column] → col ∈ cols) →
  Forall (λ r, row_valid cols valid_categories (ai_columns ++ [human_column]) r.2)
    pre →
  ¬ row_valid cols valid_categories (ai_columns ++ [human_column]) row →
  ∃ values,
    row_values cols row (ai_columns ++ [human_column]) = inr values
    ∧ (∀ rest',
         validate_and_drop {| columns := cols; body := pre ++ (i, row) :: rest' |}
           ai_columns human_column valid_categories
         = ([RowContainsInvalidValues (i + 1) values],
            inl (ValueError (InvalidDataFormat valid_categories))))
    ∧ (range_index {| columns := cols; body := pre ++ (i, row) :: rest |} →
       i + 1 = length pre + 1).
Proof.
  intros Hcols Hpre Hrow.
  destruct (row_values_is_inr cols row _ Hcols) as [values Hvalues].
  exists values. split; [done|]. split.
  - intros rest'. unfold validate_and_drop, validate_data. simpl.
    by rewrite (validate_rows_first_invalid _ _ _ _ _ _ _ _ Hcols Hpre Hrow Hvalues).
  - intros Hidx. f_equal.
    apply (range_index_lookup _ (length pre) (i, row) Hidx). simpl.
    by rewrite list_lookup_middle.
Qed.

Lemma validation_fails_at_first_invalid_row_witness :
  ∃ values,
    row_values [Int 0; Int 1; Name "comment"] [Str "c"; Str "a"; Str "-"]
      ([Int 0] ++ [Int 1]) = inr values
    ∧ (∀ rest',
         validate_and_drop
           {| columns := [Int 0; Int 1; Name "comment"];
              body := [(0, [Str "a"; Str "a"; Str "-"])]
                      ++ (1, [Str "c"; Str "a"; Str "-"]) :: rest' |}
           [Int 0] (Int 1) ["a"; "b"]
         = ([RowContainsInvalidValues (1 + 1) values],
            inl (ValueError (InvalidDataFormat ["a"; "b"]))))
    ∧ (range_index
         {| columns := [Int 0; Int 1; Name "comment"];
            body := [(0, [Str "a"; Str "a"; Str "-"])]
                    ++ (1, [Str "c"; Str "a"; Str "-"])
                       :: [(2, [Str "a"; Str "c"; Str "-"])] |} →
       1 + 1 = length [(0, [Str "a"; Str "a"; Str "-"])] + 1).
Proof.
  apply validation_fails_at_first_invalid_row.
  - apply Forall_forall. apply (bool_decide_unpack _). vm_compute. exact I.
  - repeat constructor. apply all_valid_true. reflexivity.
  - intros H. apply all_valid_true in H. discriminate H.
Defined.

(** C4 as stated fails: the error raised is the same whichever row offends,
    and carries neither the row's number nor its values; these are in the
    line [validate_data] printed.  Below, row 2 holds "c" in the first table
    and row 1 in the second. *)
Lemma validation_error_names_no_row :
  analyze_coding_agreement [[Str "a"; Str "a"]; [Str "c"; Str "a"]]
    (Some [Int 0]) (Some (Int 1)) ["a"; "b"]
  = {| printed := [RowContainsInvalidValues 2 [Str "c"; Str "a"]];
       written := [];
       outcome := inl (ValueError (InvalidDataFormat ["a"; "b"])) |}
  ∧ analyze_coding_agreement [[Str "a"; Str "c"]]
      (Some [Int 0]) (Some (Int 1)) ["a"; "b"]
    = {| printed := [RowContainsInvalidValues 1 [Str "a"; Str "c"]];
         written := [];
         outcome := inl (ValueError (InvalidDataFormat ["a"; "b"])) |}.
Proof. split; reflexivity. Qed.

(** ** Missing values *)

Lemma row_valid_not_missing (cols : list Label) (valid_categories : list string)
    (sel : list Label) (row : list Cell) (col : Label) :
  row_valid cols valid_categories sel row → col ∈ sel →
  row_get cols row col ≠ inr NaN.
Proof. intros Hrow Hcol. destruct (Hrow col Hcol) as (s & -> & _). done. Qed.

Lemma validate_rows_some_invalid (cols sel : list Label)
    (valid_categories : list string) (rows : list (nat * list Cell)) :
  (∀ col, col ∈ sel → col ∈ cols) →
  Exists (λ r, ¬ row_valid cols valid_categories sel r.2) rows →
  ∃ out, validate_rows cols sel valid_categories rows = (out, inr false).
Proof.
  intros Hsel. induction rows as [|[i row] rows IH]; intros Hex.
  - inversion Hex.
  - simpl. destruct (all_valid_is_inr cols row valid_categories sel Hsel) as [b Hb].
    rewrite Hb. destruct b.
    + apply IH. inversion Hex as [? ? Hrow|]; subst; [|done].
      by apply all_valid_true in Hb.
    + destruct (row_values_is_inr cols row sel Hsel) as [values ->]. eauto.
Qed.

(** C2, as the code has it.  A row with a missing value in a rater or
    reference column is not dropped: it fails validation, which comes first,
    and lines 134-136 raise the invalid-format [ValueError].  [dropna] is
    reached only by frames in which it finds nothing to remove. *)
Theorem missing_value_fails_validation (df : DataFrame)
    (ai_columns : list Label) (human_column : Label)
    (valid_categories : list string) r (col : Label) :
  (∀ col, col ∈ ai_columns ++ [human_column] → col ∈ columns df) →
  r ∈ body df → col ∈ ai_columns ++ [human_column] →
  row_get (columns df) r.2 col = inr NaN →
  ∃ out, validate_and_drop df ai_columns human_column valid_categories
         = (out, inl (ValueError (InvalidDataFormat valid_categories))).
Proof.
  intros Hcols Hr Hcol Hnan.
  destruct (validate_rows_some_invalid (columns df) (ai_columns ++ [human_column])
              valid_categories (body df) Hcols) as [out Hout].
  - apply Exists_exists. exists r. split; [done|].
    intros Hvalid. by apply (row_valid_not_missing _ _ _ _ col Hvalid Hcol).
  - exists out. unfold validate_and_drop, validate_data. by rewrite Hout.
Qed.

Lemma missing_value_fails_validation_witness :
  ∃ out,
    validate_and_drop
      {| columns := [Int 0; Int 1; Name "comment"];
         body := [(0, [Str "a"; Str "a"; Str "-"]); (1, [NaN; Str "a"; Str "-"])] |}
      [Int 0] (Int 1) ["a"; "b"]
    = (out, inl (ValueError (InvalidDataFormat ["a"; "b"]))).
Proof.
  apply (missing_value_fails_validation _ _ _ _ (1, [NaN; Str "a"; Str "-"]) (Int 0)).
  - apply Forall_forall. apply (bool_decide_unpack _). vm_compute. exact I.
  - apply (bool_decide_unpack _). vm_compute. exact I.
  - apply (bool_decide_unpack _). vm_compute. exact I.
  - reflexivity.
Defined.

(** A failure of lines 115-141 ends the run: nothing is written. *)
Lemma analyze_raises_with_prepare (lines : list (list Cell))
    (ai_columns : option (list Label)) (human_column : option Label)
    (valid_categories : list string) out (e : exn) :
  prepare (read_csv lines) ai_columns human_column valid_categories
    = (out, inl e) →
  analyze_coding_agreement lines ai_columns human_column valid_categories
  = {| printed := out; written := []; outcome := inl e |}.
Proof. intros H. unfold analyze_coding_agreement. by rewrite H. Qed.

(** The run on two rows of six columns, the second row missing its first
    rater code, with the default selectors. *)
Example analyze_missing_value :
  analyze_coding_agreement
    [[Str "a"; Str "a"; Str "a"; Str "a"; Str "a"; Str "a"];
     [NaN; Str "a"; Str "a"; Str "a"; Str "a"; Str "a"]]
    None None ["a"; "b"]
  = {| printed := [RowContainsInvalidValues 2
                     [NaN; Str "a"; Str "a"; Str "a"; Str "a"; Str "a"]];
       written := [];
       outcome := inl (ValueError (InvalidDataFormat ["a"; "b"])) |}.
Proof. reflexivity. Qed.

(** ** Row labels and positions *)

Lemma cell_at_ge (row : list Cell) (p : nat) :
  length row ≤ p → cell_at row p = NaN.
Proof.
  intros Hp. unfold cell_at. rewrite list_lookup_total_alt.
  by rewrite lookup_ge_None_2.
Qed.

Lemma cell_at_resize (row : list Cell) (n p : nat) :
  p < n → cell_at (resize n NaN row) p = cell_at row p.
Proof.
  intros Hp. unfold cell_at. destruct (decide (p < length row)) as [Hlt|Hge].
  - by apply lookup_total_resize.
  - rewrite lookup_total_resize_new by lia.
    symmetry. apply cell_at_ge. lia.
Qed.

Lemma col_pos_lt (cols : list Label) (col : Label) (p : nat) :
  col_pos cols col = Some p → p < length cols ∧ cols !! p = Some col.
Proof.
  unfold col_pos. intros H. apply fmap_Some in H as ([p' c] & Hfind & ->).
  apply list_find_Some in Hfind as (Hp & -> & _). simpl.
  split; [by eapply lookup_lt_Some|done].
Qed.

Lemma col_pos_app_l (cols : list Label) (col new : Label) (p : nat) :
  col_pos cols col = Some p → col_pos (cols ++ [new]) col = Some p.
Proof.
  unfold col_pos. intros H. apply fmap_Some in H as ([p' c] & Hfind & ->).
  by rewrite (list_find_app_l _ _ _ _ _ Hfind).
Qed.

Lemma fst_zip_with_body {V} (f : list Cell → V → list Cell)
    (rows : list (nat * list Cell)) (values : list V) :
  length values = length rows →
  fst <$> zip_with (λ r v, (r.1, f r.2 v)) rows values = fst <$> rows.
Proof.
  revert values. induction rows as [|r rows IH]; intros [|v values] Hlen;
    simplify_eq/=; [done|]. f_equal. by apply IH.
Qed.

Lemma length_set_column (df : DataFrame) (col : Label) (values : list Cell) :
  length values = len df → len (set_column df col values) = len df.
Proof.
  intros Hlen. unfold set_column, len in *.
  destruct (col_pos _ _); simpl; rewrite length_zip_with; lia.
Qed.

Lemma range_index_set_column (df : DataFrame) (col : Label) (values : list Cell) :
  length values = len df → range_index df →
  range_index (set_column df col values).
Proof.
  intros Hlen Hidx. unfold range_index.
  rewrite (length_set_column _ _ _ Hlen), <- Hidx.
  unfold set_column. destruct (col_pos _ _); simpl.
  - by apply (fst_zip_with_body (λ row v, <[_:=v]> (resize _ NaN row))).
  - by apply (fst_zip_with_body (λ row v, resize _ NaN row ++ [v])).
Qed.

Lemma range_index_read_csv (lines : list (list Cell)) :
  range_index (read_csv lines).
Proof.
  unfold range_index, read_csv, len. simpl.
  rewrite length_imap, fmap_imap.
  apply list_eq. intros i. rewrite list_lookup_imap.
  destruct (lines !! i) as [row|] eqn:Hi; simpl.
  - symmetry. apply lookup_seq. split; [done|]. by eapply lookup_lt_Some.
  - symmetry. apply lookup_ge_None_2. rewrite length_seq.
    by apply lookup_ge_None.
Qed.

Lemma range_index_with_comment (df : DataFrame) (ai_columns : list Label)
    (human_column : Label) :
  range_index df → range_index (with_comment df ai_columns human_column).
Proof.
  intros Hidx. unfold with_comment.
  assert (Hset : range_index (set_column df (Name "comment")
                   (replicate (len df) (Str "No comment available")))).
  { apply range_index_set_column; [by rewrite length_replicate|done]. }
  destruct (if bool_decide _ then _ else _) as [c|]; [|done].
  by destruct (truthy c && _).
Qed.

(** Under a [RangeIndex], [df.loc[j, col]] reads the row at position [j]. *)
Lemma loc_range_index (df : DataFrame) (j : nat) r (col : Label) :
  range_index df → body df !! j = Some r →
  loc df j col = row_get (columns df) r.2 col.
Proof.
  intros Hidx Hr. unfold loc.
  assert (Hfind : list_find (λ r, r.1 = j) (body df) = Some (j, r)).
  { apply list_find_Some. split; [done|]. split.
    - by apply (range_index_lookup df).
    - intros i r' Hr' Hlt Heq.
      apply (range_index_lookup df i r' Hidx) in Hr'. lia. }
  rewrite Hfind. by destruct r.
Qed.

(** Assigning a column leaves the cells of the other columns as they were. *)
Lemma row_get_set_column (df : DataFrame) (new col : Label)
    (values : list Cell) (j : nat) r (h : Cell) :
  length values = len df → col ≠ new →
  body df !! j = Some r → row_get (columns df) r.2 col = inr h →
  ∃ r', body (set_column df new values) !! j = Some r'
        ∧ row_get (columns (set_column df new values)) r'.2 col = inr h.
Proof.
  intros Hlen Hne Hr Hget.
  destruct (values !! j) as [v|] eqn:Hv; cycle 1.
  { apply lookup_ge_None in Hv. apply lookup_lt_Some in Hr. unfold len in Hlen. lia. }
  unfold row_get in Hget. apply bind_inr in Hget as (p & Hp & Hh).
  apply locate_inr in Hp. destruct (col_pos_lt _ _ _ Hp) as [Hlt Hcol].
  unfold_result. injection Hh as <-.
  unfold set_column. destruct (col_pos (columns df) new) as [p'|] eqn:Hnew; simpl.
  - eexists. split.
    + rewrite lookup_zip_with, Hr. simpl. by rewrite Hv.
    + simpl. rewrite (row_get_locate _ _ _ p) by by apply locate_inr.
      f_equal. unfold cell_at at 1.
      rewrite list_lookup_total_insert_ne.
      * by apply cell_at_resize.
      * intros ->. destruct (col_pos_lt _ _ _ Hnew) as [_ Hcol']. congruence.
  - eexists. split.
    + rewrite lookup_zip_with, Hr. simpl. by rewrite Hv.
    + simpl. rewrite (row_get_locate _ _ _ p)
        by by apply locate_inr, col_pos_app_l.
      f_equal. unfold cell_at at 1.
      rewrite lookup_total_app_l by by rewrite length_resize.
      by apply cell_at_resize.
Qed.

Lemma internal_loop_rows (ai_codes : list (list Cell)) :
  ∀ (i : nat) (comments : list Cell) (c : InternalCase),
    c ∈ internal_loop i ai_codes comments →
    ∃ j, c.1.1 = i + j + 1 ∧ ai_codes !! j = Some c.2 ∧ 1 < len_set c.2.
Proof.
  induction ai_codes as [|ai_row ai_codes IH]; intros i [|cm cms] c Hc;
    simpl in Hc; try by apply elem_of_nil in Hc.
  assert (Htail : c ∈ internal_loop (S i) ai_codes cms →
                  ∃ j, c.1.1 = i + j + 1 ∧ (ai_row :: ai_codes) !! j = Some c.2
                       ∧ 1 < len_set c.2).
  { intros H. destruct (IH _ _ _ H) as (j & Hj & Hrow & Hset).
    exists (S j). split; [lia|done]. }
  case_bool_decide as Hset; [|by apply Htail].
  apply elem_of_cons in Hc as [->|Hc]; [|by apply Htail].
  exists 0. simpl. split; [lia|done].
Qed.

(** ** Validated frames *)

Lemma filter_Forall {A} (P : A → Prop) `{!∀ x, Decision (P x)} (l : list A) :
  Forall P l → filter P l = l.
Proof.
  induction 1 as [|x l Hx _ IH]; [done|].
  by rewrite filter_cons_True, IH.
Qed.

(** [dropna] removes no row from a frame whose rows are valid. *)
Lemma dropna_valid (df d : DataFrame) (subset : list Label)
    (valid_categories : list string) :
  dropna df subset = inr d →
  Forall (λ r, row_valid (columns df) valid_categories subset r.2) (body df) →
  d = df.
Proof.
  unfold dropna. intros H Hvalid. apply bind_inr in H as (ps & Hps & Hd).
  unfold_result. injection Hd as <-. apply mapM_inr in Hps.
  rewrite filter_Forall; [by destruct df|].
  apply Forall_forall. intros r Hr. apply Forall_forall. intros p Hp.
  rewrite Forall_forall in Hvalid. specialize (Hvalid r Hr).
  destruct (Forall2_locate_r _ _ _ _ Hps Hp) as (col & Hcol & Hloc).
  destruct (Hvalid col Hcol) as (s & Hs & _).
  rewrite (row_get_locate _ _ _ _ Hloc) in Hs. injection Hs as ->. done.
Qed.

Lemma validate_and_drop_inr (df d : DataFrame) (ai_columns : list Label)
    (human_column : Label) (valid_categories : list string) out :
  validate_and_drop df ai_columns human_column valid_categories = (out, inr d) →
  out = []
  ∧ Forall (λ r, row_valid (columns df) valid_categories
                   (ai_columns ++ [human_column]) r.2) (body df)
  ∧ dropna df (ai_columns ++ [human_column]) = inr d
  ∧ d = df
  ∧ empty df = false.
Proof.
  unfold validate_and_drop.
  destruct (validate_data df ai_columns human_column valid_categories)
    as [out' [e|[|]]] eqn:Hv; [done| |done].
  apply validate_rows_true in Hv as [-> Hvalid].
  destruct (dropna df (ai_columns ++ [human_column])) as [e|d'] eqn:Hdrop; [done|].
  pose proof (dropna_valid _ _ _ _ Hdrop Hvalid) as ->.
  destruct (empty df) eqn:Hempty; [done|].
  unfold_result. by intros [= <- <-].
Qed.

Lemma resolve_columns_inr (df : DataFrame) (ai_columns : option (list Label))
    (human_column : option Label) (ai : list Label) (human : Label) :
  resolve_columns df ai_columns human_column = inr (ai, human) →
  ∀ col, col ∈ ai ++ [human] → col ∈ columns df.
Proof.
  unfold resolve_columns.
  destruct (from_option Some (last (columns df)) human_column) as [h|]; [|done].
  destruct (forallb _ _) eqn:Hall; [|done].
  unfold_result. intros [= <- <-] col Hcol.
  rewrite forallb_forall in Hall. apply list_elem_of_In in Hcol.
  specialize (Hall col Hcol). by apply bool_decide_eq_true in Hall.
Qed.

Lemma prepare_inr (df0 df : DataFrame) (ai_columns : option (list Label))
    (human_column : option Label) (valid_categories : list string)
    out (ai : list Label) (human : Label) :
  prepare df0 ai_columns human_column valid_categories
    = (out, inr (df, ai, human)) →
  resolve_columns df0 ai_columns human_column = inr (ai, human)
  ∧ validate_and_drop (with_comment df0 ai human) ai human valid_categories
    = (out, inr df).
Proof.
  unfold prepare. destruct (empty df0); [done|].
  destruct (resolve_columns df0 ai_columns human_column) as [e|[ai' human']];
    [done|].
  destruct (validate_and_drop _ _ _ _) as [out' [e|d]] eqn:Hv; [done|].
  unfold_result. intros [= <- <- <- <-]. by split.
Qed.

Lemma locate_inr_elem_of (cols : list Label) (col : Label) (p : nat) :
  locate cols col = inr p → col ∈ cols.
Proof.
  intros H. apply locate_inr, col_pos_lt in H as [_ H].
  apply list_elem_of_lookup. eauto.
Qed.

Lemma row_get_inr_elem_of (cols : list Label) (row : list Cell) (col : Label) v :
  row_get cols row col = inr v → col ∈ cols.
Proof.
  unfold row_get. intros H. apply bind_inr in H as (p & Hp & _).
  by eapply locate_inr_elem_of.
Qed.

(** *** The series handed to [cohen_kappa_score] *)

Lemma cohen_kappa_score_accepted (y1 y2 : list Cell) :
  accepted y1 y2 → cohen_kappa_score y1 y2 = inr (kappa y1 y2).
Proof. intros H. unfold cohen_kappa_score. by rewrite bool_decide_true. Qed.

Lemma cohen_kappa_score_inr (y1 y2 : list Cell) (k : option Q) :
  cohen_kappa_score y1 y2 = inr k ↔ accepted y1 y2 ∧ k = kappa y1 y2.
Proof.
  unfold cohen_kappa_score. case_bool_decide as H; unfold_result; split.
  - by intros [= <-].
  - by intros [_ ->].
  - done.
  - by intros [? _].
Qed.

Lemma mapM_fmap_inr {A B} (f : A → result B) (g : A → B) (l : list A) :
  (∀ x, x ∈ l → f x = inr (g x)) → mapM f l = inr (g <$> l).
Proof.
  intros H. apply mapM_inr, Forall2_fmap_r, Forall_Forall2_diag, Forall_forall.
  done.
Qed.

Lemma mapM_inr_fmap {A B} (f : A → result B) (g : A → B) (l : list A)
    (k : list B) :
  (∀ x y, f x = inr y → y = g x) → mapM f l = inr k → k = g <$> l.
Proof.
  intros Hg H. apply mapM_inr in H.
  induction H as [|x y l k Hy _ IH]; [done|].
  rewrite fmap_cons. f_equal; [by apply Hg|done].
Qed.

Lemma array_col_frame (rows : list (nat * list Cell)) (ps : list nat)
    (i p : nat) :
  ps !! i = Some p →
  array_col ((λ r, cell_at r.2 <$> ps) <$> rows) i
  = (λ r, cell_at r.2 p) <$> rows.
Proof.
  intros Hp. unfold array_col. rewrite <- list_fmap_compose.
  apply list_fmap_ext. intros j r _. simpl. unfold cell_at at 1.
  by rewrite list_lookup_total_alt, list_lookup_fmap, Hp.
Qed.

(** Two columns of a frame that has a row and no missing value in them are
    series that scikit-learn accepts. *)
Lemma frame_series_accepted (df : DataFrame) (cols : list Label)
    (c1 c2 : Label) (p1 p2 : nat) :
  body df ≠ [] → no_missing df cols → c1 ∈ cols → c2 ∈ cols →
  locate (columns df) c1 = inr p1 → locate (columns df) c2 = inr p2 →
  accepted ((λ r, cell_at r.2 p1) <$> body df)
    ((λ r, cell_at r.2 p2) <$> body df).
Proof.
  intros Hne Hmiss Hc1 Hc2 Hp1 Hp2.
  assert (Hnan : ∀ c p, c ∈ cols → locate (columns df) c = inr p →
                   NaN ∉ (λ r, cell_at r.2 p) <$> body df).
  { intros c p Hc Hp Hin. apply list_elem_of_fmap in Hin as (r & Heq & Hr).
    apply (Hmiss r c Hr Hc). by rewrite (row_get_locate _ _ _ _ Hp), <- Heq. }
  split; [by rewrite !length_fmap|]. split.
  - destruct (body df); [done|]. discriminate.
  - apply not_elem_of_app. split; eauto.
Qed.

Lemma rater_pairs_lt (n i j : nat) : (i, j) ∈ rater_pairs n → i < n ∧ j < n.
Proof.
  unfold rater_pairs. intros H. apply list_elem_of_bind in H as (i' & Hj & Hi).
  apply list_elem_of_fmap in Hj as (j' & [= -> ->] & Hj).
  apply elem_of_seq in Hi, Hj. lia.
Qed.

Lemma imap_pairs_lt (l : list Label) (i : nat) (col : Label) :
  (i, col) ∈ imap (λ i col, (i, col)) l → i < length l.
Proof.
  intros H. apply list_elem_of_lookup in H as [k Hk].
  rewrite list_lookup_imap in Hk.
  destruct (l !! k) as [c|] eqn:Hl; simplify_eq/=. by eapply lookup_lt_Some.
Qed.

(** The series of [calculate_inter_rater_reliability] on a frame that has a
    row and no missing value in the rater and reference columns. *)
Lemma reliability_series_accepted (df : DataFrame) (ai_columns : list Label)
    (human_column : Label) ai_codes human_codes :
  frame_values df ai_columns = inr ai_codes →
  column_values df human_column = inr human_codes →
  body df ≠ [] → no_missing df (ai_columns ++ [human_column]) →
  (∀ i j, i < length ai_columns → j < length ai_columns →
          accepted (array_col ai_codes i) (array_col ai_codes j))
  ∧ (∀ i, i < length ai_columns →
          accepted human_codes (array_col ai_codes i)
          ∧ accepted (array_col ai_codes i) human_codes).
Proof.
  intros Hai Hhs Hne Hmiss.
  apply frame_values_inr in Hai as (ps & Hps & ->).
  apply column_values_inr in Hhs as (p & Hp & ->).
  assert (Hhuman : human_column ∈ ai_columns ++ [human_column]).
  { apply elem_of_app. right. by apply list_elem_of_singleton. }
  assert (Hcol : ∀ i, i < length ai_columns →
            ∃ col pi, col ∈ ai_columns ++ [human_column]
                      ∧ locate (columns df) col = inr pi
                      ∧ array_col ((λ r, cell_at r.2 <$> ps) <$> body df) i
                        = (λ r, cell_at r.2 pi) <$> body df).
  { intros i Hi. destruct (lookup_lt_is_Some_2 _ _ Hi) as [col Hcol].
    destruct (Forall2_lookup_l _ _ _ _ _ Hps Hcol) as (pi & Hpi & Hloc).
    exists col, pi. split_and!; [|done|by apply array_col_frame].
    apply elem_of_app. left. apply list_elem_of_lookup. eauto. }
  split.
  - intros i j Hi Hj.
    destruct (Hcol i Hi) as (c1 & p1 & Hc1 & Hp1 & ->).
    destruct (Hcol j Hj) as (c2 & p2 & Hc2 & Hp2 & ->).
    by apply (frame_series_accepted df (ai_columns ++ [human_column]) c1 c2).
  - intros i Hi. destruct (Hcol i Hi) as (c1 & p1 & Hc1 & Hp1 & ->).
    split.
    + by apply (frame_series_accepted df (ai_columns ++ [human_column])
                  human_column c1).
    + by apply (frame_series_accepted df (ai_columns ++ [human_column])
                  c1 human_column).
Qed.

Lemma coder_loop_inr (ai_codes : list (list Cell)) (human_codes : list Cell)
    (n : nat) :
  (∀ i j, i < n → j < n →
          accepted (array_col ai_codes i) (array_col ai_codes j)) →
  (∀ i, i < n → accepted (array_col ai_codes i) human_codes) →
  ∀ (cols : list (nat * Label)) (d : list (Label * option Q)),
    (∀ i col, (i, col) ∈ cols → i < n) →
    coder_loop ai_codes human_codes n cols d
    = inr (foldl (λ d '(i, col),
             dict_set d col
               (np_mean
                  (((λ j, kappa (array_col ai_codes i) (array_col ai_codes j))
                      <$> filter (λ j, j ≠ i) (seq 0 n))
                   ++ [kappa (array_col ai_codes i) human_codes])))
            d cols).
Proof.
  intros Hacc Hh. induction cols as [|[i col] cols IH]; intros d Hlt; [done|].
  assert (Hi : i < n) by (apply (Hlt i col); left).
  cbn [coder_loop foldl].
  rewrite (mapM_fmap_inr _
             (λ j, kappa (array_col ai_codes i) (array_col ai_codes j))).
  - rewrite (cohen_kappa_score_accepted _ _ (Hh i Hi)). simpl.
    apply IH. intros i' col' H. apply (Hlt i' col'). by right.
  - intros j Hj. apply cohen_kappa_score_accepted, Hacc; [done|].
    apply list_elem_of_filter in Hj as [_ Hj]. apply elem_of_seq in Hj. lia.
Qed.

Lemma coder_loop_foldl (ai_codes : list (list Cell)) (human_codes : list Cell)
    (n : nat) :
  ∀ (cols : list (nat * Label)) (d d' : list (Label * option Q)),
    coder_loop ai_codes human_codes n cols d = inr d' →
    d' = foldl (λ d '(i, col),
           dict_set d col
             (np_mean
                (((λ j, kappa (array_col ai_codes i) (array_col ai_codes j))
                    <$> filter (λ j, j ≠ i) (seq 0 n))
                 ++ [kappa (array_col ai_codes i) human_codes])))
          d cols.
Proof.
  induction cols as [|[i col] cols IH]; intros d d' H.
  - simpl in H. unfold_result. by injection H as <-.
  - cbn [coder_loop] in H.
    apply bind_inr in H as (ks & Hks & H).
    apply bind_inr in H as (k & Hk & H).
    apply (mapM_inr_fmap _
             (λ j, kappa (array_col ai_codes i) (array_col ai_codes j)))
      in Hks; [|by intros j y [_ ->]%cohen_kappa_score_inr].
    apply cohen_kappa_score_inr in Hk as [_ ->]. subst ks.
    by apply IH in H.
Qed.

(** On a frame that has the rater and reference columns, a row, and no
    missing value in these columns, [calculate_inter_rater_reliability]
    returns. *)
Lemma calculate_inter_rater_reliability_inr (df : DataFrame)
    (ai_columns : list Label) (human_column : Label) :
  (∀ col, col ∈ ai_columns ++ [human_column] → col ∈ columns df) →
  body df ≠ [] →
  no_missing df (ai_columns ++ [human_column]) →
  ∃ ai_codes human_codes rel,
    frame_values df ai_columns = inr ai_codes
    ∧ column_values df human_column = inr human_codes
    ∧ calculate_inter_rater_reliability df ai_columns human_column = inr rel
    ∧ ai_internal_disagreements rel
      = internal_loop 0 ai_codes (comment_values df)
    ∧ inter_kappas rel
      = (λ i, kappa human_codes (array_col ai_codes i))
          <$> seq 0 (length ai_columns)
    ∧ inter_mean_kappa rel = np_mean (inter_kappas rel)
    ∧ intra_kappas rel
      = (λ '(i, j), kappa (array_col ai_codes i) (array_col ai_codes j))
          <$> rater_pairs (length ai_columns)
    ∧ calculate_ai_human_disagreement_rate df ai_columns human_column
      = inr (ai_human_disagreement_info rel).
Proof.
  intros Hcols Hne Hmiss.
  destruct (calculate_ai_human_disagreement_rate_inr _ _ _ Hcols)
    as (ai & hs & Hai & Hhs & Hinfo).
  destruct (reliability_series_accepted _ _ _ _ _ Hai Hhs Hne Hmiss)
    as [Hacc Hh].
  exists ai, hs. unfold calculate_inter_rater_reliability.
  rewrite Hai, Hhs. cbn [mbind result_bind].
  rewrite (mapM_fmap_inr _ (λ i, kappa hs (array_col ai i))); cycle 1.
  { intros i Hi. apply elem_of_seq in Hi.
    apply cohen_kappa_score_accepted, Hh. lia. }
  rewrite (mapM_fmap_inr _
             (λ '(i, j), kappa (array_col ai i) (array_col ai j))); cycle 1.
  { intros [i j] Hij. apply rater_pairs_lt in Hij as [Hi Hj].
    by apply cohen_kappa_score_accepted, Hacc. }
  rewrite (coder_loop_inr _ _ _ Hacc (λ i Hi, proj2 (Hh i Hi)));
    [|apply imap_pairs_lt].
  rewrite Hinfo. cbn [mbind result_bind]. eexists. by split_and!.
Qed.

Lemma row_values_of_frame (df : DataFrame) (cols : list Label)
    (ai_codes : list (list Cell)) (j : nat) r (codes : list Cell) :
  frame_values df cols = inr ai_codes →
  body df !! j = Some r → ai_codes !! j = Some codes →
  row_values (columns df) r.2 cols = inr codes.
Proof.
  intros Hai Hr Hj. apply frame_values_inr in Hai as (ps & Hps & ->).
  rewrite list_lookup_fmap, Hr in Hj. injection Hj as <-.
  apply mapM_inr, Forall2_fmap_r.
  eapply Forall2_impl; [exact Hps|]. intros col p Hp.
  by apply row_get_locate.
Qed.

(** What a run that gets past lines 115-141 knows of its frame. *)
Lemma prepared_frame (lines : list (list Cell))
    (ai_columns : option (list Label)) (human_column : option Label)
    (valid_categories : list string) out (df : DataFrame)
    (ai : list Label) (human : Label) :
  prepare (read_csv lines) ai_columns human_column valid_categories
    = (out, inr (df, ai, human)) →
  let validated := with_comment (read_csv lines) ai human in
  no_missing validated (ai ++ [human])
  ∧ dropna validated (ai ++ [human]) = inr validated
  ∧ df = validated
  ∧ range_index df
  ∧ ∃ rel human_codes,
      calculate_inter_rater_reliability df ai human = inr rel
      ∧ column_values df human = inr human_codes
      ∧ ∀ idx comment codes,
          (idx, comment, codes) ∈ ai_internal_disagreements rel →
          ∃ r h,
            1 ≤ idx
            ∧ body df !! (idx - 1) = Some r
            ∧ row_values (columns df) r.2 ai = inr codes
            ∧ row_get (columns df) r.2 human = inr h
            ∧ loc (set_column df (Name "final_coding") human_codes) (idx - 1)
                human = inr h.
Proof.
  intros Hprep validated.
  apply prepare_inr in Hprep as [Hres Hval].
  apply validate_and_drop_inr in Hval as (-> & Hvalid & Hdrop & -> & Hne).
  fold validated in Hvalid, Hdrop, Hne |- *.
  assert (Hidx : range_index validated).
  { apply range_index_with_comment, range_index_read_csv. }
  assert (Hmiss : no_missing validated (ai ++ [human])).
  { intros r col Hr Hcol. rewrite Forall_forall in Hvalid.
    by eapply row_valid_not_missing; [apply Hvalid|]. }
  assert (Hcols : ∀ col, col ∈ ai ++ [human] → col ∈ columns validated).
  { intros col Hcol. unfold empty in Hne. apply orb_false_iff in Hne as [_ Hne].
    apply bool_decide_eq_false in Hne.
    destruct (body validated) as [|r rows] eqn:Hbody; [done|].
    inversion Hvalid as [|? ? Hr _]; subst.
    destruct (Hr col Hcol) as (s & Hs & _). by eapply row_get_inr_elem_of. }
  assert (Hhuman : human ≠ Name "final_coding").
  { pose proof (resolve_columns_inr _ _ _ _ _ Hres human) as Hin.
    intros ->. simpl in Hin.
    apply list_elem_of_fmap in Hin as (n & [=] & _).
    apply elem_of_app. right. by apply list_elem_of_singleton. }
  assert (Hbody : body validated ≠ []).
  { unfold empty in Hne. apply orb_false_iff in Hne as [_ Hne].
    by apply bool_decide_eq_false in Hne. }
  split_and!; try done.
  destruct (calculate_inter_rater_reliability_inr _ _ _ Hcols Hbody Hmiss)
    as (ai_codes & hs & rel & Hai & Hhs & Hrel & Hint & _).
  exists rel, hs. split_and!; try done.
  intros idx comment codes Hc. rewrite Hint in Hc.
  apply internal_loop_rows in Hc as (j & Hj & Hrow & _). simpl in Hj, Hrow.
  assert (idx - 1 = j) as -> by lia.
  destruct (body validated !! j) as [r|] eqn:Hr; cycle 1.
  { apply lookup_ge_None in Hr. apply lookup_lt_Some in Hrow.
    rewrite (length_frame_values _ _ _ Hai) in Hrow. unfold len in Hrow. lia. }
  assert (Hrin : r ∈ body validated) by (apply list_elem_of_lookup; eauto).
  rewrite Forall_forall in Hvalid.
  destruct (Hvalid r Hrin human) as (s & Hs & _).
  { apply elem_of_app. right. by apply list_elem_of_singleton. }
  exists r, (Str s). split_and!; try done; [lia|by eapply row_values_of_frame|].
  destruct (row_get_set_column validated (Name "final_coding") human hs j r (Str s))
    as (r' & Hr' & Hget); try done.
  { by apply length_column_values in Hhs. }
  rewrite (loc_range_index _ j r'); [done| |done].
  apply range_index_set_column; [|done]. by apply length_column_values in Hhs.
Qed.

(** ** The CSV of the run *)

Lemma set_column_has_column (df : DataFrame) (col : Label) (values : list Cell) :
  col ∈ columns (set_column df col values).
Proof.
  unfold set_column. destruct (col_pos (columns df) col) as [p|] eqn:Hp; simpl.
  - apply col_pos_lt in Hp as [_ Hp]. apply list_elem_of_lookup. eauto.
  - apply elem_of_app. right. by apply list_elem_of_singleton.
Qed.

(** Line 263 reads [human_codes], which is not bound before line 269: on a
    frame with at least one row the first element of the comprehension
    raises. *)
Lemma results_table_raises (df : DataFrame) (ai_columns : list Label)
    (human_column : Label) (ai_codes : option (list Cell)) :
  0 < len df → Name "final_coding" ∈ columns df →
  results_table df ai_columns human_column ai_codes human_codes_at_261
    = inl (NameError "human_codes").
Proof.
  intros Hlen Hcol. unfold results_table.
  destruct (column_values_is_inr df _ Hcol) as [final ->]. simpl.
  destruct (len df) as [|n]; [lia|]. reflexivity.
Qed.

Lemma internal_entries_is_inr (df : DataFrame) (human_column : Label)
    (cases : list InternalCase) :
  (∀ c, c ∈ cases → ∃ h, loc df (c.1.1 - 1) human_column = inr h) →
  ∃ entries, internal_entries df human_column cases = inr entries.
Proof.
  intros Hloc. apply mapM_is_inr, Forall_forall. intros c Hc.
  destruct (Hloc c Hc) as [h ->]. simpl. eauto.
Qed.

(** The blocks the loop of lines 250-255 writes: one per case, in order, each
    with the value [df.loc] returned for it. *)
Lemma internal_entries_inr (df : DataFrame) (human_column : Label)
    (cases : list InternalCase) (entries : list InternalEntry) :
  internal_entries df human_column cases = inr entries →
  fst <$> entries = cases
  ∧ ∀ c h, (c, h) ∈ entries → loc df (c.1.1 - 1) human_column = inr h.
Proof.
  unfold internal_entries. intros H. apply mapM_inr in H.
  induction H as [|c e cases entries He _ [IH1 IH2]].
  - split; [done|]. intros c h Hin. by apply elem_of_nil in Hin.
  - apply bind_inr in He as (h & Hloc & He). unfold_result. injection He as <-.
    split; [by rewrite fmap_cons, IH1|].
    intros c' h' Hin. apply elem_of_cons in Hin as [[= -> ->]|Hin]; [done|].
    by apply IH2.
Qed.

(** The run on a frame that got past lines 115-141: the report is written,
    then building the CSV table raises. *)
Lemma analyze_after_prepare (lines : list (list Cell))
    (ai_columns : option (list Label)) (human_column : option Label)
    (valid_categories : list string) out (df : DataFrame)
    (ai : list Label) (human : Label) :
  prepare (read_csv lines) ai_columns human_column valid_categories
    = (out, inr (df, ai, human)) →
  ∃ rel human_codes report,
    calculate_inter_rater_reliability df ai human = inr rel
    ∧ column_values df human = inr human_codes
    ∧ write_report (set_column df (Name "final_coding") human_codes) ai human
        rel = inr report
    ∧ analyze_coding_agreement lines ai_columns human_column valid_categories
      = {| printed := out;
           written := [reliability_results_txt (Some report)];
           outcome := inl (NameError "human_codes") |}.
Proof.
  intros Hprep. unfold analyze_coding_agreement. rewrite Hprep.
  pose proof (prepare_inr _ _ _ _ _ _ _ _ Hprep) as [_ Hval].
  apply validate_and_drop_inr in Hval as (_ & _ & _ & _ & Hne).
  destruct (prepared_frame _ _ _ _ _ _ _ _ Hprep)
    as (_ & _ & -> & Hidx & rel & hs & Hrel & Hcol & Hcases).
  rewrite Hrel, Hcol.
  set (df := with_comment (read_csv lines) ai human) in *.
  set (df' := set_column df (Name "final_coding") hs).
  assert (Hhs : length hs = len df) by by eapply length_column_values.
  destruct (internal_entries_is_inr df' human (ai_internal_disagreements rel))
    as [entries Hentries].
  { intros [[idx cm] codes] Hc.
    destruct (Hcases idx cm codes Hc) as (r & h & _ & _ & _ & _ & Hloc). eauto. }
  assert (Hreport : ∃ report, write_report df' ai human rel = inr report)
    by (unfold write_report; rewrite Hentries; simpl; eauto).
  destruct Hreport as [report Hreport].
  exists rel, hs, report. fold df'. rewrite Hreport.
  split; [done|]. split; [done|]. split; [done|].
  rewrite results_table_raises.
  - done.
  - unfold df'. rewrite length_set_column by done. unfold empty in Hne.
    apply orb_false_iff in Hne as [_ Hne]. apply bool_decide_eq_false in Hne.
    unfold len. destruct (body df); [done|simpl; lia].
  - apply set_column_has_column.
Qed.

(** What the report of a run that gets past lines 115-141 holds for the
    internal disagreement cases. *)
Lemma prepared_report (lines : list (list Cell))
    (ai_columns : option (list Label)) (human_column : option Label)
    (valid_categories : list string) out (df : DataFrame)
    (ai : list Label) (human : Label) :
  prepare (read_csv lines) ai_columns human_column valid_categories
    = (out, inr (df, ai, human)) →
  let validated := with_comment (read_csv lines) ai human in
  no_missing validated (ai ++ [human])
  ∧ dropna validated (ai ++ [human]) = inr validated
  ∧ df = validated
  ∧ range_index df
  ∧ ∃ rel report,
      calculate_inter_rater_reliability df ai human = inr rel
      ∧ written (analyze_coding_agreement lines ai_columns human_column
                   valid_categories)
        = [reliability_results_txt (Some report)]
      ∧ fst <$> report_internal_cases report = ai_internal_disagreements rel
      ∧ ∀ idx comment codes h,
          (idx, comment, codes, h) ∈ report_internal_cases report →
          ∃ r, 1 ≤ idx
               ∧ body df !! (idx - 1) = Some r
               ∧ row_values (columns df) r.2 ai = inr codes
               ∧ row_get (columns df) r.2 human = inr h.
Proof.
  intros Hprep validated.
  destruct (prepared_frame _ _ _ _ _ _ _ _ Hprep)
    as (Hmiss & Hdrop & Hdf & Hidx & rel & hs & Hrel & Hcol & Hcases).
  destruct (analyze_after_prepare _ _ _ _ _ _ _ _ Hprep)
    as (rel' & hs' & report & Hrel' & Hcol' & Hreport & Hrun).
  assert (rel' = rel) as -> by congruence.
  assert (hs' = hs) as -> by congruence.
  split_and!; try done. exists rel, report. rewrite Hrun.
  split_and!; try done.
  - unfold write_report in Hreport.
    apply bind_inr in Hreport as (entries & Hentries & Hreport).
    unfold_result. injection Hreport as <-. simpl.
    by apply internal_entries_inr in Hentries as [-> _].
  - intros idx comment codes h Hin.
    unfold write_report in Hreport.
    apply bind_inr in Hreport as (entries & Hentries & Hreport).
    unfold_result. injection Hreport as <-. simpl in Hin.
    apply internal_entries_inr in Hentries as [Hfst Hloc].
    specialize (Hloc _ _ Hin). simpl in Hloc.
    assert (Hc : (idx, comment, codes) ∈ ai_internal_disagreements rel).
    { rewrite <- Hfst. apply list_elem_of_fmap.
      by exists (idx, comment, codes, h). }
    destruct (Hcases idx comment codes Hc) as (r & h' & ? & ? & ? & ? & Hloc').
    exists r. split_and!; try done. congruence.
Qed.

(** C9.  On a run that gets past validation, the validated frame has no
    missing rater or reference cell and the removal of missing values returns
    it unchanged, so its rows still carry their positions as labels.
    Consequently the section of the written report on the internal
    disagreement cases (lines 248-255) has one block per case, and the block
    of the case reported with the 1-based index [idx] shows the rater codes
    of the row at position [idx - 1] and, as what
    [df.loc[idx-1, human_column]] returned, the reference code of that same
    row. *)
Theorem validated_rows_keep_their_positions (lines : list (list Cell))
    (ai_columns : option (list Label)) (human_column : option Label)
    (valid_categories : list string) out (df : DataFrame)
    (ai : list Label) (human : Label) :
  prepare (read_csv lines) ai_columns human_column valid_categories
    = (out, inr (df, ai, human)) →
  let validated := with_comment (read_csv lines) ai human in
  no_missing validated (ai ++ [human])
  ∧ dropna validated (ai ++ [human]) = inr validated
  ∧ df = validated
  ∧ range_index df
  ∧ ∃ rel report,
      calculate_inter_rater_reliability df ai human = inr rel
      ∧ written (analyze_coding_agreement lines ai_columns human_column
                   valid_categories)
        = [reliability_results_txt (Some report)]
      ∧ fst <$> report_internal_cases report = ai_internal_disagreements rel
      ∧ ∀ idx comment codes h,
          (idx, comment, codes, h) ∈ report_internal_cases report →
          ∃ r, 1 ≤ idx
               ∧ body df !! (idx - 1) = Some r
               ∧ row_values (columns df) r.2 ai = inr codes
               ∧ row_get (columns df) r.2 human = inr h.
Proof. apply prepared_report. Qed.

(** On the table of the first scenario the report has the blocks of rows 2
    and 4, each with the reference code "a" of its row. *)
Example internal_blocks_of_scenario_1 :
  ∃ report,
    written (analyze_coding_agreement scenario_1
               (Some [Int 0; Int 1; Int 2]) None ["a"; "b"])
    = [reliability_results_txt (Some report)]
    ∧ report_internal_cases report
      = [(2, Str "No comment available", [Str "a"; Str "b"; Str "a"], Str "a");
         (4, Str "No comment available", [Str "a"; Str "a"; Str "b"], Str "a")].
Proof. eexists. split; reflexivity. Qed.

Lemma validated_rows_keep_their_positions_witness :
  no_missing scenario_1_frame ([Int 0; Int 1; Int 2] ++ [Int 3])
  ∧ dropna scenario_1_frame ([Int 0; Int 1; Int 2] ++ [Int 3])
    = inr scenario_1_frame
  ∧ scenario_1_frame = scenario_1_frame
  ∧ range_index scenario_1_frame
  ∧ ∃ rel report,
      calculate_inter_rater_reliability scenario_1_frame
        [Int 0; Int 1; Int 2] (Int 3) = inr rel
      ∧ written (analyze_coding_agreement scenario_1
                   (Some [Int 0; Int 1; Int 2]) None ["a"; "b"])
        = [reliability_results_txt (Some report)]
      ∧ fst <$> report_internal_cases report = ai_internal_disagreements rel
      ∧ ∀ idx comment codes h,
          (idx, comment, codes, h) ∈ report_internal_cases report →
          ∃ r, 1 ≤ idx
               ∧ body scenario_1_frame !! (idx - 1) = Some r
               ∧ row_values (columns scenario_1_frame) r.2
                   [Int 0; Int 1; Int 2] = inr codes
               ∧ row_get (columns scenario_1_frame) r.2 (Int 3) = inr h.
Proof.
  apply (validated_rows_keep_their_positions scenario_1
           (Some [Int 0; Int 1; Int 2]) None ["a"; "b"] [] scenario_1_frame
           [Int 0; Int 1; Int 2] (Int 3)).
  reflexivity.
Defined.

(** C1, as the code has it: no run writes the CSV.  A run that fails before
    the report writes nothing; a run that gets past validation writes the
    report and then raises [NameError] at line 263, before [to_csv]. *)
Theorem results_csv_is_never_written (lines : list (list Cell))
    (ai_columns : option (list Label)) (human_column : option Label)
    (valid_categories : list string) :
  let run := analyze_coding_agreement lines ai_columns human_column
               valid_categories in
  (∀ table, results_csv table ∉ written run)
  ∧ (∀ out df ai human,
       prepare (read_csv lines) ai_columns human_column valid_categories
         = (out, inr (df, ai, human)) →
       outcome run = inl (NameError "human_codes")).
Proof.
  simpl. split.
  - intros table.
    destruct (prepare (read_csv lines) ai_columns human_column valid_categories)
      as [out [e|[[df ai] human]]] eqn:Hprep.
    + unfold analyze_coding_agreement. rewrite Hprep. simpl. apply not_elem_of_nil.
    + destruct (analyze_after_prepare _ _ _ _ _ _ _ _ Hprep)
        as (rel & hs & report & _ & _ & _ & ->).
      simpl. intros H. apply list_elem_of_singleton in H. discriminate H.
  - intros out df ai human Hprep.
    by destruct (analyze_after_prepare _ _ _ _ _ _ _ _ Hprep)
      as (rel & hs & report & _ & _ & _ & ->).
Qed.

(** The run on one valid row of six columns, with the default selectors, and
    on the table of the first scenario. *)
Example analyze_valid_rows :
  outcome (analyze_coding_agreement
             [[Str "a"; Str "a"; Str "a"; Str "a"; Str "a"; Str "a"]]
             None None ["a"; "b"])
  = inl (NameError "human_codes")
  ∧ length (written (analyze_coding_agreement
                       [[Str "a"; Str "a"; Str "a"; Str "a"; Str "a"; Str "a"]]
                       None None ["a"; "b"])) = 1
  ∧ outcome (analyze_coding_agreement scenario_1
               (Some [Int 0; Int 1; Int 2]) None ["a"; "b"])
    = inl (NameError "human_codes").
Proof. repeat split; reflexivity. Qed.

(** ** Cohen's Kappa *)

Ltac decide_cases := repeat case_decide; first [done | congruence | lia].

Lemma count_cons (c x : Cell) (ys : list Cell) :
  count c (x :: ys) = (if decide (x = c) then 1 else 0) + count c ys.
Proof. unfold count. rewrite filter_cons. by case_decide. Qed.

Lemma count_le (c : Cell) (ys : list Cell) : count c ys ≤ length ys.
Proof.
  induction ys as [|y ys IH]; [done|]. rewrite count_cons. simpl.
  case_decide; lia.
Qed.

Lemma count_replicate (c d : Cell) (n : nat) :
  count d (replicate n c) = if decide (d = c) then n else 0.
Proof.
  induction n as [|n IH]; simpl; [by case_decide|].
  rewrite count_cons, IH. decide_cases.
Qed.

Lemma count_lt (c x : Cell) (ys : list Cell) :
  x ∈ ys → x ≠ c → count c ys < length ys.
Proof.
  induction ys as [|y ys IH]; intros Hx Hne; [by apply elem_of_nil in Hx|].
  rewrite count_cons. simpl. apply elem_of_cons in Hx as [<-|Hx].
  - rewrite decide_False by done. pose proof (count_le c ys). lia.
  - specialize (IH Hx Hne). case_decide; lia.
Qed.

Lemma count_all (c : Cell) (ys : list Cell) :
  count c ys = length ys ↔ ys = replicate (length ys) c.
Proof.
  induction ys as [|y ys IH]; [done|]. rewrite count_cons. simpl.
  pose proof (count_le c ys). case_decide as Hy.
  - subst y. split.
    + intros H'. f_equal. apply IH. lia.
    + intros [= H']. apply IH in H'. lia.
  - split; [lia|]. by intros [= ? _].
Qed.

Lemma agreement_count_cons (x y : Cell) (xs ys : list Cell) :
  agreement_count (x :: xs) (y :: ys)
  = (if decide (x = y) then 1 else 0) + agreement_count xs ys.
Proof. unfold agreement_count. simpl. rewrite filter_cons. simpl. by case_decide. Qed.

Lemma agreement_count_replicate_l (c : Cell) (ys : list Cell) :
  agreement_count (replicate (length ys) c) ys = count c ys.
Proof.
  induction ys as [|y ys IH]; [done|]. simpl.
  rewrite agreement_count_cons, count_cons, IH. decide_cases.
Qed.

Lemma agreement_count_replicate_r (c : Cell) (ys : list Cell) :
  agreement_count ys (replicate (length ys) c) = count c ys.
Proof.
  induction ys as [|y ys IH]; [done|]. simpl.
  by rewrite agreement_count_cons, count_cons, IH.
Qed.

Lemma agreement_count_diag (ys : list Cell) :
  agreement_count ys ys = length ys.
Proof.
  induction ys as [|y ys IH]; [done|].
  rewrite agreement_count_cons, IH, decide_True by done. done.
Qed.

Lemma sum_list_fmap_cons (f : Cell → nat) (x : Cell) (l : list Cell) :
  sum_list (f <$> x :: l) = f x + sum_list (f <$> l).
Proof. done. Qed.

Lemma sum_list_indicator_0 (c : Cell) (f : Cell → nat) (l : list Cell) :
  c ∉ l → sum_list ((λ d, if decide (d = c) then f d else 0) <$> l) = 0.
Proof.
  induction l as [|y l IH]; intros Hc; [done|]. rewrite sum_list_fmap_cons.
  rewrite decide_False by (intros ->; apply Hc; left).
  apply IH. intros H. apply Hc. by right.
Qed.

Lemma sum_list_indicator (c : Cell) (f : Cell → nat) (l : list Cell) :
  NoDup l → c ∈ l →
  sum_list ((λ d, if decide (d = c) then f d else 0) <$> l) = f c.
Proof.
  induction 1 as [|x l Hx Hnd IH]; intros Hc; [by apply elem_of_nil in Hc|].
  rewrite sum_list_fmap_cons. apply elem_of_cons in Hc as [Heq|Hc].
  - subst x. rewrite decide_True by done.
    rewrite sum_list_indicator_0 by done. lia.
  - rewrite decide_False by (intros ->; done). by rewrite IH.
Qed.

Lemma sum_list_fmap_ext (f g : Cell → nat) (l : list Cell) :
  (∀ d, f d = g d) → sum_list (f <$> l) = sum_list (g <$> l).
Proof.
  intros H. induction l as [|x l IH]; [done|].
  by rewrite !sum_list_fmap_cons, H, IH.
Qed.

Lemma sum_list_fmap_le (f g : Cell → nat) (l : list Cell) :
  (∀ d, f d ≤ g d) → sum_list (f <$> l) ≤ sum_list (g <$> l).
Proof.
  intros H. induction l as [|x l IH]; [done|].
  rewrite !sum_list_fmap_cons. specialize (H x). lia.
Qed.

Lemma sum_list_fmap_mul (k : nat) (f : Cell → nat) (l : list Cell) :
  sum_list ((λ d, f d * k) <$> l) = sum_list (f <$> l) * k.
Proof.
  induction l as [|x l IH]; [done|]. rewrite !sum_list_fmap_cons, IH. lia.
Qed.

Lemma sum_list_fmap_add (f g : Cell → nat) (l : list Cell) :
  sum_list ((λ d, f d + g d) <$> l) = sum_list (f <$> l) + sum_list (g <$> l).
Proof.
  induction l as [|x l IH]; [done|]. rewrite !sum_list_fmap_cons, IH. lia.
Qed.

Lemma sum_list_count (ys l : list Cell) :
  NoDup l → (∀ y, y ∈ ys → y ∈ l) →
  sum_list ((λ d, count d ys) <$> l) = length ys.
Proof.
  intros Hnd. induction ys as [|y ys IH]; intros Hsub.
  - clear. induction l as [|x l IH]; [done|].
    by rewrite sum_list_fmap_cons, IH.
  - rewrite (sum_list_fmap_ext _ (λ d, (if decide (d = y) then 1 else 0)
                                        + count d ys)).
    + rewrite sum_list_fmap_add, IH by (intros z Hz; apply Hsub; by right).
      rewrite (sum_list_indicator y (λ _, 1)); [done..|]. apply Hsub. left.
    + intros d. rewrite count_cons. decide_cases.
Qed.

Lemma chance_count_replicate_l (c : Cell) (ys : list Cell) :
  ys ≠ [] →
  chance_count (replicate (length ys) c) ys = length ys * count c ys.
Proof.
  intros Hne. unfold chance_count.
  rewrite (sum_list_fmap_ext _
    (λ d, if decide (d = c) then length ys * count d ys else 0)).
  - rewrite (sum_list_indicator c (λ d, length ys * count d ys)); [done|..].
    + apply NoDup_remove_dups.
    + apply elem_of_remove_dups, elem_of_app. left.
      destruct ys; [done|]. simpl. left.
  - intros d. rewrite count_replicate. by case_decide.
Qed.

Lemma chance_count_replicate_r (c : Cell) (ys : list Cell) :
  ys ≠ [] →
  chance_count ys (replicate (length ys) c) = length ys * count c ys.
Proof.
  intros Hne. unfold chance_count.
  rewrite (sum_list_fmap_ext _
    (λ d, if decide (d = c) then length ys * count d ys else 0)).
  - rewrite (sum_list_indicator c (λ d, length ys * count d ys)); [done|..].
    + apply NoDup_remove_dups.
    + apply elem_of_remove_dups, elem_of_app. right.
      destruct ys; [done|]. simpl. left.
  - intros d. rewrite count_replicate. case_decide; lia.
Qed.

Lemma chance_count_diag_lt (ys : list Cell) :
  ¬ constant ys → chance_count ys ys < length ys * length ys.
Proof.
  intros Hvar. unfold chance_count.
  assert (Hex : ∃ x y, x ∈ ys ∧ y ∈ ys ∧ x ≠ y).
  { destruct (decide (Forall (λ x, Forall (λ y, x = y) ys) ys)) as [Hall|Hnot].
    - exfalso. apply Hvar. intros x y Hx Hy.
      rewrite Forall_forall in Hall. specialize (Hall x Hx).
      rewrite Forall_forall in Hall. by apply Hall.
    - apply not_Forall_Exists in Hnot; [|apply _].
      apply Exists_exists in Hnot as (x & Hx & Hnot). simpl in Hnot.
      apply not_Forall_Exists in Hnot; [|apply _].
      apply Exists_exists in Hnot as (y & Hy & Hxy). eauto. }
  destruct Hex as (x & y & Hx & Hy & Hxy).
  assert (Hlt : ∀ d, count d ys ≤ length ys - 1).
  { intros d. destruct (decide (x = d)) as [->|Hd].
    - pose proof (count_lt d y ys Hy ltac:(congruence)). lia.
    - pose proof (count_lt d x ys Hx Hd). lia. }
  assert (Hpos : 0 < length ys).
  { destruct ys; [by apply elem_of_nil in Hx|simpl; lia]. }
  eapply Nat.le_lt_trans.
  - apply (sum_list_fmap_le _ (λ d, count d ys * (length ys - 1))).
    intros d. apply Nat.mul_le_mono_l, Hlt.
  - rewrite sum_list_fmap_mul, sum_list_count.
    + nia.
    + apply NoDup_remove_dups.
    + intros z Hz. apply elem_of_remove_dups, elem_of_app. by left.
Qed.

Lemma inject_nat_nonzero (n : nat) :
  0 < n → ¬ (inject_Z (Z.of_nat n) == 0)%Q.
Proof.
  intros Hn H. apply (proj1 (inject_Z_injective (Z.of_nat n) 0)) in H. lia.
Qed.

Lemma true_div_cancel (n m : nat) :
  0 < n → (true_div (n * m) (n * n) == true_div m n)%Q.
Proof.
  intros Hn. unfold true_div. rewrite !Nat2Z.inj_mul, !inject_Z_mult.
  field. by apply inject_nat_nonzero.
Qed.

Lemma true_div_one_iff (a b : nat) :
  0 < b → (1 - true_div a b == 0)%Q ↔ a = b.
Proof.
  intros Hb. pose proof (inject_nat_nonzero b Hb) as Hnz. split.
  - intros H.
    assert (Heq : (inject_Z (Z.of_nat a) == inject_Z (Z.of_nat b))%Q).
    { rewrite <- (true_div_mul a b Hb).
      assert (true_div a b == 1)%Q as ->.
      { rewrite <- (Qplus_0_r (true_div a b)), <- H. ring. }
      ring. }
    apply (proj1 (inject_Z_injective _ _)) in Heq. lia.
  - intros ->. unfold true_div. field. done.
Qed.

Lemma constant_replicate (ys : list Cell) :
  constant ys → ∃ c, ys = replicate (length ys) c.
Proof.
  intros Hc. destruct ys as [|x ys]; [by exists NaN|].
  exists x. apply (list_eq_same_length _ _ (length (x :: ys))).
  - by rewrite length_replicate.
  - done.
  - intros i y z Hi Hy Hz. apply lookup_replicate in Hz as [-> _].
    apply Hc; [|left]. apply list_elem_of_lookup. eauto.
Qed.

(** The value of Kappa when the chance count is the agreement count scaled by
    the length: undefined when every position agrees, and 0 otherwise. *)
Lemma kappa_chance_tracks_agreement (y1 y2 : list Cell) (m : nat) :
  0 < length y1 → m ≤ length y1 →
  agreement_count y1 y2 = m →
  chance_count y1 y2 = length y1 * m →
  (m = length y1 ∧ kappa y1 y2 = None)
  ∨ (m ≠ length y1 ∧ ∃ k, kappa y1 y2 = Some k ∧ (k == 0)%Q).
Proof.
  intros Hn Hm HA HE. unfold kappa. rewrite HA, HE. cbv zeta.
  assert (Hnn : 0 < length y1 * length y1) by nia.
  destruct (Qeq_bool _ 0) eqn:Hq.
  - left. split; [|done]. apply Qeq_bool_iff in Hq.
    apply true_div_one_iff in Hq; [|done].
    apply Nat.mul_cancel_l in Hq; lia.
  - right. split.
    + intros ->. apply Qeq_bool_neq in Hq. apply Hq.
      by apply true_div_one_iff.
    + eexists. split; [done|].
      assert (true_div m (length y1) - true_div (length y1 * m)
                (length y1 * length y1) == 0)%Q as ->.
      { rewrite true_div_cancel by done. ring. }
      unfold Qdiv. ring.
Qed.

Lemma kappa_constant_l (c : Cell) (ys : list Cell) :
  ys ≠ [] →
  (ys = replicate (length ys) c
   ∧ kappa (replicate (length ys) c) ys = None)
  ∨ (ys ≠ replicate (length ys) c
     ∧ ∃ k, kappa (replicate (length ys) c) ys = Some k ∧ (k == 0)%Q).
Proof.
  intros Hne.
  assert (Hpos : 0 < length ys) by (destruct ys; [done|simpl; lia]).
  destruct (kappa_chance_tracks_agreement (replicate (length ys) c) ys
              (count c ys)) as [[Hm Hk]|[Hm Hk]].
  - by rewrite length_replicate.
  - rewrite length_replicate. apply count_le.
  - apply agreement_count_replicate_l.
  - rewrite length_replicate. by apply chance_count_replicate_l.
  - left. rewrite length_replicate in Hm. by apply count_all in Hm.
  - right. split; [|done]. rewrite length_replicate in Hm.
    intros H. by apply count_all in H.
Qed.

Lemma kappa_constant_r (c : Cell) (ys : list Cell) :
  ys ≠ [] →
  (ys = replicate (length ys) c
   ∧ kappa ys (replicate (length ys) c) = None)
  ∨ (ys ≠ replicate (length ys) c
     ∧ ∃ k, kappa ys (replicate (length ys) c) = Some k ∧ (k == 0)%Q).
Proof.
  intros Hne.
  assert (Hpos : 0 < length ys) by (destruct ys; [done|simpl; lia]).
  destruct (kappa_chance_tracks_agreement ys (replicate (length ys) c)
              (count c ys)) as [[Hm Hk]|[Hm Hk]].
  - done.
  - apply count_le.
  - apply agreement_count_replicate_r.
  - by apply chance_count_replicate_r.
  - left. by apply count_all in Hm.
  - right. split; [|done]. intros H. by apply count_all in H.
Qed.

Lemma kappa_diag (ys : list Cell) :
  ¬ constant ys → ∃ k, kappa ys ys = Some k ∧ (k == 1)%Q.
Proof.
  intros Hvar. pose proof (chance_count_diag_lt ys Hvar) as Hlt.
  assert (Hpos : 0 < length ys) by nia.
  unfold kappa. rewrite agreement_count_diag. cbv zeta.
  assert (Hnz : ¬ (1 - true_div (chance_count ys ys) (length ys * length ys)
                   == 0)%Q).
  { intros H. apply true_div_one_iff in H; lia. }
  destruct (Qeq_bool _ 0) eqn:Hq; [by apply Qeq_bool_iff in Hq|].
  eexists. split; [done|].
  assert (true_div (length ys) (length ys) == 1)%Q as ->.
  { unfold true_div. field. by apply inject_nat_nonzero. }
  by apply Qdiv_mult_l with (x := 1%Q) in Hnz; rewrite Qmult_1_l in Hnz.
Qed.

Lemma kappa_diag_constant (ys : list Cell) :
  ys ≠ [] → constant ys → kappa ys ys = None.
Proof.
  intros Hne Hc. destruct (constant_replicate _ Hc) as [c Hys].
  destruct (kappa_constant_l c ys Hne) as [[_ Hk]|[Hneq _]]; [|done].
  by rewrite <- Hys in Hk.
Qed.

Lemma constant_dec (ys : list Cell) : constant ys ∨ ¬ constant ys.
Proof.
  destruct (decide (Forall (λ x, Forall (λ y, x = y) ys) ys)) as [Hall|Hnot].
  - left. intros x y Hx Hy.
    rewrite Forall_forall in Hall. specialize (Hall x Hx).
    rewrite Forall_forall in Hall. by apply Hall.
  - right. intros Hc. apply Hnot. apply Forall_forall. intros x Hx.
    apply Forall_forall. intros y Hy. by apply Hc.
Qed.

Lemma accepted_intro (y1 y2 : list Cell) :
  y1 ≠ [] → length y1 = length y2 → NaN ∉ y1 → NaN ∉ y2 → accepted y1 y2.
Proof.
  intros Hne Hlen H1 H2. split; [done|]. split; [done|].
  by apply not_elem_of_app.
Qed.

(** C5 as stated fails: against a series that is not constant, the Kappa of a
    constant series is 0, a number, and not the NaN that two equal constant
    series give. *)
Lemma kappa_of_one_constant_series :
  constant [Str "a"; Str "a"]
  ∧ (∃ k, cohen_kappa_score [Str "a"; Str "a"] [Str "a"; Str "b"]
          = inr (Some k) ∧ (k == 0)%Q)
  ∧ cohen_kappa_score [Str "a"; Str "a"] [Str "a"; Str "a"] = inr None.
Proof.
  split; [|split].
  - intros x y Hx Hy.
    apply list_elem_of_In in Hx, Hy. simpl in Hx, Hy. intuition congruence.
  - eexists. split; reflexivity.
  - reflexivity.
Qed.

(** C5, amended.  For two series that scikit-learn accepts (one length, not
    empty, no missing code), at least one of them constant, the Kappa
    computation does not raise: it returns the undefined sentinel (NaN) when
    the two series are the same constant series, and 0 otherwise.
    [calculate_inter_rater_reliability] itself returns on every frame that
    has the rater and reference columns, at least one row, and no missing
    code in these columns; on the table of the second scenario the all-"a"
    rater has the sentinel as its Kappa against the all-"a" reference, the
    other rater has 0, and the mean of the inter-rater Kappas is the sentinel
    too. *)
Theorem kappa_of_constant_series :
  (∀ y1 y2 : list Cell,
     y1 ≠ [] → length y1 = length y2 → NaN ∉ y1 → NaN ∉ y2 →
     constant y1 ∨ constant y2 →
     (y1 = y2 ∧ cohen_kappa_score y1 y2 = inr None)
     ∨ (y1 ≠ y2
        ∧ ∃ k, cohen_kappa_score y1 y2 = inr (Some k) ∧ (k == 0)%Q))
  ∧ (∀ (df : DataFrame) (ai_columns : list Label) (human_column : Label),
       (∀ col, col ∈ ai_columns ++ [human_column] → col ∈ columns df) →
       body df ≠ [] →
       no_missing df (ai_columns ++ [human_column]) →
       ∃ rel, calculate_inter_rater_reliability df ai_columns human_column
              = inr rel)
  ∧ (∃ rel k,
       calculate_inter_rater_reliability (read_csv scenario_2)
         [Int 0; Int 1] (Int 2) = inr rel
       ∧ inter_kappas rel = [None; Some k] ∧ (k == 0)%Q
       ∧ inter_mean_kappa rel = None).
Proof.
  split; [|split].
  - intros y1 y2 Hne Hlen Hn1 Hn2 Hconst.
    rewrite (cohen_kappa_score_accepted y1 y2) by by apply accepted_intro.
    destruct Hconst as [Hc|Hc].
    + destruct (constant_replicate _ Hc) as [c Hy1].
      assert (Hne2 : y2 ≠ []) by (intros ->; by destruct y1).
      rewrite Hy1, Hlen.
      destruct (kappa_constant_l c y2 Hne2) as [[Heq Hk]|[Hneq [k [Hk Hk0]]]].
      * left. split; [done|]. by rewrite Hk.
      * right. split; [congruence|]. exists k. by rewrite Hk.
    + destruct (constant_replicate _ Hc) as [c Hy2].
      rewrite Hy2, <- Hlen.
      destruct (kappa_constant_r c y1 Hne) as [[Heq Hk]|[Hneq [k [Hk Hk0]]]].
      * left. split; [done|]. by rewrite Hk.
      * right. split; [congruence|]. exists k. by rewrite Hk.
  - intros df ai_columns human_column Hcols Hne Hmiss.
    destruct (calculate_inter_rater_reliability_inr _ _ _ Hcols Hne Hmiss)
      as (? & ? & rel & _ & _ & Hrel & _). eauto.
  - eexists _, _. split; [reflexivity|]. split; [reflexivity|].
    split; reflexivity.
Qed.

Lemma kappa_of_constant_series_witness :
  ([Str "a"; Str "a"; Str "a"] = [Str "a"; Str "a"; Str "a"]
   ∧ cohen_kappa_score [Str "a"; Str "a"; Str "a"]
       [Str "a"; Str "a"; Str "a"] = inr None)
  ∨ ([Str "a"; Str "a"; Str "a"] ≠ [Str "a"; Str "a"; Str "a"]
     ∧ ∃ k, cohen_kappa_score [Str "a"; Str "a"; Str "a"]
              [Str "a"; Str "a"; Str "a"] = inr (Some k)
            ∧ (k == 0)%Q).
Proof.
  apply (proj1 kappa_of_constant_series).
  - discriminate.
  - reflexivity.
  - apply (bool_decide_unpack _). vm_compute. exact I.
  - apply (bool_decide_unpack _). vm_compute. exact I.
  - left. intros x y Hx Hy.
    apply list_elem_of_In in Hx, Hy. simpl in Hx, Hy. intuition congruence.
Defined.

(** C7 as stated fails on a constant series: its Kappa against itself is the
    undefined sentinel, not 1. *)
Lemma kappa_of_constant_series_against_itself :
  cohen_kappa_score [Str "a"; Str "a"; Str "a"] [Str "a"; Str "a"; Str "a"]
  = inr None.
Proof. reflexivity. Qed.

(** C7, amended.  For a series that is not empty and holds no missing code,
    the Kappa against a copy of itself does not raise; it is 1 when the
    series is not constant and the undefined sentinel (NaN) when it is.  So
    when a rater column is given twice, on a frame with at least one row and
    no missing code in that column and the reference column, the intra-rater
    Kappa of the pair is 1 when the column is not constant and the sentinel
    when it is. *)
Theorem kappa_against_itself :
  (∀ ys : list Cell,
     ys ≠ [] → NaN ∉ ys →
     (¬ constant ys
      ∧ ∃ k, cohen_kappa_score ys ys = inr (Some k) ∧ (k == 1)%Q)
     ∨ (constant ys ∧ cohen_kappa_score ys ys = inr None))
  ∧ (∀ (df : DataFrame) (col human_column : Label) (values : list Cell),
       col ∈ columns df → human_column ∈ columns df →
       body df ≠ [] → no_missing df [col; human_column] →
       column_values df col = inr values →
       ∃ rel,
         calculate_inter_rater_reliability df [col; col] human_column = inr rel
         ∧ ((¬ constant values
             ∧ ∃ k, intra_kappas rel = [Some k] ∧ (k == 1)%Q)
            ∨ (constant values ∧ intra_kappas rel = [None]))).
Proof.
  assert (Hself : ∀ ys : list Cell, ys ≠ [] →
            (¬ constant ys ∧ ∃ k, kappa ys ys = Some k ∧ (k == 1)%Q)
            ∨ (constant ys ∧ kappa ys ys = None)).
  { intros ys Hne. destruct (constant_dec ys) as [Hc|Hvar].
    - right. split; [done|]. by apply kappa_diag_constant.
    - left. split; [done|]. by apply kappa_diag. }
  split.
  - intros ys Hne Hnan.
    rewrite (cohen_kappa_score_accepted ys ys) by by apply accepted_intro.
    destruct (Hself ys Hne) as [[Hvar (k & Hk & Hk1)]|[Hc Hk]].
    + left. split; [done|]. exists k. by rewrite Hk.
    + right. split; [done|]. by rewrite Hk.
  - intros df col human_column values Hcol Hhuman Hne Hmiss Hvalues.
    destruct (calculate_inter_rater_reliability_inr df [col; col] human_column)
      as (ai_codes & hs & rel & Hai & _ & Hrel & _ & _ & _ & Hintra & _).
    { intros c Hc. apply list_elem_of_In in Hc. simpl in Hc.
      destruct Hc as [<-|[<-|[<-|[]]]]; done. }
    { done. }
    { intros r c Hr Hc. apply (Hmiss r c Hr).
      apply list_elem_of_In in Hc. simpl in Hc. apply list_elem_of_In. simpl.
      tauto. }
    apply frame_values_inr in Hai as (ps & Hps & ->).
    apply column_values_inr in Hvalues as (p & Hp & ->).
    inversion Hps as [|? p1 ? ps1 Hp1 Hps1]; subst.
    inversion Hps1 as [|? p2 ? ps2 Hp2 Hps2]; subst.
    inversion Hps2; subst.
    assert (p1 = p) as -> by congruence. assert (p2 = p) as -> by congruence.
    exists rel. split; [done|]. rewrite Hintra.
    assert (Hseries : ∀ i, i < 2 →
              array_col ((λ r, cell_at r.2 <$> [p; p]) <$> body df) i
              = (λ r, cell_at r.2 p) <$> body df).
    { intros i Hi. apply array_col_frame.
      destruct i as [|[|i]]; [done..|lia]. }
    change (rater_pairs (length [col; col])) with [(0, 1)]. simpl.
    rewrite !Hseries by lia.
    assert (Hne' : (λ r : nat * list Cell, cell_at r.2 p) <$> body df ≠ []).
    { destruct (body df); [done|]. discriminate. }
    destruct (Hself _ Hne') as [[Hvar (k & Hk & Hk1)]|[Hc Hk]].
    + left. split; [done|]. exists k. by rewrite Hk.
    + right. split; [done|]. by rewrite Hk.
Qed.

Lemma kappa_against_itself_witness :
  (¬ constant [Str "a"; Str "b"]
   ∧ ∃ k, cohen_kappa_score [Str "a"; Str "b"] [Str "a"; Str "b"]
          = inr (Some k) ∧ (k == 1)%Q)
  ∨ (constant [Str "a"; Str "b"]
     ∧ cohen_kappa_score [Str "a"; Str "b"] [Str "a"; Str "b"] = inr None).
Proof.
  apply (proj1 kappa_against_itself).
  - discriminate.
  - apply (bool_decide_unpack _). vm_compute. exact I.
Defined.

(** ** The comparison section of the report *)

Section comparison_report_properties.

Context {F : Type}.
Variable zero nan : F.

Lemma wbind_lines {A B} (P : Line F → Prop) (m : Writer A)
    (f : A → Writer B) :
  Forall P m.1 → (∀ x, Forall P (f x).1) → Forall P (wbind m f).1.
Proof.
  intros Hm Hf. destruct m as [ls [e|x]]; simpl; [done|].
  specialize (Hf x). destruct (f x) as [ls' r]. simpl in *.
  by apply Forall_app.
Qed.

Lemma item_lines (P : Line F → Prop) (xs : list F) (i : nat) :
  Forall P (item xs i).1.
Proof. unfold item. destruct (xs !! i); simpl; constructor. Qed.

Lemma write_lines (P : Line F → Prop) (l : Line F) :
  P l → Forall P (write l).1.
Proof. intros Hl. simpl. by repeat constructor. Qed.

Lemma wret_lines {A} (P : Line F → Prop) (x : A) :
  Forall P (wret (F:=F) x).1.
Proof. constructor. Qed.

Lemma text_line_well_marked (s : string) : well_marked (F:=F) [Text s].
Proof.
  intros p Hp. apply list_elem_of_singleton in Hp. discriminate Hp.
Qed.

Lemma marked_line_well_marked (s : string) (p : F) :
  well_marked [Text s; PValue p; Text " "; Marker p].
Proof.
  intros q Hq. left. apply list_elem_of_In in Hq. simpl in Hq.
  destruct Hq as [Hq|[Hq|[Hq|[Hq|[]]]]]; try discriminate Hq.
  injection Hq as ->. apply list_elem_of_In. simpl. tauto.
Qed.

Lemma raw_line_well_marked (label : string) (rest : Line F) :
  label ∈ raw_test_labels → well_marked (Text label :: rest).
Proof. intros Hlabel p _. right. by exists label. Qed.

Lemma comparison_section_well_marked (all_results : AllResults F) :
  Forall well_marked (comparison_section zero nan all_results).1.
Proof.
  unfold comparison_section.
  destruct (comparison_results all_results) as [[|c comp]|];
    [apply wret_lines| |apply wret_lines].
  repeat first
    [ apply wbind_lines; [|intros ?]
    | apply item_lines
    | apply wret_lines
    | apply write_lines
    | case_bool_decide
    | apply text_line_well_marked
    | apply marked_line_well_marked
    | apply raw_line_well_marked;
      apply (bool_decide_unpack _); vm_compute; exact I ].
Qed.

Lemma unmarked_text_line (s : string) (q : F) : Marker q ∉ [Text (F:=F) s].
Proof. intros H. apply list_elem_of_singleton in H. discriminate H. Qed.

Lemma not_raw_line (label : string) (rest : Line F) :
  label ∉ raw_test_labels → raw_unmarked (Text label :: rest).
Proof.
  intros Hlabel (label' & Hhead & Hin) q. simpl in Hhead.
  injection Hhead as <-. done.
Qed.

Lemma raw_t_line_unmarked (s1 s2 s3 : string) (t p d : F) :
  raw_unmarked [Text s1; Fixed 3 t; Text s2; PValue p; Text s3; Fixed 3 d].
Proof.
  intros _ q Hq. apply list_elem_of_In in Hq. simpl in Hq.
  repeat (destruct Hq as [Hq|Hq]; [discriminate Hq|]). done.
Qed.

Lemma raw_z_line_unmarked (s1 s2 : string) (z p : F) :
  raw_unmarked [Text s1; Fixed 4 z; Text s2; PValue p].
Proof.
  intros _ q Hq. apply list_elem_of_In in Hq. simpl in Hq.
  repeat (destruct Hq as [Hq|Hq]; [discriminate Hq|]). done.
Qed.

Lemma comparison_section_raw_unmarked (all_results : AllResults F) :
  Forall raw_unmarked (comparison_section zero nan all_results).1.
Proof.
  unfold comparison_section.
  destruct (comparison_results all_results) as [[|c comp]|];
    [apply wret_lines| |apply wret_lines].
  repeat first
    [ apply wbind_lines; [|intros ?]
    | apply item_lines
    | apply wret_lines
    | apply write_lines
    | case_bool_decide
    | apply raw_t_line_unmarked
    | apply raw_z_line_unmarked
    | apply not_raw_line;
      apply (bool_decide_unpack _); vm_compute; exact I ].
Qed.

End comparison_report_properties.

(** C8 as stated fails: the line of the inter-rater t-test shows its p-value
    and no marker. *)
Lemma raw_p_value_has_no_marker :
  (comparison_section (Some 0%Q) None example_results).1 !! 2
  = Some [Text "Inter-rater Comparison: t="; Fixed 3 (Some (21 # 10)%Q);
          Text ", "; PValue (Some (4 # 100)%Q); Text ", Cohen's d=";
          Fixed 3 (Some (1 # 2)%Q)].
Proof. reflexivity. Qed.

(** C8, amended.  In the comparison section every line that shows a p-value
    also states the marker of the symbol function for that p-value, except
    the three lines that report a test statistic (the two t-tests and the
    Z-test) with its uncorrected p-value; those three carry no marker.  So the
    corrected p-values and the Mann-Whitney p-values come with their markers. *)
Theorem p_values_carry_markers {F : Type} (zero nan : F)
    (all_results : AllResults F) (line : Line F) :
  line ∈ (comparison_section zero nan all_results).1 →
  (∀ p, PValue p ∈ line → Marker p ∈ line ∨ is_raw_test_line line)
  ∧ (is_raw_test_line line → ∀ q, Marker q ∉ line).
Proof.
  intros Hline. split.
  - pose proof (comparison_section_well_marked zero nan all_results) as H.
    rewrite Forall_forall in H. by apply H.
  - pose proof (comparison_section_raw_unmarked zero nan all_results) as H.
    rewrite Forall_forall in H. by apply H.
Qed.

Lemma p_values_carry_markers_witness :
  (∀ p, PValue p ∈ [Text "Inter-rater Mann-Whitney U: ";
                     PValue (Some (3 # 100)%Q); Text " ";
                     Marker (Some (3 # 100)%Q)] →
        Marker p ∈ [Text "Inter-rater Mann-Whitney U: ";
                    PValue (Some (3 # 100)%Q); Text " ";
                    Marker (Some (3 # 100)%Q)]
        ∨ is_raw_test_line [Text "Inter-rater Mann-Whitney U: ";
                            PValue (Some (3 # 100)%Q); Text " ";
                            Marker (Some (3 # 100)%Q)])
  ∧ (is_raw_test_line [Text "Inter-rater Mann-Whitney U: ";
                       PValue (Some (3 # 100)%Q); Text " ";
                       Marker (Some (3 # 100)%Q)] →
     ∀ q, Marker q ∉ [Text "Inter-rater Mann-Whitney U: ";
                      PValue (Some (3 # 100)%Q); Text " ";
                      Marker (Some (3 # 100)%Q)]).
Proof.
  apply (p_values_carry_markers (Some 0%Q) None example_results).
  apply list_elem_of_lookup. exists 10. reflexivity.
Defined.

(** ** [os.path.normpath] *)

Lemma split_nonempty (path : pystr) : posixpath.split path ≠ [].
Proof.
  induction path as [|c path IH]; simpl; [done|].
  case_decide; [done|]. by destruct (posixpath.split path).
Qed.

Lemma split_cons_slash (path : pystr) :
  posixpath.split (slash :: path) = [] :: posixpath.split path.
Proof. reflexivity. Qed.

Lemma split_cons_other (c : codepoint) (path : pystr) :
  c ≠ slash →
  ∃ comp comps, posixpath.split path = comp :: comps
                ∧ posixpath.split (c :: path) = (c :: comp) :: comps.
Proof.
  intros Hc. simpl. rewrite decide_False by done.
  pose proof (split_nonempty path).
  destruct (posixpath.split path) as [|comp comps]; [done|]. eauto.
Qed.

Lemma split_no_slash (path : pystr) :
  Forall (λ comp, slash ∉ comp) (posixpath.split path).
Proof.
  induction path as [|c path IH].
  - repeat constructor. apply not_elem_of_nil.
  - destruct (decide (c = slash)) as [->|Hc].
    + rewrite split_cons_slash. constructor; [apply not_elem_of_nil|done].
    + destruct (split_cons_other c path Hc) as (comp & comps & Heq & ->).
      rewrite Heq in IH. inversion IH; subst. constructor; [|done].
      intros H. apply elem_of_cons in H as [H|H]; [congruence|done].
Qed.

Lemma split_slash_free (comp : pystr) :
  slash ∉ comp → posixpath.split comp = [comp].
Proof.
  induction comp as [|c comp IH]; intros Hc; [done|].
  destruct (split_cons_other c comp) as (comp' & comps & Heq & ->).
  { intros ->. apply Hc. left. }
  rewrite IH in Heq by (intros H; apply Hc; by right). by injection Heq as <- <-.
Qed.

Lemma split_app_slash (comp rest : pystr) :
  slash ∉ comp →
  posixpath.split (comp ++ slash :: rest) = comp :: posixpath.split rest.
Proof.
  induction comp as [|c comp IH]; intros Hc; [apply split_cons_slash|].
  rewrite <- app_comm_cons.
  destruct (split_cons_other c (comp ++ slash :: rest))
    as (comp' & comps & Heq & ->).
  { intros ->. apply Hc. left. }
  rewrite IH in Heq by (intros H; apply Hc; by right). by injection Heq as <- <-.
Qed.

Lemma split_join (comps : list pystr) :
  Forall (λ comp, slash ∉ comp) comps → comps ≠ [] →
  posixpath.split (posixpath.join comps) = comps.
Proof.
  induction 1 as [|comp comps Hc Hcs IH]; intros Hne; [done|].
  destruct comps as [|comp' comps].
  - by apply split_slash_free.
  - change (posixpath.join (comp :: comp' :: comps))
      with (comp ++ slash :: posixpath.join (comp' :: comps)).
    rewrite split_app_slash by done. by rewrite IH.
Qed.

Lemma split_replicate_slash (k : nat) (path : pystr) :
  posixpath.split (replicate k slash ++ path)
  = replicate k [] ++ posixpath.split path.
Proof.
  induction k as [|k IH]; [done|].
  change (replicate (S k) slash ++ path) with (slash :: (replicate k slash ++ path)).
  by rewrite split_cons_slash, IH.
Qed.

Lemma step_empty (k : nat) (stack : list pystr) :
  posixpath.step k stack [] = stack.
Proof. done. Qed.

Lemma foldl_step_empties (k n : nat) (stack : list pystr) (comps : list pystr) :
  foldl (posixpath.step k) stack (replicate n [] ++ comps)
  = foldl (posixpath.step k) stack comps.
Proof. induction n as [|n IH]; [done|]. simpl. by rewrite step_empty. Qed.

Lemma step_normal (k : nat) (stack : list pystr) (comp : pystr) :
  slash ∉ comp → posixpath.normal k stack →
  posixpath.normal k (posixpath.step k stack comp).
Proof.
  intros Hslash Hstack. unfold posixpath.step.
  destruct (decide (comp = [])) as [->|Hne]; [done|].
  destruct (decide (comp = [dot])) as [->|Hdot]; [done|].
  rewrite (bool_decide_false (comp = [])), (bool_decide_false (comp = [dot]))
    by done. simpl.
  destruct (decide (comp = [dot; dot])) as [->|Hdd].
  - rewrite bool_decide_true by done. simpl.
    destruct (decide (head stack = Some [dot; dot])) as [Hhead|Hhead].
    + rewrite (bool_decide_true (head stack = _)) by done.
      rewrite orb_true_r. simpl. split; [done|]. split; [done|]. intros _.
      destruct stack as [|top below]; [done|]. simpl in Hhead.
      injection Hhead as ->. destruct Hstack as (_ & _ & Htop).
      destruct (Htop eq_refl) as [-> _]. split; [done|]. by right.
    + rewrite (bool_decide_false (head stack = _)) by done. rewrite orb_false_r.
      destruct (decide (k = 0)) as [->|Hk], (decide (stack = [])) as [->|Hs];
        simpl.
      * split; [done|]. split; [done|]. intros _. split; [done|by left].
      * rewrite bool_decide_false by done.
        destruct stack as [|top below]; [done|]. by destruct Hstack as (_ & ? & _).
      * by rewrite (bool_decide_false (k = 0)).
      * rewrite (bool_decide_false (k = 0)) by done. simpl.
        destruct stack as [|top below]; [done|]. by destruct Hstack as (_ & ? & _).
  - rewrite (bool_decide_false (comp = [dot; dot])) by done. simpl.
    split; [done|]. split; [done|]. done.
Qed.

Lemma foldl_step_normal (k : nat) (comps : list pystr) :
  Forall (λ comp, slash ∉ comp) comps →
  ∀ stack, posixpath.normal k stack →
           posixpath.normal k (foldl (posixpath.step k) stack comps).
Proof.
  induction 1 as [|comp comps Hc _ IH]; intros stack Hstack; [done|].
  simpl. apply IH. by apply step_normal.
Qed.

Lemma step_push_normal (k : nat) (stack : list pystr) (comp : pystr) :
  posixpath.normal k (comp :: stack) →
  posixpath.step k stack comp = comp :: stack.
Proof.
  intros ((Hne & Hdot & _) & _ & Hdd). unfold posixpath.step.
  rewrite (bool_decide_false (comp = [])), (bool_decide_false (comp = [dot]))
    by done. simpl.
  destruct (decide (comp = [dot; dot])) as [->|Hcomp].
  - destruct (Hdd eq_refl) as [-> [->|Hhead]]; [done|].
    rewrite (bool_decide_true (head stack = _)) by done.
    by rewrite orb_true_r.
  - by rewrite (bool_decide_false (comp = [dot; dot])).
Qed.

(** Running the loop on the components of a normal stack rebuilds it. *)
Lemma foldl_step_replay (k : nat) (stack : list pystr) :
  posixpath.normal k stack →
  foldl (posixpath.step k) [] (reverse stack) = stack.
Proof.
  induction stack as [|comp stack IH]; intros Hstack; [done|].
  rewrite reverse_cons, foldl_app. simpl.
  rewrite IH by by destruct Hstack as (_ & ? & _).
  by apply step_push_normal.
Qed.

Lemma normal_kept (k : nat) (stack : list pystr) :
  posixpath.normal k stack → Forall posixpath.kept stack.
Proof.
  induction stack as [|comp stack IH]; intros Hstack; [done|].
  destruct Hstack as (Hcomp & Hstack & _). constructor; [done|by apply IH].
Qed.

Lemma join_head (comps : list pystr) :
  Forall posixpath.kept comps →
  (comps = [] ∧ posixpath.join comps = [])
  ∨ ∃ c rest, posixpath.join comps = c :: rest ∧ c ≠ slash.
Proof.
  intros [|comp others (Hne & _ & Hslash) _]; [by left|]. right.
  destruct comp as [|c comp]; [done|]. exists c.
  assert (Hc : c ≠ slash) by (intros ->; apply Hslash; left).
  destruct others as [|comp' others]; simpl; eauto.
Qed.

Lemma initial_slashes_le (path : pystr) : posixpath.initial_slashes path ≤ 2.
Proof.
  destruct path as [|c1 [|c2 [|c3 path]]]; simpl; repeat case_decide; lia.
Qed.

Lemma initial_slashes_replicate (k : nat) (path : pystr) :
  k ≤ 2 →
  path = [] ∨ (∃ c rest, path = c :: rest ∧ c ≠ slash) →
  posixpath.initial_slashes (replicate k slash ++ path) = k.
Proof.
  intros Hk Hpath. destruct k as [|[|[|k]]]; [| | |lia].
  - destruct Hpath as [->|(c & rest & -> & Hc)]; [done|].
    simpl. by rewrite decide_False.
  - destruct Hpath as [->|(c & rest & -> & Hc)]; [done|].
    simpl. by rewrite decide_False.
  - destruct Hpath as [->|(c & rest & -> & Hc)]; [done|].
    simpl. by rewrite decide_False.
Qed.

Lemma normpath_nonempty (path : pystr) :
  path ≠ [] →
  posixpath.normpath path
  = match replicate (posixpath.initial_slashes path) slash
          ++ posixpath.join
               (reverse (foldl (posixpath.step (posixpath.initial_slashes path))
                           [] (posixpath.split path))) with
    | [] => [dot]
    | out => out
    end.
Proof.
  intros Hpath. destruct path as [|c path]; [done|].
  unfold posixpath.normpath. cbv zeta. by destruct (replicate _ _ ++ _).
Qed.

(** [normpath] leaves its own results unchanged. *)
Lemma normpath_idempotent (path : pystr) :
  posixpath.normpath (posixpath.normpath path) = posixpath.normpath path.
Proof.
  destruct (decide (path = [])) as [->|Hpath]; [done|].
  rewrite (normpath_nonempty path Hpath).
  set (k := posixpath.initial_slashes path).
  set (stack := foldl (posixpath.step k) [] (posixpath.split path)).
  assert (Hk : k ≤ 2) by apply initial_slashes_le.
  assert (Hstack : posixpath.normal k stack).
  { apply foldl_step_normal; [apply split_no_slash|done]. }
  pose proof (normal_kept _ _ Hstack) as Hkept.
  assert (Hrev : Forall posixpath.kept (reverse stack)).
  { apply Forall_forall. intros comp Hcomp. rewrite elem_of_reverse in Hcomp.
    rewrite Forall_forall in Hkept. by apply Hkept. }
  destruct (replicate k slash ++ posixpath.join (reverse stack))
    as [|c out] eqn:Hout; [done|].
  rewrite normpath_nonempty by done. rewrite <- Hout.
  assert (Hinit : posixpath.initial_slashes
                    (replicate k slash ++ posixpath.join (reverse stack)) = k).
  { apply initial_slashes_replicate; [done|].
    destruct (join_head _ Hrev) as [[_ ->]|?]; [by left|by right]. }
  rewrite Hinit, split_replicate_slash, foldl_step_empties.
  assert (Hreplay : foldl (posixpath.step k) []
                      (posixpath.split (posixpath.join (reverse stack))) = stack).
  { destruct (decide (reverse stack = [])) as [Hnil|Hnil].
    - rewrite Hnil. simpl. apply (f_equal reverse) in Hnil.
      by rewrite reverse_involutive in Hnil.
    - rewrite split_join; [by apply foldl_step_replay| |done].
      eapply Forall_impl; [exact Hrev|]. by intros comp (_ & _ & ?). }
  by rewrite Hreplay, Hout.
Qed.

Lemma foldl_step_elem_of (k : nat) (comps : list pystr) :
  ∀ (stack : list pystr) (comp : pystr),
    comp ∈ foldl (posixpath.step k) stack comps → comp ∈ stack ∨ comp ∈ comps.
Proof.
  induction comps as [|c comps IH]; intros stack comp Hcomp; [by left|].
  simpl in Hcomp. apply IH in Hcomp as [Hcomp|Hcomp]; [|right; by right].
  unfold posixpath.step in Hcomp.
  destruct (_ || _); [by left|].
  destruct (_ || _).
  - apply elem_of_cons in Hcomp as [->|Hcomp]; [right; left|by left].
  - left. destruct stack; [done|]. by right.
Qed.

Lemma split_chars (path : pystr) (comp : pystr) (c : codepoint) :
  comp ∈ posixpath.split path → c ∈ comp → c ∈ path.
Proof.
  revert comp. induction path as [|c0 path IH]; intros comp Hcomp Hc.
  - apply list_elem_of_singleton in Hcomp as ->. done.
  - destruct (decide (c0 = slash)) as [->|Hc0].
    + rewrite split_cons_slash in Hcomp.
      apply elem_of_cons in Hcomp as [->|Hcomp]; [by apply elem_of_nil in Hc|].
      right. by eapply IH.
    + destruct (split_cons_other c0 path Hc0) as (comp' & comps & Heq & Hsplit).
      rewrite Hsplit in Hcomp. rewrite Heq in IH.
      apply elem_of_cons in Hcomp as [->|Hcomp].
      * apply elem_of_cons in Hc as [->|Hc]; [left|].
        right. apply (IH comp'); [left|done].
      * right. apply (IH comp); [by right|done].
Qed.

Lemma join_chars (comps : list pystr) (c : codepoint) :
  c ∈ posixpath.join comps → c = slash ∨ ∃ comp, comp ∈ comps ∧ c ∈ comp.
Proof.
  induction comps as [|comp comps IH]; intros Hc; [by apply elem_of_nil in Hc|].
  destruct comps as [|comp' comps].
  - right. exists comp. split; [left|done].
  - change (posixpath.join (comp :: comp' :: comps))
      with (comp ++ slash :: posixpath.join (comp' :: comps)) in Hc.
    apply elem_of_app in Hc as [Hc|Hc].
    + right. exists comp. split; [left|done].
    + apply elem_of_cons in Hc as [->|Hc]; [by left|].
      destruct (IH Hc) as [->|(comp'' & Hin & Hc')]; [by left|].
      right. exists comp''. split; [by right|done].
Qed.

(** [normpath] invents no character but the dot and the slash. *)
Lemma normpath_chars (path : pystr) (c : codepoint) :
  c ∈ posixpath.normpath path → c ∈ path ∨ c = dot ∨ c = slash.
Proof.
  destruct (decide (path = [])) as [->|Hpath].
  - intros Hc. apply list_elem_of_singleton in Hc. by right; left.
  - rewrite (normpath_nonempty path Hpath).
    destruct (replicate _ slash ++ _) as [|c0 out] eqn:Hout.
    + intros Hc. apply list_elem_of_singleton in Hc. by right; left.
    + rewrite <- Hout. intros Hc. apply elem_of_app in Hc as [Hc|Hc].
      * apply elem_of_replicate in Hc as [-> _]. by right; right.
      * apply join_chars in Hc as [->|(comp & Hcomp & Hc)]; [by right; right|].
        rewrite elem_of_reverse in Hcomp.
        apply foldl_step_elem_of in Hcomp as [Hcomp|Hcomp];
          [by apply elem_of_nil in Hcomp|].
        left. by eapply split_chars.
Qed.

(** ** [clean_path] *)

Lemma filter_all {A} (f : A → bool) (l : list A) :
  (∀ x, x ∈ l → f x = true) → List.filter f l = l.
Proof.
  induction l as [|x l IH]; intros Hl; [done|]. simpl.
  rewrite (Hl x) by left. f_equal. apply IH. intros y Hy. apply Hl. by right.
Qed.

(** C10 as stated fails, already on POSIX.  In "a", U+200B, U+0301 the zero
    width space keeps the letter and the accent apart, so NFKC leaves the
    string as it is; the filter then removes the space, and the result, "a"
    U+0301, is no longer normalized: cleaning it again composes U+00E1. *)
Lemma clean_path_not_idempotent :
  clean_path ucd.normalize_NFKC ucd.category posixpath.normpath
    [97; 8203; 769]%N
  = [97; 769]%N
  ∧ clean_path ucd.normalize_NFKC ucd.category posixpath.normpath
      (clean_path ucd.normalize_NFKC ucd.category posixpath.normpath
         [97; 8203; 769]%N)
    = [225]%N.
Proof. split; reflexivity. Qed.

Section clean_path_properties.

Variable normalize_NFKC : pystr → pystr.
Variable category : codepoint → string.

(** C10, amended.  On POSIX, where [os.path.normpath] is
    [posixpath.normpath], cleaning a cleaned path changes nothing whenever
    the cleaned path is still in NFKC form, that is, whenever removing the
    control characters did not leave a string that normalization would
    change.  (The dot and the slash are not control characters.)  The
    statement is for this [normpath] only: nothing is claimed for
    [ntpath.normpath]. *)
Theorem clean_path_idempotent_on_normalized (path : pystr) :
  let clean := clean_path normalize_NFKC category posixpath.normpath in
  not_control category dot = true →
  not_control category slash = true →
  normalize_NFKC (clean path) = clean path →
  clean (clean path) = clean path.
Proof.
  intros clean Hdot Hslash Hnfkc.
  unfold clean at 1, clean_path at 1. rewrite Hnfkc.
  rewrite filter_all; [apply normpath_idempotent|].
  intros c Hc. apply normpath_chars in Hc as [Hc|[->| ->]]; [|done..].
  apply list_elem_of_In, filter_In in Hc. by destruct Hc.
Qed.

End clean_path_properties.

Lemma clean_path_idempotent_on_normalized_witness :
  clean_path ucd.normalize_NFKC ucd.category posixpath.normpath
    (clean_path ucd.normalize_NFKC ucd.category posixpath.normpath
       [97; 47; 46; 47; 47; 225]%N)
  = clean_path ucd.normalize_NFKC ucd.category posixpath.normpath
      [97; 47; 46; 47; 47; 225]%N.
Proof.
  apply (clean_path_idempotent_on_normalized ucd.normalize_NFKC ucd.category
           [97; 47; 46; 47; 47; 225]%N); reflexivity.
Defined.

(** * Further properties of the code *)

(** ** The cases the two loops report *)

Lemma py_ne_of_neq (x y : Cell) : x ≠ y → py_ne x y = true.
Proof.
  destruct x as [a|], y as [b|]; try done. intros Hne. simpl.
  rewrite negb_true_iff, bool_decide_eq_false. congruence.
Qed.

Lemma len_set_gt_1 (xs : list Cell) :
  1 < len_set xs ↔ ∃ x y, x ∈ xs ∧ y ∈ xs ∧ x ≠ y.
Proof.
  unfold len_set. pose proof (NoDup_remove_dups xs) as Hnd. split.
  - intros Hlen. destruct (remove_dups xs) as [|a [|b rest]] eqn:Heq;
      simpl in Hlen; [lia..|].
    exists a, b. split_and!.
    + apply elem_of_remove_dups. rewrite Heq. left.
    + apply elem_of_remove_dups. rewrite Heq. right. left.
    + intros ->. apply NoDup_cons in Hnd as [Hnd _]. apply Hnd. left.
  - intros (x & y & Hx & Hy & Hne).
    apply elem_of_remove_dups in Hx, Hy.
    destruct (remove_dups xs) as [|a [|b rest]]; simpl.
    + by apply elem_of_nil in Hx.
    + apply list_elem_of_singleton in Hx, Hy. congruence.
    + lia.
Qed.

Lemma len_set_any_disagrees (ai_row : list Cell) (human_code : Cell) :
  1 < len_set ai_row → any_disagrees ai_row human_code = true.
Proof.
  intros H. apply len_set_gt_1 in H as (x & y & Hx & Hy & Hne).
  apply any_disagrees_spec. destruct (decide (x = human_code)) as [->|Hxh].
  - exists y. split; [done|]. apply py_ne_of_neq. congruence.
  - exists x. split; [done|]. by apply py_ne_of_neq.
Qed.

Lemma internal_loop_iff (ai_codes : list (list Cell)) :
  ∀ (i : nat) (comments : list Cell) (c : InternalCase),
    length comments = length ai_codes →
    c ∈ internal_loop i ai_codes comments ↔
    ∃ j, c.1.1 = i + j + 1 ∧ ai_codes !! j = Some c.2
         ∧ comments !! j = Some c.1.2 ∧ 1 < len_set c.2.
Proof.
  induction ai_codes as [|ai_row ai_codes IH]; intros i [|cm cms] c Hlen;
    simplify_eq/=.
  - split.
    + intros H. by apply elem_of_nil in H.
    + by intros (j & _ & Hj & _).
  - specialize (IH (S i) cms c Hlen).
    assert (Htail : (∃ j, c.1.1 = i + j + 1
                       ∧ (ai_row :: ai_codes) !! j = Some c.2
                       ∧ (cm :: cms) !! j = Some c.1.2 ∧ 1 < len_set c.2)
                    ↔ (c = (i + 1, cm, ai_row) ∧ 1 < len_set ai_row)
                      ∨ c ∈ internal_loop (S i) ai_codes cms).
    { rewrite IH. split.
      - intros ([|j] & Hidx & Hrow & Hcm & Hset); simplify_eq/=.
        + left. destruct c as [[idx cm'] row]. simplify_eq/=.
          split; [f_equal; f_equal; lia|done].
        + right. exists j. split; [lia|done].
      - intros [[-> Hset]|(j & Hidx & Hrow & Hcm & Hset)].
        + exists 0. simpl. split; [lia|done].
        + exists (S j). split; [lia|done]. }
    rewrite Htail. case_bool_decide as Hset.
    + rewrite elem_of_cons. intuition.
    + intuition congruence.
Qed.

Lemma internal_le_disagreement (ai_codes : list (list Cell)) :
  ∀ (i j : nat) (human_codes comments comments' : list Cell),
    length human_codes = length ai_codes →
    length comments = length ai_codes →
    length comments' = length ai_codes →
    length (internal_loop i ai_codes comments)
    ≤ (disagreement_loop j ai_codes human_codes comments').1.
Proof.
  induction ai_codes as [|ai_row ai_codes IH];
    intros i j [|h hs] [|c cs] [|c' cs'] Hh Hc Hc'; simplify_eq/=; [done|].
  specialize (IH (S i) (S j) hs cs cs' Hh Hc Hc').
  destruct (disagreement_loop (S j) ai_codes hs cs') as [n ds]. simpl in IH.
  case_bool_decide as Hset.
  - rewrite (len_set_any_disagrees _ h Hset). simpl. lia.
  - destruct (any_disagrees ai_row h); simpl; lia.
Qed.

Lemma disagreement_loop_cases (ai_codes : list (list Cell)) :
  ∀ (i : nat) (human_codes comments : list Cell) (c : Case),
    c ∈ (disagreement_loop i ai_codes human_codes comments).2 →
    ∃ j, c.1.1.1 = i + j + 1 ∧ ai_codes !! j = Some c.1.2
         ∧ human_codes !! j = Some c.2 ∧ comments !! j = Some c.1.1.2.
Proof.
  induction ai_codes as [|ai_row ai_codes IH]; intros i [|h hs] [|cm cms] c Hc;
    simpl in Hc; try by apply elem_of_nil in Hc.
  specialize (IH (S i) hs cms c).
  destruct (disagreement_loop (S i) ai_codes hs cms) as [n ds]. simpl in IH.
  assert (Htail : c ∈ ds →
            ∃ j, c.1.1.1 = i + j + 1 ∧ (ai_row :: ai_codes) !! j = Some c.1.2
                 ∧ (h :: hs) !! j = Some c.2 ∧ (cm :: cms) !! j = Some c.1.1.2).
  { intros H. destruct (IH H) as (j & Hj & ?). exists (S j). split; [lia|done]. }
  destruct (any_disagrees ai_row h); simpl in Hc; [|by apply Htail].
  apply elem_of_cons in Hc as [->|Hc]; [|by apply Htail].
  exists 0. simpl. split; [lia|done].
Qed.

Lemma disagreement_loop_sorted (ai_codes : list (list Cell)) :
  ∀ (i : nat) (human_codes comments : list Cell),
    StronglySorted lt
      (case_row <$> (disagreement_loop i ai_codes human_codes comments).2).
Proof.
  induction ai_codes as [|ai_row ai_codes IH]; intros i [|h hs] [|cm cms];
    simpl; try constructor.
  pose proof (IH (S i) hs cms) as Hsorted.
  pose proof (disagreement_loop_cases ai_codes (S i) hs cms) as Hcases.
  destruct (disagreement_loop (S i) ai_codes hs cms) as [n ds].
  simpl in Hsorted, Hcases.
  destruct (any_disagrees ai_row h); simpl; [|done].
  constructor; [done|]. apply Forall_forall. intros k Hk.
  apply list_elem_of_fmap in Hk as (c & -> & Hc).
  destruct (Hcases c Hc) as (j & Hj & _). unfold case_row. simpl. lia.
Qed.

(** X1.  [calculate_inter_rater_reliability], lines 65-69: on a frame that has
    the rater and reference columns, at least one row, and no missing code in
    these columns (so that the Kappa computations of lines 55-62 do not
    raise), the function returns, and the 1-based number of a row is among
    the internal disagreement cases exactly when two rater columns hold
    different codes in that row. *)
Theorem internal_disagreement_membership (df : DataFrame)
    (ai_columns : list Label) (human_column : Label) :
  (∀ col, col ∈ ai_columns ++ [human_column] → col ∈ columns df) →
  body df ≠ [] →
  no_missing df (ai_columns ++ [human_column]) →
  ∃ rel,
    calculate_inter_rater_reliability df ai_columns human_column = inr rel
    ∧ ∀ i r, body df !! i = Some r →
        i + 1 ∈ (λ c : InternalCase, c.1.1) <$> ai_internal_disagreements rel ↔
        ∃ col1 col2, col1 ∈ ai_columns ∧ col2 ∈ ai_columns
                     ∧ row_get (columns df) r.2 col1
                       ≠ row_get (columns df) r.2 col2.
Proof.
  intros Hcols Hbody Hmiss.
  destruct (calculate_inter_rater_reliability_inr _ _ _ Hcols Hbody Hmiss)
    as (ai_codes & hs & rel & Hai & _ & Hrel & Hint & _).
  exists rel. split; [done|]. intros i r Hr. rewrite Hint.
  pose proof (length_frame_values _ _ _ Hai) as Hlen.
  apply frame_values_inr in Hai as (ps & Hps & ->).
  assert (Hcm : length (comment_values df)
                = length ((λ r, cell_at r.2 <$> ps) <$> body df)).
  { by rewrite length_comment_values, Hlen. }
  split.
  - intros Hin. apply list_elem_of_fmap in Hin as (c & Hidx & Hc).
    apply internal_loop_iff in Hc as (j & Hj & Hrow & _ & Hset); [|done].
    assert (j = i) as -> by lia.
    rewrite list_lookup_fmap, Hr in Hrow. simpl in Hrow. injection Hrow as Hrow.
    rewrite <- Hrow in Hset.
    apply len_set_gt_1 in Hset as (x & y & Hx & Hy & Hne).
    apply list_elem_of_fmap in Hx as (p1 & -> & Hp1).
    apply list_elem_of_fmap in Hy as (p2 & -> & Hp2).
    destruct (Forall2_locate_r _ _ _ _ Hps Hp1) as (col1 & Hcol1 & Hloc1).
    destruct (Forall2_locate_r _ _ _ _ Hps Hp2) as (col2 & Hcol2 & Hloc2).
    exists col1, col2. split_and!; [done..|].
    rewrite (row_get_locate _ _ _ _ Hloc1), (row_get_locate _ _ _ _ Hloc2).
    congruence.
  - intros (col1 & col2 & Hcol1 & Hcol2 & Hne).
    destruct (Forall2_locate_l _ _ _ _ Hps Hcol1) as (p1 & Hp1 & Hloc1).
    destruct (Forall2_locate_l _ _ _ _ Hps Hcol2) as (p2 & Hp2 & Hloc2).
    rewrite (row_get_locate _ _ _ _ Hloc1), (row_get_locate _ _ _ _ Hloc2) in Hne.
    destruct (comment_values df !! i) as [cm|] eqn:Hcmi; cycle 1.
    { apply lookup_ge_None in Hcmi. apply lookup_lt_Some in Hr.
      rewrite length_comment_values in Hcmi. unfold len in Hcmi. lia. }
    apply list_elem_of_fmap. exists (i + 1, cm, cell_at r.2 <$> ps).
    split; [done|]. apply internal_loop_iff; [done|].
    exists i. simpl. rewrite list_lookup_fmap, Hr. split_and!; [lia|done..|].
    apply len_set_gt_1. exists (cell_at r.2 p1), (cell_at r.2 p2).
    split_and!; [apply list_elem_of_fmap; eauto..|congruence].
Qed.

Lemma internal_disagreement_membership_witness :
  ∃ rel,
    calculate_inter_rater_reliability (read_csv scenario_1)
      [Int 0; Int 1; Int 2] (Int 3) = inr rel
    ∧ ∀ i r, body (read_csv scenario_1) !! i = Some r →
        i + 1 ∈ (λ c : InternalCase, c.1.1) <$> ai_internal_disagreements rel ↔
        ∃ col1 col2, col1 ∈ [Int 0; Int 1; Int 2] ∧ col2 ∈ [Int 0; Int 1; Int 2]
                     ∧ row_get (columns (read_csv scenario_1)) r.2 col1
                       ≠ row_get (columns (read_csv scenario_1)) r.2 col2.
Proof.
  apply internal_disagreement_membership.
  - apply columns_exist_Forall. apply (bool_decide_unpack _). vm_compute. exact I.
  - discriminate.
  - apply no_missing_Forall. apply (bool_decide_unpack _). vm_compute. exact I.
Defined.

(** X2.  Lines 155-156 with the two loops: on a frame that has the rater and
    reference columns, at least one row, and no missing code in these
    columns (so that the Kappa computations do not raise), a row in which
    the raters disagree among themselves is also a row in which some rater
    disagrees with the reference.  So the count of perfect agreement is at
    most the count of internal agreement, and both lie between 0 and the
    number of rows. *)
Theorem agreement_counts_ordered (df : DataFrame)
    (ai_columns : list Label) (human_column : Label) :
  (∀ col, col ∈ ai_columns ++ [human_column] → col ∈ columns df) →
  body df ≠ [] →
  no_missing df (ai_columns ++ [human_column]) →
  ∃ rel,
    calculate_inter_rater_reliability df ai_columns human_column = inr rel
    ∧ (0 ≤ ai_human_agreement_count rel)%Z
    ∧ (ai_human_agreement_count rel ≤ ai_internal_unanimous df rel)%Z
    ∧ (ai_internal_unanimous df rel ≤ Z.of_nat (len df))%Z.
Proof.
  intros Hcols Hne Hmiss.
  destruct (calculate_inter_rater_reliability_inr _ _ _ Hcols Hne Hmiss)
    as (ai_codes & hs & rel & Hai & Hhs & Hrel & Hint & _ & _ & _ & Hinfo).
  destruct (calculate_ai_human_disagreement_rate_inr _ _ _ Hcols)
    as (ai_codes' & hs' & Hai' & Hhs' & Hinfo').
  assert (ai_codes' = ai_codes) as -> by congruence.
  assert (hs' = hs) as -> by congruence.
  rewrite Hinfo' in Hinfo. simpl in Hinfo. injection Hinfo as Hinfo.
  exists rel. split; [done|].
  unfold ai_human_agreement_count, ai_internal_unanimous.
  rewrite <- Hinfo, Hint.
  pose proof (length_frame_values _ _ _ Hai) as Hlen.
  pose proof (length_column_values _ _ _ Hhs) as Hlenh.
  pose proof (length_comment_values df) as Hlenc.
  pose proof (disagreement_loop_count ai_codes 0 hs (comment_values df))
    as [_ Hle].
  pose proof (internal_le_disagreement ai_codes 0 0 hs (comment_values df)
                (comment_values df)) as Hint_le.
  rewrite Hlen in Hle. lia.
Qed.

Lemma agreement_counts_ordered_witness :
  ∃ rel,
    calculate_inter_rater_reliability (read_csv scenario_1)
      [Int 0; Int 1; Int 2] (Int 3) = inr rel
    ∧ (0 ≤ ai_human_agreement_count rel)%Z
    ∧ (ai_human_agreement_count rel
       ≤ ai_internal_unanimous (read_csv scenario_1) rel)%Z
    ∧ (ai_internal_unanimous (read_csv scenario_1) rel
       ≤ Z.of_nat (len (read_csv scenario_1)))%Z.
Proof.
  apply agreement_counts_ordered.
  - apply columns_exist_Forall. apply (bool_decide_unpack _). vm_compute. exact I.
  - discriminate.
  - apply no_missing_Forall. apply (bool_decide_unpack _). vm_compute. exact I.
Defined.

(** X3.  [calculate_ai_human_disagreement_rate], lines 35-42: the cases are
    reported in increasing row order, and each case carries the data of its
    own row: its 1-based number lies between 1 and the total, and its rater
    codes, reference code and comment are those of the row at that
    position. *)
Theorem disagreement_cases_carry_their_rows (df : DataFrame)
    (ai_columns : list Label) (human_column : Label) :
  (∀ col, col ∈ ai_columns ++ [human_column] → col ∈ columns df) →
  ∃ rate count total cases,
    calculate_ai_human_disagreement_rate df ai_columns human_column
      = inr (rate, count, total, cases)
    ∧ StronglySorted lt (case_row <$> cases)
    ∧ ∀ idx comment ai_row human_code,
        (idx, comment, ai_row, human_code) ∈ cases →
        ∃ r, 1 ≤ idx ≤ total
             ∧ body df !! (idx - 1) = Some r
             ∧ row_values (columns df) r.2 ai_columns = inr ai_row
             ∧ row_get (columns df) r.2 human_column = inr human_code
             ∧ comment_values df !! (idx - 1) = Some comment.
Proof.
  intros Hcols.
  destruct (calculate_ai_human_disagreement_rate_inr _ _ _ Hcols)
    as (ai_codes & hs & Hai & Hhs & ->).
  eexists _, _, _, _. split; [reflexivity|]. simpl.
  split; [apply disagreement_loop_sorted|].
  intros idx cm ai_row human_code Hc.
  apply disagreement_loop_cases in Hc as (j & Hj & Hrow & Hh & Hcm).
  simpl in Hj, Hrow, Hh, Hcm. assert (idx - 1 = j) as -> by lia.
  destruct (body df !! j) as [r|] eqn:Hr; cycle 1.
  { apply lookup_ge_None in Hr. apply lookup_lt_Some in Hrow.
    rewrite (length_frame_values _ _ _ Hai) in Hrow. unfold len in Hrow. lia. }
  exists r. pose proof (lookup_lt_Some _ _ _ Hr) as Hlt.
  split_and!; [lia|unfold len; lia|done|by eapply row_values_of_frame| |done].
  apply column_values_inr in Hhs as (p & Hp & ->).
  rewrite list_lookup_fmap, Hr in Hh. injection Hh as <-.
  by apply row_get_locate.
Qed.

Lemma disagreement_cases_carry_their_rows_witness :
  ∃ rate count total cases,
    calculate_ai_human_disagreement_rate (read_csv scenario_1)
      [Int 0; Int 1; Int 2] (Int 3) = inr (rate, count, total, cases)
    ∧ StronglySorted lt (case_row <$> cases)
    ∧ ∀ idx comment ai_row human_code,
        (idx, comment, ai_row, human_code) ∈ cases →
        ∃ r, 1 ≤ idx ≤ total
             ∧ body (read_csv scenario_1) !! (idx - 1) = Some r
             ∧ row_values (columns (read_csv scenario_1)) r.2
                 [Int 0; Int 1; Int 2] = inr ai_row
             ∧ row_get (columns (read_csv scenario_1)) r.2 (Int 3)
               = inr human_code
             ∧ comment_values (read_csv scenario_1) !! (idx - 1) = Some comment.
Proof.
  apply disagreement_cases_carry_their_rows.
  apply columns_exist_Forall. apply (bool_decide_unpack _). vm_compute. exact I.
Defined.

(** ** The Kappa lists of [calculate_inter_rater_reliability] *)

Lemma reliability_fields (df : DataFrame) (ai_columns : list Label)
    (human_column : Label) (rel : Reliability) :
  calculate_inter_rater_reliability df ai_columns human_column = inr rel →
  ∃ ai_codes human_codes,
    inter_kappas rel
    = (λ i, kappa human_codes (array_col ai_codes i))
        <$> seq 0 (length ai_columns)
    ∧ inter_mean_kappa rel = np_mean (inter_kappas rel)
    ∧ intra_kappas rel
      = (λ '(i, j), kappa (array_col ai_codes i) (array_col ai_codes j))
          <$> rater_pairs (length ai_columns)
    ∧ intra_mean_kappa rel
      = match intra_kappas rel with
        | [] => Some 0%Q
        | _ => np_mean (intra_kappas rel)
        end
    ∧ coder_mean_kappa rel
      = foldl (λ d '(i, col),
            dict_set d col
              (np_mean
                 (((λ j, kappa (array_col ai_codes i) (array_col ai_codes j))
                     <$> filter (λ j, j ≠ i) (seq 0 (length ai_columns)))
                  ++ [kappa (array_col ai_codes i) human_codes])))
          [] (imap (λ i col, (i, col)) ai_columns).
Proof.
  unfold calculate_inter_rater_reliability. intros H.
  apply bind_inr in H as (ai_codes & _ & H).
  apply bind_inr in H as (hs & _ & H). cbv zeta in H.
  apply bind_inr in H as (inter & Hinter & H).
  apply bind_inr in H as (intra & Hintra & H).
  apply bind_inr in H as (coders & Hcoders & H).
  apply bind_inr in H as (info & _ & H). unfold_result. injection H as <-.
  exists ai_codes, hs. simpl.
  apply (mapM_inr_fmap _ (λ i, kappa hs (array_col ai_codes i))) in Hinter;
    [|by intros i y [_ ->]%cohen_kappa_score_inr].
  apply (mapM_inr_fmap _
           (λ '(i, j), kappa (array_col ai_codes i) (array_col ai_codes j)))
    in Hintra; [|by intros [i j] y [_ ->]%cohen_kappa_score_inr].
  apply coder_loop_foldl in Hcoders. by split_and!.
Qed.

Lemma length_pairs {A} (f : nat → nat → A) (n : nat) :
  ∀ m k, k + m = n →
    2 * length (i ← seq k m; f i <$> seq (i + 1) (n - (i + 1)))
    = m * (m - 1).
Proof.
  induction m as [|m IH]; intros k Hk; [done|].
  change (seq k (S m)) with (k :: seq (S k) m).
  rewrite bind_cons, length_app, length_fmap, length_seq.
  specialize (IH (S k) ltac:(lia)). nia.
Qed.

(** X4.  [calculate_inter_rater_reliability], lines 54-63: there is one
    inter-rater Kappa per rater and one intra-rater Kappa per unordered pair
    of raters; with fewer than two raters the intra-rater mean is 0.0, not
    NaN, and with no rater at all the inter-rater mean is NaN. *)
Theorem kappa_list_lengths (df : DataFrame) (ai_columns : list Label)
    (human_column : Label) (rel : Reliability) :
  calculate_inter_rater_reliability df ai_columns human_column = inr rel →
  length (inter_kappas rel) = length ai_columns
  ∧ 2 * length (intra_kappas rel)
    = length ai_columns * (length ai_columns - 1)
  ∧ (length ai_columns ≤ 1 → intra_mean_kappa rel = Some 0%Q)
  ∧ (length ai_columns = 0 → inter_mean_kappa rel = None).
Proof.
  intros Hrel.
  destruct (reliability_fields _ _ _ _ Hrel)
    as (ai_codes & hs & Hinter & Hmean & Hintra & Hintra_mean & _).
  assert (Hlen : 2 * length (intra_kappas rel)
                 = length ai_columns * (length ai_columns - 1)).
  { rewrite Hintra, length_fmap. unfold rater_pairs. by apply length_pairs. }
  split_and!.
  - by rewrite Hinter, length_fmap, length_seq.
  - done.
  - intros Hn. rewrite Hintra_mean.
    destruct (intra_kappas rel) as [|k ks]; [done|]. simpl in Hlen. nia.
  - intros Hn. rewrite Hmean, Hinter, Hn. done.
Qed.

Lemma kappa_list_lengths_witness :
  ∃ rel,
    calculate_inter_rater_reliability (read_csv scenario_1)
      [Int 0; Int 1; Int 2] (Int 3) = inr rel
    ∧ length (inter_kappas rel) = 3
    ∧ 2 * length (intra_kappas rel) = 3 * (3 - 1).
Proof.
  destruct (calculate_inter_rater_reliability_inr (read_csv scenario_1)
              [Int 0; Int 1; Int 2] (Int 3)) as (? & ? & rel & _ & _ & Hrel & _).
  { apply columns_exist_Forall. apply (bool_decide_unpack _).
    vm_compute. exact I. }
  { discriminate. }
  { apply no_missing_Forall. apply (bool_decide_unpack _).
    vm_compute. exact I. }
  exists rel. split; [done|].
  destruct (kappa_list_lengths _ _ _ _ Hrel) as (H1 & H2 & _). by split.
Defined.

Lemma dict_set_keys {V} (d : list (Label * V)) (key : Label) (value : V) :
  fst <$> dict_set d key value
  = if decide (key ∈ fst <$> d) then fst <$> d else (fst <$> d) ++ [key].
Proof.
  induction d as [|[k v] d IH]; [done|].
  cbn [dict_set]. destruct (decide (k = key)) as [->|Hk].
  - rewrite !fmap_cons. cbn [fst]. rewrite decide_True; [done|left].
  - rewrite !fmap_cons, IH. cbn [fst].
    destruct (decide (key ∈ fst <$> d)) as [Hin|Hin].
    + rewrite decide_True; [done|by right].
    + rewrite decide_False; [done|].
      intros H. apply elem_of_cons in H as [H|H]; congruence.
Qed.

Lemma foldl_dict_set_keys {V} (g : nat → V) (ps : list (nat * Label)) :
  ∀ d : list (Label * V),
    NoDup (fst <$> d) →
    NoDup (fst <$> foldl (λ d '(i, col), dict_set d col (g i)) d ps)
    ∧ (∀ col, col ∈ fst <$> foldl (λ d '(i, col), dict_set d col (g i)) d ps
              ↔ col ∈ fst <$> d ∨ col ∈ snd <$> ps)
    ∧ (NoDup (snd <$> ps) →
       (∀ col, col ∈ snd <$> ps → col ∉ fst <$> d) →
       fst <$> foldl (λ d '(i, col), dict_set d col (g i)) d ps
       = (fst <$> d) ++ (snd <$> ps)).
Proof.
  induction ps as [|[i col] ps IH]; intros d Hnd; simpl.
  - split; [done|]. split.
    + intros c. split; [by left|]. intros [H|H]; [done|by apply elem_of_nil in H].
    + intros _ _. by rewrite app_nil_r.
  - assert (Hnd' : NoDup (fst <$> dict_set d col (g i))).
    { rewrite dict_set_keys. case_decide; [done|].
      apply NoDup_app. split; [done|]. split.
      - intros x Hx Hx'. apply list_elem_of_singleton in Hx'. congruence.
      - apply NoDup_singleton. }
    destruct (IH _ Hnd') as (IH1 & IH2 & IH3). split; [done|]. split.
    + intros c. rewrite IH2, dict_set_keys, elem_of_cons.
      case_decide as Hin.
      * split; [tauto|]. intros [H|[->|H]]; tauto.
      * rewrite elem_of_app, list_elem_of_singleton. tauto.
    + intros Hps Hdisj. apply NoDup_cons in Hps as [Hcol Hps].
      rewrite IH3; [|done|].
      * rewrite dict_set_keys, decide_False by (apply Hdisj; left).
        by rewrite <- app_assoc.
      * intros c Hc. rewrite dict_set_keys.
        rewrite decide_False by (apply Hdisj; left).
        rewrite elem_of_app, list_elem_of_singleton. intros [H| ->]; [|done].
        by apply (Hdisj c); [right|].
Qed.

Lemma snd_imap_pairs (l : list Label) :
  ∀ h : nat → nat, snd <$> imap (λ i col, (h i, col)) l = l.
Proof.
  induction l as [|x l IH]; intros h; [done|]. simpl. f_equal.
  apply (IH (h ∘ S)).
Qed.

(** X5.  [calculate_inter_rater_reliability], lines 72-76: the per-coder mean
    Kappas are keyed by the rater labels.  There is exactly one entry for
    each distinct label, so a rater column given twice has a single entry;
    when the labels are distinct the entries come in the order of the
    raters. *)
Theorem coder_mean_kappa_keys (df : DataFrame) (ai_columns : list Label)
    (human_column : Label) (rel : Reliability) :
  calculate_inter_rater_reliability df ai_columns human_column = inr rel →
  NoDup (fst <$> coder_mean_kappa rel)
  ∧ (∀ col, col ∈ fst <$> coder_mean_kappa rel ↔ col ∈ ai_columns)
  ∧ (NoDup ai_columns → fst <$> coder_mean_kappa rel = ai_columns).
Proof.
  intros Hrel.
  destruct (reliability_fields _ _ _ _ Hrel)
    as (ai_codes & hs & _ & _ & _ & _ & ->).
  match goal with
  | |- context [foldl (λ d '(i, col), dict_set d col (@?g i)) [] ?ps] =>
      destruct (foldl_dict_set_keys g ps []) as (H1 & H2 & H3);
        [apply NoDup_nil_2|]
  end.
  pose proof (snd_imap_pairs ai_columns id) as Hsnd. unfold id in Hsnd.
  rewrite Hsnd in H2, H3.
  split; [done|]. split.
  - intros col. rewrite H2. split; [|by right].
    intros [H|H]; [by apply elem_of_nil in H|done].
  - intros Hnd. rewrite H3; [done..|]. intros col _. apply not_elem_of_nil.
Qed.

Lemma coder_mean_kappa_keys_witness :
  ∃ rel,
    calculate_inter_rater_reliability (read_csv scenario_1)
      [Int 0; Int 1; Int 0] (Int 3) = inr rel
    ∧ NoDup (fst <$> coder_mean_kappa rel)
    ∧ (∀ col, col ∈ fst <$> coder_mean_kappa rel ↔ col ∈ [Int 0; Int 1; Int 0]).
Proof.
  destruct (calculate_inter_rater_reliability_inr (read_csv scenario_1)
              [Int 0; Int 1; Int 0] (Int 3)) as (? & ? & rel & _ & _ & Hrel & _).
  { apply columns_exist_Forall. apply (bool_decide_unpack _).
    vm_compute. exact I. }
  { discriminate. }
  { apply no_missing_Forall. apply (bool_decide_unpack _).
    vm_compute. exact I. }
  exists rel. split; [done|].
  destruct (coder_mean_kappa_keys _ _ _ _ Hrel) as (H1 & H2 & _). by split.
Defined.

(** ** [validate_data] *)

Lemma validate_rows_outcome (cols sel : list Label)
    (valid_categories : list string) (rows : list (nat * list Cell)) :
  (∀ col, col ∈ sel → col ∈ cols) →
  (validate_rows cols sel valid_categories rows = ([], inr true)
   ∧ Forall (λ r, row_valid cols valid_categories sel r.2) rows)
  ∨ (∃ msg, validate_rows cols sel valid_categories rows = ([msg], inr false)
            ∧ Exists (λ r, ¬ row_valid cols valid_categories sel r.2) rows).
Proof.
  intros Hsel. induction rows as [|[i row] rows IH]; simpl.
  - left. by split.
  - destruct (all_valid_is_inr cols row valid_categories sel Hsel) as [b Hb].
    rewrite Hb. destruct b.
    + apply all_valid_true in Hb. destruct IH as [[-> Hall]|(msg & -> & Hex)].
      * left. split; [done|]. by constructor.
      * right. exists msg. split; [done|]. by right.
    + right. destruct (row_values_is_inr cols row sel Hsel) as [values ->].
      eexists. split; [done|]. left. simpl. intros Hvalid.
      apply all_valid_true in Hvalid. congruence.
Qed.

(** X6.  [validate_data], lines 15-21: on a frame that has the selected
    columns the function does not raise.  It returns True, printing nothing,
    exactly when every selected value of every row is a valid category;
    otherwise it prints exactly one message and returns False. *)
Theorem validate_data_outcomes (df : DataFrame) (ai_columns : list Label)
    (human_column : Label) (valid_categories : list string) :
  (∀ col, col ∈ ai_columns ++ [human_column] → col ∈ columns df) →
  (validate_data df ai_columns human_column valid_categories = ([], inr true)
   ∧ Forall (λ r, row_valid (columns df) valid_categories
                    (ai_columns ++ [human_column]) r.2) (body df))
  ∨ (∃ msg,
       validate_data df ai_columns human_column valid_categories
         = ([msg], inr false)
       ∧ Exists (λ r, ¬ row_valid (columns df) valid_categories
                        (ai_columns ++ [human_column]) r.2) (body df)).
Proof. intros Hcols. by apply validate_rows_outcome. Qed.

Lemma validate_data_outcomes_witness :
  (validate_data (read_csv scenario_1) [Int 0; Int 1; Int 2] (Int 3) ["a"]
   = ([], inr true)
   ∧ Forall (λ r, row_valid (columns (read_csv scenario_1)) ["a"]
                    ([Int 0; Int 1; Int 2] ++ [Int 3]) r.2)
       (body (read_csv scenario_1)))
  ∨ (∃ msg,
       validate_data (read_csv scenario_1) [Int 0; Int 1; Int 2] (Int 3) ["a"]
         = ([msg], inr false)
       ∧ Exists (λ r, ¬ row_valid (columns (read_csv scenario_1)) ["a"]
                        ([Int 0; Int 1; Int 2] ++ [Int 3]) r.2)
           (body (read_csv scenario_1))).
Proof.
  apply validate_data_outcomes.
  apply columns_exist_Forall. apply (bool_decide_unpack _). vm_compute. exact I.
Defined.

Lemma locate_absent (cols : list Label) (col : Label) :
  col ∉ cols → locate cols col = inl (KeyError col).
Proof.
  intros Hcol. unfold locate. destruct (col_pos cols col) as [p|] eqn:Hp; [|done].
  apply col_pos_lt in Hp as [_ Hp]. exfalso. apply Hcol.
  apply list_elem_of_lookup. eauto.
Qed.

Lemma row_values_absent (cols : list Label) (row : list Cell)
    (pre post : list Label) (col : Label) :
  (∀ c, c ∈ pre → c ∈ cols) → col ∉ cols →
  row_values cols row (pre ++ col :: post) = inl (KeyError col).
Proof.
  intros Hpre Hcol. unfold row_values.
  induction pre as [|c pre IH]; simpl.
  - unfold row_get. by rewrite (locate_absent _ _ Hcol).
  - destruct (locate_elem_of cols c) as [p Hp]; [apply Hpre; left|].
    rewrite (row_get_locate _ _ _ _ Hp). simpl.
    rewrite IH; [done|]. intros c' Hc'. apply Hpre. by right.
Qed.

Lemma all_valid_absent (cols : list Label) (row : list Cell)
    (valid_categories : list string) (pre post : list Label) (col : Label) :
  (∀ c, c ∈ pre → c ∈ cols) → col ∉ cols →
  all_valid cols row valid_categories (pre ++ col :: post)
    = inl (KeyError col)
  ∨ all_valid cols row valid_categories (pre ++ col :: post) = inr false.
Proof.
  intros Hpre Hcol. induction pre as [|c pre IH]; simpl.
  - left. unfold row_get. by rewrite (locate_absent _ _ Hcol).
  - destruct (locate_elem_of cols c) as [p Hp]; [apply Hpre; left|].
    rewrite (row_get_locate _ _ _ _ Hp). simpl.
    destruct (py_in _ _); [|by right].
    apply IH. intros c' Hc'. apply Hpre. by right.
Qed.

Lemma validate_data_key_error (df : DataFrame)
    (pre post : list Label) (col human_column : Label)
    (valid_categories : list string) (ai_columns : list Label) :
  ai_columns ++ [human_column] = pre ++ col :: post →
  (∀ c, c ∈ pre → c ∈ columns df) → col ∉ columns df →
  body df ≠ [] →
  validate_data df ai_columns human_column valid_categories
  = ([], inl (KeyError col)).
Proof.
  intros Hsel Hpre Hcol Hbody. unfold validate_data. rewrite Hsel.
  destruct (body df) as [|[i row] rows]; [done|]. simpl.
  destruct (all_valid_absent (columns df) row valid_categories pre post col
              Hpre Hcol) as [-> | ->]; [done|].
  by rewrite (row_values_absent _ _ _ _ _ Hpre Hcol).
Qed.

(** X7.  [validate_data], lines 17-19: when a selected column is not a column
    of the frame and the frame has a row, the function raises [KeyError] for
    the first such column, whatever the values of the row are: either the
    membership test reaches the column, or an earlier value is invalid and
    the message being built reads the column. *)
Theorem validate_data_absent_column (df : DataFrame)
    (pre post : list Label) (col human_column : Label)
    (valid_categories : list string) (ai_columns : list Label) :
  ai_columns ++ [human_column] = pre ++ col :: post →
  (∀ c, c ∈ pre → c ∈ columns df) → col ∉ columns df →
  body df ≠ [] →
  validate_data df ai_columns human_column valid_categories
  = ([], inl (KeyError col)).
Proof. apply validate_data_key_error. Qed.

Lemma validate_data_absent_column_witness :
  validate_data (read_csv scenario_1) [Int 0; Int 7; Int 2] (Int 3) ["a"; "b"]
  = ([], inl (KeyError (Int 7))).
Proof.
  apply (validate_data_absent_column _ [Int 0] [Int 2; Int 3]).
  - reflexivity.
  - intros c Hc. apply list_elem_of_singleton in Hc as ->.
    apply (bool_decide_unpack _). vm_compute. exact I.
  - apply (bool_decide_unpack _). vm_compute. exact I.
  - discriminate.
Defined.

(** ** The comment column *)

Lemma col_pos_absent (cols : list Label) (col : Label) :
  col ∉ cols → col_pos cols col = None.
Proof.
  intros Hcol. destruct (col_pos cols col) as [p|] eqn:Hp; [|done].
  apply col_pos_lt in Hp as [_ Hp]. exfalso. apply Hcol.
  apply list_elem_of_lookup. eauto.
Qed.

Lemma col_pos_snoc (cols : list Label) (col : Label) :
  col ∉ cols → col_pos (cols ++ [col]) col = Some (length cols).
Proof.
  intros Hcol. unfold col_pos.
  assert (H : list_find (λ c, c = col) (cols ++ [col])
              = Some (length cols, col)).
  { apply list_find_Some. split_and!; [|done|].
    - by rewrite list_lookup_middle.
    - intros j c Hj Hlt ->. apply Hcol.
      rewrite lookup_app_l in Hj by done. apply list_elem_of_lookup. eauto. }
  by rewrite H.
Qed.

Lemma comment_values_set_column (df : DataFrame) (values : list Cell) :
  Name "comment" ∉ columns df → length values = len df →
  comment_values (set_column df (Name "comment") values) = values.
Proof.
  intros Hcol Hlen. unfold set_column.
  rewrite (col_pos_absent _ _ Hcol). unfold comment_values. simpl.
  rewrite (col_pos_snoc _ _ Hcol). unfold len in Hlen.
  revert values Hlen. induction (body df) as [|r rows IH];
    intros [|v values] Hlen; simplify_eq/=; [done|].
  f_equal; [|by apply IH]. unfold cell_at.
  rewrite lookup_total_app_r by by rewrite length_resize.
  by rewrite length_resize, Nat.sub_diag.
Qed.

Lemma read_csv_columns_int (lines : list (list Cell)) (col : Label) :
  col ∈ columns (read_csv lines) → ∃ n, col = Int n.
Proof.
  simpl. intros H. apply list_elem_of_fmap in H as (n & -> & _). eauto.
Qed.

Lemma with_comment_default (df : DataFrame) (ai_columns : list Label)
    (human_column : Label) :
  last (columns df) = Some human_column →
  with_comment df ai_columns human_column
  = set_column df (Name "comment")
      (replicate (len df) (Str "No comment available")).
Proof.
  intros Hlast. unfold with_comment. rewrite Hlast.
  case_bool_decide; [|done].
  rewrite (bool_decide_true (human_column = human_column)) by done.
  by rewrite andb_false_r.
Qed.

Lemma resolve_columns_default (df : DataFrame) (human_column : Label) :
  last (columns df) = Some human_column →
  resolve_columns df None None = inr (take 5 (columns df), human_column).
Proof.
  intros Hlast. unfold resolve_columns. rewrite Hlast. simpl.
  assert (Hall : forallb (λ col, bool_decide (col ∈ columns df))
                   (take 5 (columns df) ++ [human_column]) = true).
  { apply forallb_forall. intros col Hcol. apply bool_decide_eq_true.
    apply list_elem_of_In, elem_of_app in Hcol as [Hcol|Hcol].
    - by apply (subseteq_take 5).
    - apply list_elem_of_singleton in Hcol as ->.
      by apply last_Some_elem_of. }
  by rewrite Hall.
Qed.

(** X8.  [analyze_coding_agreement], lines 119-132, called with the default
    selectors: on a frame that is not empty the selectors resolve to the
    first five columns and the last column, and, the last column being the
    reference, no column of the file is taken as the comment column: every
    case has the placeholder comment, however many columns the file has. *)
Theorem default_run_has_placeholder_comments (lines : list (list Cell)) :
  empty (read_csv lines) = false →
  ∃ ai_columns human_column,
    resolve_columns (read_csv lines) None None
      = inr (ai_columns, human_column)
    ∧ ai_columns = take 5 (columns (read_csv lines))
    ∧ last (columns (read_csv lines)) = Some human_column
    ∧ comment_values (with_comment (read_csv lines) ai_columns human_column)
      = replicate (length lines) (Str "No comment available").
Proof.
  intros Hne. set (df := read_csv lines).
  unfold empty in Hne. apply orb_false_iff in Hne as [Hcols _].
  apply bool_decide_eq_false in Hcols. fold df in Hcols.
  destruct (last (columns df)) as [human|] eqn:Hlast; cycle 1.
  { apply last_None in Hlast. done. }
  exists (take 5 (columns df)), human.
  pose proof (resolve_columns_default df human Hlast) as Hres.
  split_and!; [done..|].
  rewrite (with_comment_default _ _ _ Hlast).
  rewrite comment_values_set_column.
  - unfold df, len, read_csv. simpl. by rewrite length_imap.
  - intros H. by apply read_csv_columns_int in H as [n [=]].
  - by rewrite length_replicate.
Qed.

Lemma default_run_has_placeholder_comments_witness :
  ∃ ai_columns human_column,
    resolve_columns (read_csv scenario_1) None None
      = inr (ai_columns, human_column)
    ∧ ai_columns = take 5 (columns (read_csv scenario_1))
    ∧ last (columns (read_csv scenario_1)) = Some human_column
    ∧ comment_values (with_comment (read_csv scenario_1) ai_columns human_column)
      = replicate (length scenario_1) (Str "No comment available").
Proof. apply default_run_has_placeholder_comments. reflexivity. Defined.

Lemma last_read_csv (lines : list (list Cell)) (c : Label) :
  last (columns (read_csv lines)) = Some c →
  c = Int (length (columns (read_csv lines)) - 1).
Proof.
  simpl. rewrite fmap_last, length_fmap, length_seq.
  intros H. apply fmap_Some in H as (n & Hn & ->). f_equal.
  rewrite last_lookup, length_seq in Hn. apply lookup_seq in Hn as [-> _]. lia.
Qed.

Lemma with_comment_rename (lines : list (list Cell)) (ai_columns : list Label)
    (human_column c : Label) :
  length ai_columns + 1 < length (columns (read_csv lines)) →
  last (columns (read_csv lines)) = Some c → c ≠ human_column →
  with_comment (read_csv lines) ai_columns human_column
  = rename (read_csv lines) c (Name "comment").
Proof.
  intros Hlen Hlast Hne. unfold with_comment.
  rewrite bool_decide_true by done. rewrite Hlast.
  rewrite (bool_decide_false (c = human_column)) by done.
  pose proof (last_read_csv _ _ Hlast) as ->.
  destruct (length (columns (read_csv lines)) - 1) as [|n] eqn:Hn; [lia|done].
Qed.

Lemma comment_values_rename (lines : list (list Cell)) :
  0 < length (columns (read_csv lines)) →
  comment_values
    (rename (read_csv lines)
       (Int (length (columns (read_csv lines)) - 1)) (Name "comment"))
  = (λ r, cell_at r.2 (length (columns (read_csv lines)) - 1))
      <$> body (read_csv lines).
Proof.
  intros Hpos. unfold comment_values, col_pos.
  set (k := length (columns (read_csv lines))) in *.
  assert (Hk : k = length (default [] (head lines))).
  { unfold k. simpl. by rewrite length_fmap, length_seq. }
  assert (Hfind : list_find (λ c, c = Name "comment")
                    (columns (rename (read_csv lines) (Int (k - 1))
                                (Name "comment")))
                  = Some (k - 1, Name "comment")).
  { apply list_find_Some. simpl. split_and!; [|done|].
    - rewrite !list_lookup_fmap, lookup_seq_lt by lia. simpl.
      by rewrite decide_True.
    - intros j c Hj Hlt ->.
      rewrite !list_lookup_fmap, lookup_seq_lt in Hj by lia. simpl in Hj.
      case_decide as Hc; [|done]. injection Hc as Hc. lia. }
  by rewrite Hfind.
Qed.

(** X9.  [analyze_coding_agreement], lines 127-130: when the reference column
    is given and is not the last column, and the file has more columns than
    raters plus one, the last column of the file is renamed to "comment" and
    supplies the comments of the cases. *)
Theorem comments_come_from_last_column (lines : list (list Cell))
    (ai_columns : list Label) (human_column : Label) :
  length ai_columns + 1 < length (columns (read_csv lines)) →
  last (columns (read_csv lines)) ≠ Some human_column →
  comment_values (with_comment (read_csv lines) ai_columns human_column)
  = (λ r, cell_at r.2 (length (columns (read_csv lines)) - 1))
      <$> body (read_csv lines).
Proof.
  intros Hlen Hlast.
  destruct (last (columns (read_csv lines))) as [c|] eqn:Hc; cycle 1.
  { apply last_None in Hc. rewrite Hc in Hlen. simpl in Hlen. lia. }
  rewrite (with_comment_rename _ _ _ c) by (done || congruence).
  pose proof (last_read_csv _ _ Hc) as ->.
  apply comment_values_rename. lia.
Qed.

Lemma comments_come_from_last_column_witness :
  comment_values (with_comment (read_csv scenario_1) [Int 1; Int 2] (Int 0))
  = (λ r, cell_at r.2 (length (columns (read_csv scenario_1)) - 1))
      <$> body (read_csv scenario_1).
Proof.
  apply comments_come_from_last_column.
  - simpl. lia.
  - discriminate.
Defined.

Lemma resolve_columns_given (df : DataFrame) (ai_columns : list Label)
    (human_column : Label) :
  (∀ col, col ∈ ai_columns ++ [human_column] → col ∈ columns df) →
  resolve_columns df (Some ai_columns) (Some human_column)
  = inr (ai_columns, human_column).
Proof.
  intros Hcols. unfold resolve_columns. simpl.
  assert (Hall : forallb (λ col, bool_decide (col ∈ columns df))
                   (ai_columns ++ [human_column]) = true).
  { apply forallb_forall. intros col Hcol. apply bool_decide_eq_true.
    apply Hcols. by apply list_elem_of_In. }
  by rewrite Hall.
Qed.

(** X10.  [analyze_coding_agreement], lines 124-136: under the conditions of
    X9, if the last column of the file is one of the rater columns, the
    renaming takes that rater column away: the run passes the column check of
    line 124 and then raises [KeyError] for the column in [validate_data],
    having printed nothing since the file was loaded and written no file. *)
Theorem renamed_rater_column_raises (lines : list (list Cell))
    (ai_columns : list Label) (human_column c : Label)
    (valid_categories : list string) :
  lines ≠ [] →
  (∀ col, col ∈ ai_columns ++ [human_column] →
          col ∈ columns (read_csv lines)) →
  length ai_columns + 1 < length (columns (read_csv lines)) →
  last (columns (read_csv lines)) = Some c →
  c ≠ human_column → c ∈ ai_columns →
  analyze_coding_agreement lines (Some ai_columns) (Some human_column)
    valid_categories
  = {| printed := []; written := []; outcome := inl (KeyError c) |}.
Proof.
  intros Hlines Hcols Hlen Hlast Hne Hc.
  apply analyze_raises_with_prepare. unfold prepare.
  assert (Hempty : empty (read_csv lines) = false).
  { unfold empty. apply orb_false_iff. split; apply bool_decide_eq_false.
    - intros H. rewrite H in Hlen. simpl in Hlen. lia.
    - simpl. by destruct lines. }
  rewrite Hempty.
  pose proof (resolve_columns_given _ _ _ Hcols) as Hres.
  rewrite Hres, (with_comment_rename _ _ _ c) by done.
  assert (Hin : c ∈ ai_columns ++ [human_column]).
  { apply elem_of_app. by left. }
  destruct (list_elem_of_split_l _ _ Hin) as (pre & post & Hsplit & Hpre).
  destruct (read_csv_columns_int lines c (Hcols c Hin)) as [n ->].
  unfold validate_and_drop.
  rewrite (validate_data_key_error _ pre post (Int n)); [done|done| | |].
  - intros x Hx. simpl. apply list_elem_of_fmap. exists x.
    assert (x ≠ Int n) by (intros ->; done).
    rewrite decide_False by done. split; [done|].
    apply Hcols. rewrite Hsplit. apply elem_of_app. by left.
  - simpl. intros H. apply list_elem_of_fmap in H as (y & Hy & _).
    case_decide; congruence.
  - simpl. by destruct lines.
Qed.

Lemma renamed_rater_column_raises_witness :
  analyze_coding_agreement scenario_1 (Some [Int 1; Int 3]) (Some (Int 0))
    ["a"; "b"]
  = {| printed := []; written := []; outcome := inl (KeyError (Int 3)) |}.
Proof.
  apply renamed_rater_column_raises.
  - discriminate.
  - apply columns_exist_Forall. apply (bool_decide_unpack _). vm_compute. exact I.
  - simpl. lia.
  - reflexivity.
  - discriminate.
  - apply (bool_decide_unpack _). vm_compute. exact I.
Defined.

(** ** What a run writes *)

(** X11.  [analyze_coding_agreement], lines 115-279: a run either fails in
    loading or validation, and then no file has been written and the
    exception of the run is that failure; or it gets past validation, and
    then the report has been written completely (never cut short) and is the
    only file written. *)
Theorem report_is_written_after_validation (lines : list (list Cell))
    (ai_columns : option (list Label)) (human_column : option Label)
    (valid_categories : list string) :
  let run := analyze_coding_agreement lines ai_columns human_column
               valid_categories in
  (∃ e, (prepare (read_csv lines) ai_columns human_column
           valid_categories).2 = inl e
        ∧ written run = [] ∧ outcome run = inl e)
  ∨ (∃ prepared report,
       (prepare (read_csv lines) ai_columns human_column
          valid_categories).2 = inr prepared
       ∧ written run = [reliability_results_txt (Some report)]).
Proof.
  simpl.
  destruct (prepare (read_csv lines) ai_columns human_column valid_categories)
    as [out [e|[[df ai] human]]] eqn:Hprep.
  - left. exists e. by rewrite (analyze_raises_with_prepare _ _ _ _ _ _ Hprep).
  - right.
    destruct (analyze_after_prepare _ _ _ _ _ _ _ _ Hprep)
      as (rel & hs & report & _ & _ & _ & ->).
    by eexists _, _.
Qed.

(** ** [clean_path] *)

Lemma normpath_not_empty (path : pystr) : posixpath.normpath path ≠ [].
Proof.
  destruct (decide (path = [])) as [->|Hpath]; [done|].
  rewrite (normpath_nonempty path Hpath). by destruct (replicate _ _ ++ _).
Qed.

Section clean_path_output.

Variable normalize_NFKC : pystr → pystr.
Variable category : codepoint → string.

(** X12.  [clean_path], lines 8-13, with the POSIX [normpath]: the cleaned
    path is never empty (a path that cleans to nothing becomes "."), and, the
    dot and the slash not being control characters, it holds no character of
    a control category. *)
Theorem clean_path_result (path : pystr) :
  clean_path normalize_NFKC category posixpath.normpath path ≠ []
  ∧ (not_control category dot = true →
     not_control category slash = true →
     ∀ c, c ∈ clean_path normalize_NFKC category posixpath.normpath path →
          not_control category c = true).
Proof.
  split; [apply normpath_not_empty|].
  intros Hdot Hslash c Hc. unfold clean_path in Hc.
  apply normpath_chars in Hc as [Hc|[->| ->]]; [|done..].
  apply list_elem_of_In, filter_In in Hc. by destruct Hc.
Qed.

End clean_path_output.

(** ** Output names *)

Lemma rsplit_once_absent (sep : codepoint) (s : pystr) :
  sep ∉ s → rsplit_once sep s = None.
Proof.
  induction s as [|c s IH]; intros Hsep; [done|]. simpl.
  rewrite IH by (intros H; apply Hsep; by right).
  rewrite decide_False; [done|]. intros ->. apply Hsep. left.
Qed.

Lemma rsplit_once_last (sep : codepoint) (before after : pystr) :
  sep ∉ after →
  rsplit_once sep (before ++ sep :: after) = Some (before, after).
Proof.
  intros Hsep. induction before as [|c before IH]; simpl.
  - by rewrite (rsplit_once_absent _ _ Hsep), decide_True.
  - by rewrite IH.
Qed.

(** X13.  [analyze_coding_agreement], lines 205 and 260: the two output names
    are the input path cut at its last dot, wherever that dot is, followed by
    the suffix; a path with no dot is kept whole.  So an input with no
    extension in a directory whose name has a dot gets its outputs named
    after the part of the directory name before that dot. *)
Theorem output_names (file_path : pystr) :
  (dot ∉ file_path →
   output_file file_path = file_path ++ literal "_reliability_results.txt"
   ∧ output_csv file_path = file_path ++ literal "_results.csv")
  ∧ (∀ before after,
       file_path = before ++ dot :: after → dot ∉ after →
       output_file file_path = before ++ literal "_reliability_results.txt"
       ∧ output_csv file_path = before ++ literal "_results.csv").
Proof.
  unfold output_file, output_csv, rsplit_dot_0. split.
  - intros Hdot. by rewrite (rsplit_once_absent _ _ Hdot).
  - intros before after -> Hdot. by rewrite (rsplit_once_last _ _ _ Hdot).
Qed.

Lemma output_names_witness :
  output_file (literal "runs.v2/data")
  = literal "runs" ++ literal "_reliability_results.txt"
  ∧ output_csv (literal "runs.v2/data")
    = literal "runs" ++ literal "_results.csv".
Proof.
  apply (proj2 (output_names (literal "runs.v2/data"))
           (literal "runs") (literal "v2/data")).
  - reflexivity.
  - apply (bool_decide_unpack _). vm_compute. exact I.
Defined.

(** ** The comparison section: completion and missing keys *)

Section comparison_report_completion.

Context {F : Type}.
Variable zero nan : F.

Lemma item_lt (xs : list F) (i : nat) :
  i < length xs → ∃ x, xs !! i = Some x ∧ item xs i = wret x.
Proof.
  intros Hi. destruct (lookup_lt_is_Some_2 xs i Hi) as [x Hx].
  exists x. unfold item. by rewrite Hx.
Qed.

Lemma wbind_fst {A B} (m : Writer (F:=F) A) (f : A → Writer (F:=F) B)
    (x : A) :
  m.2 = inr x → (wbind m f).1 = m.1 ++ (f x).1.
Proof. destruct m as [ls r]. simpl. intros ->. by destruct (f x). Qed.

(** Lines 77-81: the line of the Z-test and the p-value the default of
    [corrected_p_values] takes from the rates. *)
Lemma rates_lines (dr : list F) :
  ∃ l d7,
    (if bool_decide (8 ≤ length dr)
     then wbind (item dr 6) (λ d6, wbind (item dr 7) (λ d7,
            write [Text "AI-Human Disagreement Rate Comparison: Z=";
                   Fixed 4 d6; Text ", "; PValue d7]))
     else write [Text "AI-Human Disagreement Rate Comparison: Cannot compute (insufficient data)"])
    = ([l], inr tt)
    ∧ (if bool_decide (8 ≤ length dr) then item dr 7 else wret nan)
      = ([], inr d7)
    ∧ (if bool_decide (8 ≤ length dr)
       then ∃ d6, dr !! 6 = Some d6 ∧ dr !! 7 = Some d7
                  ∧ l = [Text "AI-Human Disagreement Rate Comparison: Z=";
                         Fixed 4 d6; Text ", "; PValue d7]
       else d7 = nan
            ∧ l = [Text "AI-Human Disagreement Rate Comparison: Cannot compute (insufficient data)"]).
Proof.
  case_bool_decide as Hlen.
  - destruct (item_lt dr 6 ltac:(lia)) as (d6 & Hd6 & ->).
    destruct (item_lt dr 7 ltac:(lia)) as (d7 & Hd7 & ->).
    eexists _, d7. split; [done|]. split; [done|]. by exists d6.
  - by eexists _, _.
Qed.

(** X14.  [save_results_optimized], lines 70-88: with no comparison results
    (absent or empty) nothing is written.  Otherwise the section is written
    completely, in twelve lines, exactly when [comparison_results] has at
    least eight entries and [corrected_p_values], if given, at least three,
    whatever [disagreement_rates] is; in every other case the writing stops
    with an IndexError after at least two and fewer than twelve lines. *)
Theorem comparison_section_completes (all_results : AllResults F) :
  let out := comparison_section zero nan all_results in
  let complete :=
    match comparison_results all_results with
    | None | Some [] => True
    | Some comp =>
        8 ≤ length comp
        ∧ match corrected_p_values all_results with
          | None => True
          | Some corrected_p => 3 ≤ length corrected_p
          end
    end in
  (complete →
   out.2 = inr tt
   ∧ length out.1 = match comparison_results all_results with
                    | None | Some [] => 0
                    | Some _ => 12
                    end)
  ∧ (¬ complete → out.2 = inl IndexError ∧ 2 ≤ length out.1 < 12).
Proof.
  destruct all_results as [comp rates corrected].
  unfold comparison_section.
  cbn [comparison_results disagreement_rates corrected_p_values].
  destruct comp as [comp|]; [|simpl; tauto].
  set (dr := default [zero; zero; zero; zero; zero; zero; nan; nan] rates).
  destruct (rates_lines dr) as (l & d7 & -> & -> & _).
  clearbody dr.
  destruct comp as [|c0 comp]; [simpl; split; [done|tauto]|].
  assert (corrected = None ∨ (∃ cp, corrected = Some cp ∧ length cp < 3)
          ∨ ∃ p0 p1 p2 cp, corrected = Some (p0 :: p1 :: p2 :: cp))
    as [->|[(cp & -> & Hcp)|(p0 & p1 & p2 & cp & ->)]].
  { destruct corrected as [[|p0 [|p1 [|p2 cp]]]|]; simpl; eauto 10 with lia. }
  - do 7 (destruct comp as [|? comp];
          [simpl; split; [intros [? _]; lia|intros _; split; [done|lia]]|]).
    simpl. split; [done|]. intros H. exfalso. apply H. split; [lia|done].
  - do 7 (destruct comp as [|? comp];
          [destruct cp as [|? [|? [|? ?]]]; simpl in *; try lia;
           (split; [intros [? _]; lia|intros _; split; [done|lia]])|]).
    destruct cp as [|? [|? [|? ?]]]; simpl in *; try lia;
      (split; [intros [_ ?]; lia|intros _; split; [done|lia]]).
  - do 7 (destruct comp as [|? comp];
          [simpl; split; [intros [? _]; lia|intros _; split; [done|lia]]|]).
    simpl. split; [done|]. intros H. exfalso. apply H. split; lia.
Qed.

(** X15.  [save_results_optimized], lines 81-85: when [all_results] has no
    [corrected_p_values], the three lines under the heading of the
    Benjamini-Hochberg corrected p-values show the uncorrected ones, with
    their markers: [comp[1]], [comp[4]] and, for the rate, the eighth entry
    of [disagreement_rates], or NaN when the rates are absent or fewer than
    eight. *)
Theorem uncorrected_p_values_shown_as_corrected (all_results : AllResults F)
    (comp : list F) :
  comparison_results all_results = Some comp →
  8 ≤ length comp →
  corrected_p_values all_results = None →
  let lines := (comparison_section zero nan all_results).1 in
  ∃ p_inter p_intra p_rate,
    comp !! 1 = Some p_inter ∧ comp !! 4 = Some p_intra
    ∧ match disagreement_rates all_results with
      | Some rates =>
          if bool_decide (8 ≤ length rates)
          then rates !! 7 = Some p_rate else p_rate = nan
      | None => p_rate = nan
      end
    ∧ lines !! 6 = Some [Text "Inter-rater Comparison (Corrected): ";
                         PValue p_inter; Text " "; Marker p_inter]
    ∧ lines !! 7 = Some [Text "Intra-rater Comparison (Corrected): ";
                         PValue p_intra; Text " "; Marker p_intra]
    ∧ lines !! 8
      = Some [Text "AI-Human Disagreement Rate Comparison (Corrected): ";
              PValue p_rate; Text " "; Marker p_rate].
Proof.
  destruct all_results as [comp' rates corrected].
  unfold comparison_section.
  cbn [comparison_results disagreement_rates corrected_p_values].
  intros -> Hcomp ->.
  set (dr := default [zero; zero; zero; zero; zero; zero; nan; nan] rates).
  destruct (rates_lines dr) as (l & d7 & -> & -> & Hd7).
  assert (match rates with
          | Some rates =>
              if bool_decide (8 ≤ length rates)
              then rates !! 7 = Some d7 else d7 = nan
          | None => d7 = nan
          end) as Hrate.
  { subst dr. destruct rates as [rates|]; simpl in Hd7.
    - case_bool_decide; [by destruct Hd7 as (? & _ & ? & _)|by destruct Hd7].
    - destruct Hd7 as (? & _ & Hd7 & _). by injection Hd7. }
  clear Hd7. clearbody dr.
  do 8 (destruct comp as [|? comp]; [simpl in Hcomp; lia|]).
  simpl. by eexists _, _, d7.
Qed.

(** X16.  [save_results_optimized], lines 72-80, when the two t-test lines
    can be written: the fifth line says that the rate comparison cannot be
    computed exactly when [disagreement_rates] is given with fewer than
    eight entries.  When it is absent the default list stands in, whose
    length is eight, and the line shows NaN for Z and for p. *)
Theorem rate_line_without_rates (all_results : AllResults F)
    (comp : list F) :
  comparison_results all_results = Some comp →
  6 ≤ length comp →
  let lines := (comparison_section zero nan all_results).1 in
  let cannot_compute :=
    [Text "AI-Human Disagreement Rate Comparison: Cannot compute (insufficient data)"] in
  (lines !! 4 = Some cannot_compute
   ↔ ∃ rates, disagreement_rates all_results = Some rates ∧ length rates < 8)
  ∧ (disagreement_rates all_results = None →
     lines !! 4 = Some [Text "AI-Human Disagreement Rate Comparison: Z=";
                        Fixed 4 nan; Text ", "; PValue nan]).
Proof.
  destruct all_results as [comp' rates corrected].
  unfold comparison_section.
  cbn [comparison_results disagreement_rates corrected_p_values].
  intros -> Hcomp.
  set (dr := default [zero; zero; zero; zero; zero; zero; nan; nan] rates).
  destruct (rates_lines dr) as (l & d7 & -> & -> & Hd7).
  do 6 (destruct comp as [|? comp]; [simpl in Hcomp; lia|]).
  do 11 (erewrite wbind_fst by reflexivity; cbv beta).
  match goal with
  | |- context [(wbind ?m ?k).1] => generalize ((wbind m k).1)
  end.
  intros rest. cbn [fst write item wret app lookup list_lookup].
  subst dr. destruct rates as [rates|]; simpl in Hd7.
  - case_bool_decide as Hlen.
    + destruct Hd7 as (d6 & _ & _ & ->). split; [|done]. split.
      * intros H. discriminate H.
      * intros (rates' & H & Hlen'). injection H as <-. lia.
    + destruct Hd7 as [_ ->]. split; [|done]. split; [|done].
      intros _. exists rates. split; [done|lia].
  - destruct Hd7 as (d6 & Hd6 & Hd7 & ->).
    injection Hd6 as <-. injection Hd7 as <-. split; [|done]. split.
    + intros H. discriminate H.
    + by intros (rates' & H & _).
Qed.

End comparison_report_completion.

Lemma uncorrected_p_values_shown_as_corrected_witness :
  ∃ p_inter p_intra p_rate : option Q,
    [Some (21 # 10); Some (4 # 100); Some (1 # 2); Some (13 # 10);
     Some (2 # 10); Some (3 # 10); Some (3 # 100); Some (25 # 100)]%Q !! 1
    = Some p_inter
    ∧ [Some (21 # 10); Some (4 # 100); Some (1 # 2); Some (13 # 10);
       Some (2 # 10); Some (3 # 10); Some (3 # 100); Some (25 # 100)]%Q !! 4
      = Some p_intra
    ∧ p_rate = None
    ∧ (comparison_section (Some 0%Q) None uncorrected_results).1 !! 6
      = Some [Text "Inter-rater Comparison (Corrected): ";
              PValue p_inter; Text " "; Marker p_inter]
    ∧ (comparison_section (Some 0%Q) None uncorrected_results).1 !! 7
      = Some [Text "Intra-rater Comparison (Corrected): ";
              PValue p_intra; Text " "; Marker p_intra]
    ∧ (comparison_section (Some 0%Q) None uncorrected_results).1 !! 8
      = Some [Text "AI-Human Disagreement Rate Comparison (Corrected): ";
              PValue p_rate; Text " "; Marker p_rate].
Proof.
  apply (uncorrected_p_values_shown_as_corrected (Some 0%Q) None
           uncorrected_results
           [Some (21 # 10); Some (4 # 100); Some (1 # 2); Some (13 # 10);
            Some (2 # 10); Some (3 # 10); Some (3 # 100); Some (25 # 100)]%Q).
  - reflexivity.
  - simpl. lia.
  - reflexivity.
Defined.

Lemma rate_line_without_rates_witness :
  ((comparison_section (Some 0%Q) None uncorrected_results).1 !! 4
   = Some [Text "AI-Human Disagreement Rate Comparison: Cannot compute (insufficient data)"]
   ↔ ∃ rates, disagreement_rates uncorrected_results = Some rates
              ∧ length rates < 8)
  ∧ (disagreement_rates uncorrected_results = None →
     (comparison_section (Some 0%Q) None uncorrected_results).1 !! 4
     = Some [Text "AI-Human Disagreement Rate Comparison: Z=";
             Fixed 4 None; Text ", "; PValue None]).
Proof.
  apply (rate_line_without_rates (Some 0%Q) None uncorrected_results
           [Some (21 # 10); Some (4 # 100); Some (1 # 2); Some (13 # 10);
            Some (2 # 10); Some (3 # 10); Some (3 # 100); Some (25 # 100)]%Q).
  - reflexivity.
  - simpl. lia.
Defined.
